(** * A vocabulary-assessment quiz (HSK / IELTS / DELE)

    Shallow embedding of the TypeScript sources
      - [types.ts]                      (Question, UserAnswer, Language),
      - [components/ResultsScreen.tsx]  (score, level estimate, vocabulary line),
      - [services/geminiService.ts]     (shuffleArray, generateQuizQuestions,
                                         generatePronunciation),
      - [components/QuizScreen.tsx]     (handleAnswerSelect, handlePlayPauseToggle,
                                         decode, decodeAudioData, getButtonClass),
      - [components/ProgressBar.tsx]    (the width of the bar),
      - [App.tsx]                       (handleStart, handleFinish, handleRestart,
                                         renderContent),
    followed by the properties proved about them: first those the
    specification states, then further ones read off the code (errors and
    edge cases, invariants of the quiz screen and of the application, how
    the parts compose).

    JavaScript numbers are IEEE-754 binary64 values; they are embedded as
    Rocq's primitive [float], so that [/], [*], [>=] and [>] below are the
    very operations the program performs (rounding included). Section
    [binary64] relates them to exact arithmetic: on counts below 2^32 the
    threshold test [accuracy >= 0.6] decides [3 * total <= 5 * correct], and
    the score is an integer nearest to [100 * correct / total]; section
    [random_indices] does the same for the index
    [Math.floor(Math.random() * (i + 1))] of the shuffle.

    A JavaScript string is embedded as the Rocq [string] of its UTF-8 bytes
    (an unpaired surrogate as the three bytes of its code point). Two
    strings are equal, or empty, exactly when the JavaScript strings are,
    and a literal of ASCII characters reads as in the source; only [trim]
    and the iteration of a string look inside. The binary string that
    [atob] returns is held by its character codes instead, one character
    for each. What [JSON.parse] returns is a value of type [JSON]: the
    program types it [Question[]] without a check. *)

From Stdlib Require Import ZArith QArith Floats Uint63 Lia.
From Stdlib Require Import DecimalString.
From stdpp Require Import gmap strings list fin_maps.

Set Default Proof Using "Type".
#[local] Set Warnings "-inexact-float".
#[local] Set Warnings "-register-all".

(** ** JavaScript built-ins used by the program *)

Module JS.

(** A non-negative integer (an array length, a counter) as a Number.
    Exact below 2^53; array lengths stay below 2^32. *)
Definition Number_of_nat (n : nat) : float :=
  PrimFloat.of_uint63 (Uint63.of_Z (Z.of_nat n)).

(** An integer as a Number (exact below 2^53 in absolute value). *)
Definition Number_of_Z (z : Z) : float :=
  if (z <? 0)%Z then PrimFloat.opp (PrimFloat.of_uint63 (Uint63.of_Z (- z)))
  else PrimFloat.of_uint63 (Uint63.of_Z z).

(** [Math.round] on the finite value [(-1)^s * m * 2^e] with [e < 0]:
    the integer nearest to it, a tie going towards +infinity, that is
    [floor (v + 1/2)] computed exactly on integers. *)
Definition round_half_up (s : bool) (m : positive) (e : Z) : Z :=
  let sm := if s then Z.neg m else Z.pos m in
  Z.shiftr (2 * sm + 2 ^ (- e))%Z (1 - e)%Z.

(** [Math.round(x)]: NaN, the infinities, the zeros and the values that
    are integers already are returned as they are; a result of zero keeps
    the sign of [x]. *)
Definition Math_round (x : float) : float :=
  match Prim2SF x with
  | S754_finite s m e =>
      if (0 <=? e)%Z then x
      else
        let z := round_half_up s m e in
        if (z =? 0)%Z then (if s then PrimFloat.neg_zero else PrimFloat.zero)
        else Number_of_Z z
  | _ => x
  end.

(** Decimal digits of the fraction [num / 2^k], [0 <= num < 2^k]. The
    expansion of a binary fraction ends after at most [k] digits. *)
Fixpoint fraction_digits (fuel : nat) (num : Z) (k : Z) : string :=
  match fuel with
  | O => EmptyString
  | S fuel' =>
      if (num =? 0)%Z then EmptyString
      else
        let d := Z.shiftr (10 * num) k in
        let r := Z.land (10 * num) (Z.ones k) in
        String (Ascii.ascii_of_nat (48 + Z.to_nat d)) (fraction_digits fuel' r k)
  end.

Definition decimal_of_Z (z : Z) : string :=
  NilZero.string_of_uint (N.to_uint (Z.to_N z)).

(** [String(x)] for a Number. The program only applies it to question
    levels. The model prints the exact decimal expansion of [x]; this is
    what JavaScript prints whenever that expansion is the shortest one
    that reads back as [x] (every integer below 2^53, every multiple of
    0.5, such as all the values of LEVEL_ORDER). For other Numbers
    JavaScript prints fewer digits or an exponent; like JavaScript's, the
    rendering here is different for different Numbers (the two zeros
    apart), which is all the level dictionaries depend on. *)
Definition Number_toString (x : float) : string :=
  match Prim2SF x with
  | S754_zero _ => "0"
  | S754_infinity s => if s then "-Infinity" else "Infinity"
  | S754_nan => "NaN"
  | S754_finite s m e =>
      let sign : string := if s then "-" else "" in
      if (0 <=? e)%Z then sign +:+ decimal_of_Z (Z.pos m * 2 ^ e)
      else
        let k := (- e)%Z in
        let int_part := Z.shiftr (Z.pos m) k in
        let frac := Z.land (Z.pos m) (Z.ones k) in
        sign +:+ decimal_of_Z int_part +:+
          (if (frac =? 0)%Z then "" else "." +:+ fraction_digits (Z.to_nat k) frac k)
  end.

(** Truthiness of a Number ([0], [-0] and [NaN] are falsy) and of a
    string (only the empty string is falsy). *)
Definition Number_truthy (x : float) : bool :=
  match Prim2SF x with
  | S754_zero _ | S754_nan => false
  | _ => true
  end.

Definition string_truthy (s : string) : bool :=
  match s with EmptyString => false | _ => true end.

(** [Math.floor] on the finite value [(-1)^s * m * 2^e] with [e < 0]: the
    shift to the right of a negative integer rounds towards -infinity. *)
Definition floor_value (s : bool) (m : positive) (e : Z) : Z :=
  Z.shiftr (if s then Z.neg m else Z.pos m) (- e).

(** [Math.floor(x)]: NaN, the infinities, the zeros and the values that
    are integers already are returned as they are; the floor of a value
    between 0 and 1 is [+0]. *)
Definition Math_floor (x : float) : float :=
  match Prim2SF x with
  | S754_finite s m e =>
      if (0 <=? e)%Z then x
      else
        let z := floor_value s m e in
        if (z =? 0)%Z then PrimFloat.zero else Number_of_Z z
  | _ => x
  end.

(** The element that a Number names when it is used as a property key of
    an array: the integers from 0 to 2^32 - 2 are array indices ([-0] and
    [+0] both name element 0); any other Number names a property that is
    no element. *)
Definition array_index (x : float) : option nat :=
  match Prim2SF x with
  | S754_zero _ => Some 0
  | S754_finite false m e =>
      let whole :=
        if (0 <=? e)%Z then true else (Z.land (Z.pos m) (Z.ones (- e)) =? 0)%Z in
      let v := if (0 <=? e)%Z then (Z.pos m * 2 ^ e)%Z else Z.shiftr (Z.pos m) (- e) in
      if whole && (v <? 2 ^ 32 - 1)%Z then Some (Z.to_nat v) else None
  | _ => None
  end.

(** The code points that [String.prototype.trim] strips (WhiteSpace and
    LineTerminator of ECMAScript), by their UTF-8 bytes: U+0009 to U+000D
    and U+0020 in one byte; U+00A0 in two; U+1680, U+2000 to U+200A,
    U+2028, U+2029, U+202F, U+205F, U+3000 and U+FEFF in three. *)
Definition white_space_1 (c : Ascii.ascii) : bool :=
  let n := Ascii.N_of_ascii c in
  ((9 <=? n) && (n <=? 13) || (n =? 32))%N.

Definition white_space_2 (c1 c2 : Ascii.ascii) : bool :=
  ((Ascii.N_of_ascii c1 =? 194) && (Ascii.N_of_ascii c2 =? 160))%N.

Definition white_space_3 (c1 c2 c3 : Ascii.ascii) : bool :=
  let n1 := Ascii.N_of_ascii c1 in
  let n2 := Ascii.N_of_ascii c2 in
  let n3 := Ascii.N_of_ascii c3 in
  ((n1 =? 225) && (n2 =? 154) && (n3 =? 128)
   || (n1 =? 226) && (n2 =? 128)
      && ((128 <=? n3) && (n3 <=? 138) || (n3 =? 168) || (n3 =? 169) || (n3 =? 175))
   || (n1 =? 226) && (n2 =? 129) && (n3 =? 159)
   || (n1 =? 227) && (n2 =? 128) && (n3 =? 128)
   || (n1 =? 239) && (n2 =? 187) && (n3 =? 191))%N.

(** The white space at the head of a string is dropped. With [backwards]
    the string is one read from its end: the bytes of each code point
    come last byte first. *)
Fixpoint strip (backwards : bool) (s : string) : string :=
  match s with
  | String c1 s1 =>
      if white_space_1 c1 then strip backwards s1
      else
        match s1 with
        | String c2 s2 =>
            if (if backwards then white_space_2 c2 c1 else white_space_2 c1 c2)
            then strip backwards s2
            else
              match s2 with
              | String c3 s3 =>
                  if (if backwards then white_space_3 c3 c2 c1 else white_space_3 c1 c2 c3)
                  then strip backwards s3
                  else s
              | EmptyString => s
              end
        | EmptyString => s
        end
  | EmptyString => EmptyString
  end.

(** [String.prototype.trim]. *)
Definition trim (s : string) : string :=
  String.rev (strip true (String.rev (strip false s))).

(** A byte that continues a code point begun by an earlier byte. *)
Definition continuation (c : Ascii.ascii) : bool :=
  let n := Ascii.N_of_ascii c in ((128 <=? n) && (n <? 192))%N.

(** The iteration of a string ([[...s]]): one string for each code point. *)
Fixpoint code_points (s : string) : list string :=
  match s with
  | EmptyString => []
  | String c s' =>
      match code_points s' with
      | String c' next :: rest =>
          if continuation c' then String c (String c' next) :: rest
          else String c EmptyString :: String c' next :: rest
      | others => String c EmptyString :: others
      end
  end.

End JS.


(** ** Data model ([types.ts]) *)

Inductive Language := hsk | ielts | dele.

(** [level: number | string]. *)
Inductive Level :=
| LNum (x : float)
| LStr (s : string).

Record Question := {
  questionText : string;
  options : list string;
  correctAnswer : string;
  level : Level;
  contextSentence : option string;
}.

Record UserAnswer := {
  questionIndex : nat;
  answer : string;
}.

(** [String(level)] and the template literal [`${level}`]. *)
Definition String_level (l : Level) : string :=
  match l with
  | LNum x => JS.Number_toString x
  | LStr s => s
  end.

(** A value as [JSON.parse] returns it. The members of an object are its
    own properties, each key once. *)
Inductive JSON :=
| JNull
| JBool (b : bool)
| JNumber (x : float)
| JString (s : string)
| JArray (items : list JSON)
| JObject (members : gmap string JSON).

(** Truthiness of a [string | number | null] value. *)
Definition truthy_level (l : option Level) : bool :=
  match l with
  | None => false
  | Some (LNum x) => JS.Number_truthy x
  | Some (LStr s) => JS.string_truthy s
  end.

(** ** The results estimator ([components/ResultsScreen.tsx]) *)

Module Results.

Definition LEVEL_ORDER (language : Language) : list Level :=
  match language with
  | hsk => [LNum 1; LNum 2; LNum 3; LNum 4; LNum 5; LNum 6]
  | ielts => [LNum 4; LNum 4.5; LNum 5; LNum 5.5; LNum 6; LNum 6.5;
              LNum 7; LNum 7.5; LNum 8; LNum 8.5; LNum 9]
  | dele => [LStr "A1"; LStr "A2"; LStr "B1"; LStr "B2"; LStr "C1"; LStr "C2"]
  end%float.

(** [questions[ua.questionIndex].correctAnswer === ua.answer]; reading
    [.correctAnswer] of [undefined] (index out of range) throws a
    TypeError, which is [None] here. *)
Definition is_correct (questions : list Question) (ua : UserAnswer) : option bool :=
  question ← questions !! questionIndex ua;
  Some (bool_decide (correctAnswer question = answer ua)).

(** [Array.prototype.filter] with a callback that may throw. *)
Fixpoint filter_throwing {A} (f : A → option bool) (l : list A) : option (list A) :=
  match l with
  | [] => Some []
  | x :: l' =>
      b ← f x;
      kept ← filter_throwing f l';
      Some (if b : bool then x :: kept else kept)
  end.

Definition correctAnswersCount (questions : list Question)
    (userAnswers : list UserAnswer) : option nat :=
  length <$> filter_throwing (is_correct questions) userAnswers.

(** [Math.round((correctAnswersCount / questions.length) * 100)]. *)
Definition calculatedScore (count : nat) (questions : list Question) : float :=
  JS.Math_round (JS.Number_of_nat count / JS.Number_of_nat (length questions) * 100)%float.

(** [dict[levelStr] = (dict[levelStr] || 0) + 1]. The dictionaries are read
    back at the keys of LEVEL_ORDER only, none of which names a property
    inherited from [Object.prototype]; own properties are all there is to
    model. *)
Definition increment (levelStr : string) (dict : gmap string nat) : gmap string nat :=
  <[levelStr := default 0 (dict !! levelStr) + 1]> dict.

(** The first [forEach]: questions per level. *)
Definition totalByLevel (questions : list Question) : gmap string nat :=
  foldl (λ dict q, increment (String_level (level q)) dict) ∅ questions.

(** The second [forEach]: correct answers per level. *)
Fixpoint correctByLevel_from (questions : list Question) (userAnswers : list UserAnswer)
    (dict : gmap string nat) : option (gmap string nat) :=
  match userAnswers with
  | [] => Some dict
  | ua :: rest =>
      question ← questions !! questionIndex ua;
      if bool_decide (correctAnswer question = answer ua)
      then correctByLevel_from questions rest (increment (String_level (level question)) dict)
      else correctByLevel_from questions rest dict
  end.

Definition correctByLevel (questions : list Question) (userAnswers : list UserAnswer) :
    option (gmap string nat) :=
  correctByLevel_from questions userAnswers ∅.

(** [totalByLevel[levelStr] > 0 ? (correctByLevel[levelStr] || 0) / totalByLevel[levelStr] : 0];
    [undefined > 0] is false. *)
Definition accuracy (total correct : gmap string nat) (levelStr : string) : float :=
  match total !! levelStr with
  | Some t =>
      if bool_decide (0 < t)
      then (JS.Number_of_nat (default 0%nat (correct !! levelStr)) / JS.Number_of_nat t)%float
      else 0%float
  | None => 0%float
  end.

(** [for (const level of order) { ... if (accuracy >= 0.6) passedLevel = level; else break; }] *)
Fixpoint level_loop (total correct : gmap string nat) (order : list Level)
    (passedLevel : option Level) : option Level :=
  match order with
  | [] => passedLevel
  | level :: rest =>
      let levelStr := String_level level in
      if (0.6 <=? accuracy total correct levelStr)%float
      then level_loop total correct rest (Some level)
      else passedLevel
  end.

(** The floor value and the below-minimum label of each [case]. *)
Definition floor_level (language : Language) : string :=
  match language with hsk => "1" | ielts => "4.0" | dele => "A1" end.

Definition below_label (language : Language) : string :=
  match language with hsk => "Below 1" | ielts => "Below 4.0" | dele => "Below A1" end.

Definition calculatedPrefix (language : Language) : string :=
  match language with hsk => "HSK Level" | ielts => "IELTS Band" | dele => "DELE Level" end.

(** [passedLevel ? `${passedLevel}` : (calculatedScore > 20 ? floor : below)]. *)
Definition finalLevel (language : Language) (passedLevel : option Level)
    (score : float) : string :=
  match passedLevel with
  | Some l =>
      if truthy_level passedLevel then String_level l
      else if (20 <? score)%float then floor_level language else below_label language
  | None =>
      if (20 <? score)%float then floor_level language else below_label language
  end.

(** What the memoised computation hands to the view (the vocabulary-size
    line, which depends on the level only, is left out). *)
Record Summary := {
  correctAnswers : nat;
  score : float;
  estimatedLevel : string;
  levelPrefix : string;
}.

Definition passedLevel (questions : list Question) (userAnswers : list UserAnswer)
    (language : Language) : option (option Level) :=
  correct ← correctByLevel questions userAnswers;
  Some (level_loop (totalByLevel questions) correct (LEVEL_ORDER language) None).

Definition ResultsScreen (questions : list Question) (userAnswers : list UserAnswer)
    (language : Language) : option Summary :=
  count ← correctAnswersCount questions userAnswers;
  let calculatedScore := calculatedScore count questions in
  passed ← passedLevel questions userAnswers language;
  Some {| correctAnswers := count;
          score := calculatedScore;
          estimatedLevel := finalLevel language passed calculatedScore;
          levelPrefix := calculatedPrefix language |}.

(** [VOCAB_ESTIMATES]. *)
Definition VOCAB_ESTIMATES (language : Language) : gmap string N :=
  match language with
  | hsk =>
      list_to_map [("1", 150); ("2", 300); ("3", 600); ("4", 1200); ("5", 2500);
                   ("6", 5000)]
  | dele =>
      list_to_map [("A1", 500); ("A2", 1000); ("B1", 2000); ("B2", 4000); ("C1", 8000);
                   ("C2", 16000)]
  | ielts =>
      list_to_map [("4", 2000); ("4.5", 2500); ("5", 3000); ("5.5", 4000); ("6", 5000);
                   ("6.5", 6500); ("7", 8000); ("7.5", 12000); ("8", 16000);
                   ("8.5", 16000); ("9", 16000)]
  end%N.

(** The key the fallback of each [case] looks the vocabulary up with. *)
Definition floor_key (language : Language) : string :=
  match language with hsk => "1" | ielts => "4" | dele => "A1" end.

(** [passedLevel ? String(passedLevel) : (calculatedScore > 20 ? key : null)]. *)
Definition finalLevelKey (language : Language) (passedLevel : option Level)
    (score : float) : option string :=
  match passedLevel with
  | Some l =>
      if truthy_level passedLevel then Some (String_level l)
      else if (20 <? score)%float then Some (floor_key language) else None
  | None =>
      if (20 <? score)%float then Some (floor_key language) else None
  end.

Definition vocab_placeholder : string := "~100-200 words".

(** [calculatedVocab]. [toLocaleString] formats a number for the locale of
    the browser. The key is [String] of a level of LEVEL_ORDER or a floor
    key, never the name of a property inherited from [Object.prototype]. *)
Definition calculatedVocab (toLocaleString : N → string) (language : Language)
    (finalLevelKey : option string) : string :=
  match finalLevelKey with
  | Some key =>
      if JS.string_truthy key then
        match VOCAB_ESTIMATES language !! key with
        | Some size =>
            if (size =? 0)%N then vocab_placeholder
            else "~" +:+ toLocaleString size +:+ " words"
        | None => vocab_placeholder
        end
      else vocab_placeholder
  | None => vocab_placeholder
  end.

(** The [estimatedVocab] field of what the memoised computation returns. *)
Definition estimatedVocab (toLocaleString : N → string) (questions : list Question)
    (userAnswers : list UserAnswer) (language : Language) : option string :=
  count ← correctAnswersCount questions userAnswers;
  passed ← passedLevel questions userAnswers language;
  Some (calculatedVocab toLocaleString language
          (finalLevelKey language passed (calculatedScore count questions))).

End Results.

(** ** The question service ([services/geminiService.ts]) *)

Module Gemini.

(** [Math.floor(Math.random() * (i + 1))] as the index it is used for.
    [Math.random()] is the [n]-th value of a stream [random : nat → float];
    its contract (a Number from 0 up to, not including, 1) is a hypothesis
    of the theorems, not of the definitions. [None]: the Number names no
    element of an array. *)
Definition random_index (r : float) (i : nat) : option nat :=
  JS.array_index (JS.Math_floor (r * JS.Number_of_nat (i + 1))%float).

(** [[shuffled[i], shuffled[j]] = [shuffled[j], shuffled[i]]]. Both reads
    happen before the writes. With [0 <= j <= i < length] both reads hit;
    the other branch (JavaScript would store [undefined] and grow the
    array) is never taken by the loop below. *)
Definition swap {T} (i j : nat) (shuffled : list T) : list T :=
  match shuffled !! j, shuffled !! i with
  | Some at_j, Some at_i => <[j := at_i]> (<[i := at_j]> shuffled)
  | _, _ => shuffled
  end.

(** [for (let i = shuffled.length - 1; i > 0; i--)], threading the number
    of calls made to [Math.random] so far. While [Math.random] keeps its
    contract, [j] is an index from 0 to [i] ([random_index_le] below);
    should it name no element, the array would come to hold [undefined],
    which is no value of [T], and the model leaves the array as it is. *)
Fixpoint shuffle_loop {T} (random : nat → float) (i : nat) (shuffled : list T)
    (calls : nat) : list T * nat :=
  match i with
  | O => (shuffled, calls)
  | S i' =>
      match random_index (random calls) i with
      | Some j => shuffle_loop random i' (swap i j shuffled) (S calls)
      | None => shuffle_loop random i' shuffled (S calls)
      end
  end.

(** [shuffleArray] on an argument of its declared type; [None] is a falsy
    one ([if (!array) return []]). *)
Definition shuffleArray {T} (random : nat → float) (array : option (list T))
    (calls : nat) : list T * nat :=
  match array with
  | None => ([], calls)
  | Some array => shuffle_loop random (length array - 1) array calls
  end.

(** [value.key] for a key that no prototype defines ([options],
    [correctAnswer]): an own member of an object, [undefined] ([None]) on
    any other value (on [null] the read throws; see [processQuestions]). *)
Definition member (key : string) (value : JSON) : option JSON :=
  match value with
  | JObject members => members !! key
  | _ => None
  end.

(** Truthiness of a value of [JSON.parse]. *)
Definition truthy (value : JSON) : bool :=
  match value with
  | JNull => false
  | JBool b => b
  | JNumber x => JS.Number_truthy x
  | JString s => JS.string_truthy s
  | JArray _ | JObject _ => true
  end.

(** What [shuffleArray] makes of an argument that was typed [T[]] without
    a check: [Some None] when it is falsy, [Some (Some items)] when
    [[...array]] spreads it into [items] (an array; a string, by code
    points), [None] when the spread throws (a truthy value that is not
    iterable: [true], a number, an object). *)
Definition spread (array : option JSON) : option (option (list JSON)) :=
  match array with
  | None => Some None
  | Some value =>
      if negb (truthy value) then Some None
      else
        match value with
        | JArray items => Some (Some items)
        | JString s => Some (Some (JString <$> JS.code_points s))
        | _ => None
        end
  end.

(** The object [{ ...q, options: shuffleArray(q.options) }]: the own
    properties of [q], with [options] set to the shuffled array. *)
Record Processed := {
  element : JSON;
  shuffled_options : list JSON;
}.

(** [questions.map(q => ({ ...q, options: shuffleArray(q.options) }))].
    [None]: the callback throws, on an element that is [null] (reading
    [q.options]) or whose options cannot be spread. *)
Fixpoint processQuestions (random : nat → float) (questions : list JSON)
    (calls : nat) : option (list Processed) :=
  match questions with
  | [] => Some []
  | q :: rest =>
      match q with
      | JNull => None
      | _ =>
          array ← spread (member "options" q);
          let '(shuffled, calls') := shuffleArray random array calls in
          processed ← processQuestions random rest calls';
          Some ({| element := q; shuffled_options := shuffled |} :: processed)
      end
  end.

(** SameValueZero, the comparison of [includes]: primitive values by
    value ([+0] and [-0] are the same, NaN is the same as itself), arrays
    and objects by identity, and no two of the values that [JSON.parse]
    has made are the same object. *)
Definition same_value_zero (x y : JSON) : bool :=
  match x, y with
  | JNull, JNull => true
  | JBool a, JBool b => Bool.eqb a b
  | JNumber a, JNumber b => (a =? b)%float || (PrimFloat.is_nan a && PrimFloat.is_nan b)
  | JString a, JString b => bool_decide (a = b)
  | _, _ => false
  end.

(** [items.includes(searchElement)]; no item is [undefined]. *)
Definition includes (items : list JSON) (searchElement : option JSON) : bool :=
  match searchElement with
  | Some value => existsb (same_value_zero value) items
  | None => false
  end.

(** [q.options && q.options.length === 4 && q.options.includes(q.correctAnswer)]
    (an array is truthy, also when empty). *)
Definition valid (q : Processed) : bool :=
  bool_decide (length (shuffled_options q) = 4)
  && includes (shuffled_options q) (member "correctAnswer" (element q)).

(** A returned object read as the [Question] the program takes it for:
    its texts are strings, its level is a number or a string, the context
    sentence is a string or absent. [None]: the object is no [Question]. *)
Definition as_string (value : JSON) : option string :=
  match value with
  | JString s => Some s
  | _ => None
  end.

Definition as_level (value : JSON) : option Level :=
  match value with
  | JNumber x => Some (LNum x)
  | JString s => Some (LStr s)
  | _ => None
  end.

Definition as_Question (q : Processed) : option Question :=
  questionText ← member "questionText" (element q) ≫= as_string;
  options ← mapM as_string (shuffled_options q);
  correctAnswer ← member "correctAnswer" (element q) ≫= as_string;
  level ← member "level" (element q) ≫= as_level;
  contextSentence ←
    match member "contextSentence" (element q) with
    | None => Some None
    | Some (JString s) => Some (Some s)
    | Some _ => None
    end;
  Some {| questionText := questionText; options := options;
          correctAnswer := correctAnswer; level := level;
          contextSentence := contextSentence |}.

(** What the function does besides returning. *)
Inductive Effect :=
| GenerateContent (language : Language)   (* the network call; the prompt and schema are fixed by the language *)
| ConsoleError.

(** The provider's answer: [response.text] is [undefined] when the answer
    holds no text. *)
Record Response := { text : option string }.

(** The world around one call: the configured credential, the provider's
    answer to the request ([None]: the call rejects), [JSON.parse] ([None]:
    it throws) and [Math.random]. *)
Record Environment := {
  API_KEY : option string;
  generateContent : Language → option Response;
  JSON_parse : string → option JSON;
  random : nat → float;
}.

Inductive Promise (A : Type) :=
| Fulfilled (value : A)
| Rejected (message : string).
Arguments Fulfilled {A} value.
Arguments Rejected {A} message.

Definition missing_key_message : string := "API_KEY environment variable not set.".
Definition failure_message : string :=
  "Failed to communicate with the AI model. Please check your API key and try again.".

(** [questions.map]: a function on an array; on [null] the read throws, and
    no other value of [JSON.parse] has a [map] that can be called. *)
Definition as_array (value : JSON) : option (list JSON) :=
  match value with
  | JArray items => Some items
  | _ => None
  end.

(** The body of the [try] block once the provider has answered; [None]
    when something in it throws. *)
Definition try_block (env : Environment) (response : option Response) :
    option (list Processed) :=
  response ← response;
  text ← text response;
  let responseText := JS.trim text in
  if negb (JS.string_truthy responseText) then None
  else
    parsed ← JSON_parse env responseText;
    questions ← as_array parsed;
    processedQuestions ← processQuestions (random env) questions 0;
    Some (filter (λ q, valid q = true) processedQuestions).

Definition generateQuizQuestions (env : Environment) (language : Language) :
    Promise (list Processed) * list Effect :=
  match API_KEY env with
  | Some key =>
      if JS.string_truthy key then
        match try_block env (generateContent env language) with
        | Some result => (Fulfilled result, [GenerateContent language])
        | None => (Rejected failure_message, [GenerateContent language; ConsoleError])
        end
      else (Rejected missing_key_message, [])
  | None => (Rejected missing_key_message, [])
  end.

(** The outcome as the caller, which declares it [Promise<Question[]>],
    takes it; [None] when a returned object is no [Question]. *)
Definition typed (outcome : Promise (list Processed)) : option (Promise (list Question)) :=
  match outcome with
  | Fulfilled questions => Fulfilled <$> mapM as_Question questions
  | Rejected message => Some (Rejected message)
  end.

(** The part of the provider's text-to-speech response that
    [generatePronunciation] reads; every step of
    [response.candidates?.[0]?.content?.parts?.[0]?.inlineData?.data] may
    be missing. *)
Record Blob := { data : option string }.
Record Part := { inlineData : option Blob }.
Record Content := { parts : option (list Part) }.
Record Candidate := { content : option Content }.
Record SpeechResponse := { candidates : option (list Candidate) }.

Definition base64Audio (response : SpeechResponse) : option string :=
  all ← candidates response;
  candidate ← all !! 0;
  body ← content candidate;
  pieces ← parts body;
  part ← pieces !! 0;
  blob ← inlineData part;
  data blob.

Inductive SpeechEffect :=
| GenerateSpeech (text : string)   (* the network call *)
| SpeechConsoleError.

Definition pronunciation_failure_message : string :=
  "Failed to generate pronunciation audio.".

(** [generatePronunciation]: the configured credential, the provider's
    answer to the request for [text] ([None]: the call rejects). *)
Definition generatePronunciation (API_KEY : option string)
    (generateContent : string → option SpeechResponse) (text : string) :
    Promise string * list SpeechEffect :=
  let failed := (Rejected pronunciation_failure_message,
                 [GenerateSpeech text; SpeechConsoleError]) in
  match API_KEY with
  | Some key =>
      if JS.string_truthy key then
        match generateContent text with
        | Some response =>
            match base64Audio response with
            | Some audio =>
                if JS.string_truthy audio then (Fulfilled audio, [GenerateSpeech text])
                else failed
            | None => failed
            end
        | None => failed
        end
      else (Rejected missing_key_message, [])
  | None => (Rejected missing_key_message, [])
  end.

End Gemini.

(** ** The quiz runner ([components/QuizScreen.tsx]) *)

Module Quiz.

(** A decoded [AudioBuffer]: its channel data. *)
Definition AudioBuffer := list float.

Record Props := {
  questions : list Question;
  language : Language;
}.

(** The component's [useState] cells and [useRef] cells. A ref is modelled
    by what the handlers test: whether [.current] is set
    ([audioContextRef], [gainNodeRef]; both are set by the mount effect)
    and, for [sourceNodeRef], the buffer of the source it holds. *)
Record State := {
  currentQuestionIndex : nat;
  userAnswers : list UserAnswer;
  selectedOption : option string;
  isAnimating : bool;
  audioCache : gmap nat AudioBuffer;
  isAudioLoading : bool;
  isPlaying : bool;
  volume : float;
  audioContextRef : bool;
  gainNodeRef : bool;
  sourceNodeRef : option AudioBuffer;
}.

(** What a [setTimeout] callback does when it runs; the first one carries
    the [currentQuestionIndex] and [newAnswers] its closure captured. *)
Inductive Callback :=
| AdvanceOrFinish (seenIndex : nat) (newAnswers : list UserAnswer)
| EndAnimation.

Inductive Effect :=
| SourceStop
| SourceStart (buffer : AudioBuffer)
| CorrectSound
| IncorrectSound
| SetTimeout (callback : Callback) (delay : nat)
| OnFinish (answers : list UserAnswer)
| ConsoleError
| GeneratePronunciation (text : string)
| SetGain (value : float).

Definition initial : State :=
  {| currentQuestionIndex := 0; userAnswers := []; selectedOption := None;
     isAnimating := false; audioCache := ∅; isAudioLoading := false;
     isPlaying := false; volume := 1%float;
     audioContextRef := true; gainNodeRef := true; sourceNodeRef := None |}.

(** The state setters. *)
Definition setCurrentQuestionIndex (f : nat → nat) (st : State) : State :=
  {| currentQuestionIndex := f (currentQuestionIndex st); userAnswers := userAnswers st;
     selectedOption := selectedOption st; isAnimating := isAnimating st;
     audioCache := audioCache st; isAudioLoading := isAudioLoading st;
     isPlaying := isPlaying st; volume := volume st;
     audioContextRef := audioContextRef st; gainNodeRef := gainNodeRef st;
     sourceNodeRef := sourceNodeRef st |}.

Definition setUserAnswers (v : list UserAnswer) (st : State) : State :=
  {| currentQuestionIndex := currentQuestionIndex st; userAnswers := v;
     selectedOption := selectedOption st; isAnimating := isAnimating st;
     audioCache := audioCache st; isAudioLoading := isAudioLoading st;
     isPlaying := isPlaying st; volume := volume st;
     audioContextRef := audioContextRef st; gainNodeRef := gainNodeRef st;
     sourceNodeRef := sourceNodeRef st |}.

Definition setSelectedOption (v : option string) (st : State) : State :=
  {| currentQuestionIndex := currentQuestionIndex st; userAnswers := userAnswers st;
     selectedOption := v; isAnimating := isAnimating st;
     audioCache := audioCache st; isAudioLoading := isAudioLoading st;
     isPlaying := isPlaying st; volume := volume st;
     audioContextRef := audioContextRef st; gainNodeRef := gainNodeRef st;
     sourceNodeRef := sourceNodeRef st |}.

Definition setIsAnimating (v : bool) (st : State) : State :=
  {| currentQuestionIndex := currentQuestionIndex st; userAnswers := userAnswers st;
     selectedOption := selectedOption st; isAnimating := v;
     audioCache := audioCache st; isAudioLoading := isAudioLoading st;
     isPlaying := isPlaying st; volume := volume st;
     audioContextRef := audioContextRef st; gainNodeRef := gainNodeRef st;
     sourceNodeRef := sourceNodeRef st |}.

Definition setAudioCache (f : gmap nat AudioBuffer → gmap nat AudioBuffer) (st : State) : State :=
  {| currentQuestionIndex := currentQuestionIndex st; userAnswers := userAnswers st;
     selectedOption := selectedOption st; isAnimating := isAnimating st;
     audioCache := f (audioCache st); isAudioLoading := isAudioLoading st;
     isPlaying := isPlaying st; volume := volume st;
     audioContextRef := audioContextRef st; gainNodeRef := gainNodeRef st;
     sourceNodeRef := sourceNodeRef st |}.

Definition setIsAudioLoading (v : bool) (st : State) : State :=
  {| currentQuestionIndex := currentQuestionIndex st; userAnswers := userAnswers st;
     selectedOption := selectedOption st; isAnimating := isAnimating st;
     audioCache := audioCache st; isAudioLoading := v;
     isPlaying := isPlaying st; volume := volume st;
     audioContextRef := audioContextRef st; gainNodeRef := gainNodeRef st;
     sourceNodeRef := sourceNodeRef st |}.

Definition setIsPlaying (v : bool) (st : State) : State :=
  {| currentQuestionIndex := currentQuestionIndex st; userAnswers := userAnswers st;
     selectedOption := selectedOption st; isAnimating := isAnimating st;
     audioCache := audioCache st; isAudioLoading := isAudioLoading st;
     isPlaying := v; volume := volume st;
     audioContextRef := audioContextRef st; gainNodeRef := gainNodeRef st;
     sourceNodeRef := sourceNodeRef st |}.

Definition setVolume (v : float) (st : State) : State :=
  {| currentQuestionIndex := currentQuestionIndex st; userAnswers := userAnswers st;
     selectedOption := selectedOption st; isAnimating := isAnimating st;
     audioCache := audioCache st; isAudioLoading := isAudioLoading st;
     isPlaying := isPlaying st; volume := v;
     audioContextRef := audioContextRef st; gainNodeRef := gainNodeRef st;
     sourceNodeRef := sourceNodeRef st |}.

Definition setSourceNodeRef (v : option AudioBuffer) (st : State) : State :=
  {| currentQuestionIndex := currentQuestionIndex st; userAnswers := userAnswers st;
     selectedOption := selectedOption st; isAnimating := isAnimating st;
     audioCache := audioCache st; isAudioLoading := isAudioLoading st;
     isPlaying := isPlaying st; volume := volume st;
     audioContextRef := audioContextRef st; gainNodeRef := gainNodeRef st;
     sourceNodeRef := v |}.

(** Truthiness of [selectedOption : string | null]. *)
Definition truthy_option (o : option string) : bool :=
  match o with
  | Some s => JS.string_truthy s
  | None => false
  end.

(** [if (sourceNodeRef.current) sourceNodeRef.current.stop()]. *)
Definition stop_source (st : State) : list Effect :=
  match sourceNodeRef st with
  | Some _ => [SourceStop]
  | None => []
  end.

(** [playCorrectSound] / [playIncorrectSound] ([utils/audioEffects.ts]):
    silent when a ref is not set. *)
Definition play_sound (st : State) (cue : Effect) : list Effect :=
  if audioContextRef st && gainNodeRef st then [cue] else [].

(** [handleAnswerSelect]. [None]: [currentQuestion] is [undefined] and
    reading [.correctAnswer] throws. *)
Definition handleAnswerSelect (props : Props) (answer : string) (st : State) :
    option (State * list Effect) :=
  if truthy_option (selectedOption st) then Some (st, [])
  else
    currentQuestion ← questions props !! currentQuestionIndex st;
    let cue :=
      if bool_decide (answer = correctAnswer currentQuestion)
      then CorrectSound else IncorrectSound in
    let newAnswers :=
      userAnswers st ++ [{| questionIndex := currentQuestionIndex st; answer := answer |}] in
    Some (setUserAnswers newAnswers (setSelectedOption (Some answer) (setIsPlaying false st)),
          stop_source st ++ play_sound st cue
          ++ [SetTimeout (AdvanceOrFinish (currentQuestionIndex st) newAnswers) 800]).

(** The effect hooked on [currentQuestionIndex], run when the index changes. *)
Definition question_changed (st : State) : State * list Effect :=
  (setIsPlaying false (setIsAnimating true st),
   stop_source st ++ [SetTimeout EndAnimation 300]).

(** A [setTimeout] callback runs. *)
Definition run_callback (props : Props) (callback : Callback) (st : State) :
    State * list Effect :=
  match callback with
  | AdvanceOrFinish seenIndex newAnswers =>
      if (Z.of_nat seenIndex <? Z.of_nat (length (questions props)) - 1)%Z
      then question_changed
             (setSelectedOption None (setCurrentQuestionIndex (λ prevIndex, prevIndex + 1) st))
      else (st, [OnFinish newAnswers])
  | EndAnimation => (setIsAnimating false st, [])
  end.

(** [playAudioFromBuffer]. *)
Definition playAudioFromBuffer (buffer : AudioBuffer) (st : State) : State * list Effect :=
  if audioContextRef st && gainNodeRef st
  then (setSourceNodeRef (Some buffer) st, stop_source st ++ [SourceStart buffer])
  else (st, []).

(** [source.onended]. *)
Definition source_ended (st : State) : State :=
  setSourceNodeRef None (setIsPlaying false st).

(** How the awaited part of [handlePlayPauseToggle] ends:
    [generatePronunciation] rejects, [decode] / [decodeAudioData] throws,
    or a buffer comes out. *)
Inductive Settled :=
| PronunciationRejected
| DecodeThrew
| Decoded (buffer : AudioBuffer).

(** The [catch] and [finally] blocks. *)
Definition pronunciation_failed (st : State) : State * list Effect :=
  (setIsAudioLoading false (setIsPlaying false st), [ConsoleError]).

(** [handlePlayPauseToggle] up to its first [await]. *)
Definition handlePlayPauseToggle (props : Props) (st : State) : State * list Effect :=
  if isAudioLoading st || truthy_option (selectedOption st) then (st, [])
  else if isPlaying st then (st, stop_source st)
  else
    let st := setIsPlaying true st in
    match audioCache st !! currentQuestionIndex st with
    | Some buffer => playAudioFromBuffer buffer st
    | None =>
        let st := setIsAudioLoading true st in
        match questions props !! currentQuestionIndex st with
        | Some currentQuestion => (st, [GeneratePronunciation (questionText currentQuestion)])
        | None => pronunciation_failed st
        end
    end.

(** [handlePlayPauseToggle] from the [await] on; [seenIndex] is the
    [currentQuestionIndex] its closure captured. *)
Definition handlePlayPauseToggle_settled (seenIndex : nat) (outcome : Settled)
    (st : State) : State * list Effect :=
  match outcome with
  | Decoded audioBuffer =>
      let st := setAudioCache (λ prev, <[seenIndex := audioBuffer]> prev) st in
      let '(st, effects) := playAudioFromBuffer audioBuffer st in
      (setIsAudioLoading false st, effects)
  | PronunciationRejected | DecodeThrew => pronunciation_failed st
  end.

(** [handleVolumeChange]. *)
Definition handleVolumeChange (newVolume : float) (st : State) : State * list Effect :=
  (setVolume newVolume st, if gainNodeRef st then [SetGain newVolume] else []).

(** [decode]: [atob] yields the binary string (one character per byte;
    [None] when it throws on text that is not base64), whose character
    codes fill a [Uint8Array]. *)
Definition decode (atob : string → option string) (base64 : string) : option (list Z) :=
  binaryString ← atob base64;
  Some ((λ c, Z.of_N (Ascii.N_of_ascii c)) <$> String.list_ascii_of_string binaryString).

(** [new Int16Array(data.buffer)]: the bytes taken in pairs, low byte first
    (the byte order of the platforms browsers run on), as signed 16-bit
    integers; a RangeError when the number of bytes is odd. *)
Fixpoint Int16Array (bytes : list Z) : option (list Z) :=
  match bytes with
  | [] => Some []
  | low :: high :: rest =>
      let unsigned := (low + 256 * high)%Z in
      tail ← Int16Array rest;
      Some ((if (unsigned <? 32768)%Z then unsigned else unsigned - 65536)%Z :: tail)
  | [_] => None
  end.

(** An [AudioBuffer] as [createBuffer] makes it. *)
Record CreatedBuffer := {
  sampleRate : N;
  channels : list AudioBuffer;
}.

(** [ctx.createBuffer(numChannels, frameCount, sampleRate)]: silence. The
    Web Audio API refuses (NotSupportedError) a buffer without channels or
    without frames. It also refuses channel counts and rates beyond what the
    browser supports; 1 channel at 24000 Hz, which is what the program asks
    for, is within what every browser has to support. *)
Definition createBuffer (numChannels frameCount : nat) (sampleRate : N) : option CreatedBuffer :=
  if (numChannels =? 0) || (frameCount =? 0) then None
  else Some {| sampleRate := sampleRate;
               channels := replicate numChannels (replicate frameCount 0%float) |}.

(** [dataInt16[k] / 32768.0]; reading past the end gives [undefined], and
    [undefined / 32768.0] is NaN. The quotient of a 16-bit integer by 2^15
    is a binary32 value, so storing it in the [Float32Array] keeps it. *)
Definition sample (dataInt16 : list Z) (k : nat) : float :=
  match dataInt16 !! k with
  | Some value => (JS.Number_of_Z value / 32768)%float
  | None => PrimFloat.nan
  end.

(** The inner loop: [channelData[i] = dataInt16[i * numChannels + channel] / 32768.0]. *)
Definition fill_channel (dataInt16 : list Z) (numChannels frameCount channel : nat)
    (channelData : AudioBuffer) : AudioBuffer :=
  foldl (λ channelData i, <[i := sample dataInt16 (i * numChannels + channel)]> channelData)
    channelData (seq 0 frameCount).

(** [decodeAudioData]. [ctx] tells whether the context passed in is set
    (calling [createBuffer] on [null] throws). [frameCount] is
    [dataInt16.length / numChannels]; when the division leaves a remainder,
    [createBuffer] truncates it and the one more round the loops make writes
    past the end of the channel, which a typed array ignores. Without
    channels the division is by zero and [createBuffer] refuses. *)
Definition decodeAudioData (data : list Z) (ctx : bool) (sampleRate : N)
    (numChannels : nat) :
    option CreatedBuffer :=
  dataInt16 ← Int16Array data;
  if ctx then
    let frameCount := length dataInt16 / numChannels in
    buffer ← createBuffer numChannels frameCount sampleRate;
    Some {| sampleRate := sampleRate;
            channels := imap (fill_channel dataInt16 numChannels frameCount)
                          (channels buffer) |}
  else None.

(** The awaited part of [handlePlayPauseToggle]:
    [decodeAudioData(decode(base64Audio), audioContextRef.current!, 24000, 1)]
    on what [generatePronunciation] resolved to. The buffer has one
    channel, which is what a [Decoded] outcome holds. *)
Definition awaited (atob : string → option string) (ctx : bool)
    (pronunciation : Gemini.Promise string) : Settled :=
  match pronunciation with
  | Gemini.Rejected _ => PronunciationRejected
  | Gemini.Fulfilled base64Audio =>
      match decode atob base64Audio ≫= λ data, decodeAudioData data ctx 24000%N 1 with
      | Some audioBuffer => Decoded (default [] (channels audioBuffer !! 0))
      | None => DecodeThrew
      end
  end.

(** [getButtonClass]. *)
Definition getButtonClass (currentQuestion : Question) (selectedOption : option string)
    (option : string) : string :=
  if negb (truthy_option selectedOption) then "bg-slate-800 hover:bg-slate-700"
  else if bool_decide (option = correctAnswer currentQuestion) then "bg-green-500/80"
  else if bool_decide (Some option = selectedOption)
          && negb (bool_decide (option = correctAnswer currentQuestion))
       then "bg-red-500/80"
  else "bg-slate-800 opacity-60".

End Quiz.

(** ** The progress bar ([components/ProgressBar.tsx]) *)

Module ProgressBar.

(** [(current / total) * 100]: the width of the bar, in percent. *)
Definition percentage (current total : float) : float :=
  (current / total * 100)%float.

(** [<ProgressBar current={currentQuestionIndex + 1} total={questions.length} />]
    as the quiz screen renders it. *)
Definition rendered (props : Quiz.Props) (st : Quiz.State) : float :=
  percentage (JS.Number_of_nat (Quiz.currentQuestionIndex st + 1))
    (JS.Number_of_nat (length (Quiz.questions props))).

End ProgressBar.

(** ** The application ([App.tsx]) *)

Module App.

Inductive QuizState := WELCOME | LOADING | QUIZ | RESULTS.

Record State := {
  quizState : QuizState;
  questions : list Question;
  userAnswers : list UserAnswer;
  error : option string;
  language : option Language;
}.

Definition initial : State :=
  {| quizState := WELCOME; questions := []; userAnswers := []; error := None;
     language := None |}.

Definition empty_list_message : string :=
  "Failed to generate questions. The AI returned an empty list.".

(** [handleStart] up to its [await]. *)
Definition handleStart_begin (selectedLanguage : Language) (st : State) : State :=
  {| quizState := LOADING; questions := questions st; userAnswers := userAnswers st;
     error := None; language := Some selectedLanguage |}.

(** The [catch] block: every error thrown in the [try] block is an [Error],
    whose message is shown. *)
Definition handleStart_caught (message : string) (st : State) :
    State * list Gemini.Effect :=
  ({| quizState := WELCOME; questions := questions st; userAnswers := userAnswers st;
      error := Some message; language := language st |},
   [Gemini.ConsoleError]).

(** [handleStart] from the [await] on. *)
Definition handleStart_settled (outcome : Gemini.Promise (list Question)) (st : State) :
    State * list Gemini.Effect :=
  match outcome with
  | Gemini.Fulfilled newQuestions =>
      if length newQuestions =? 0 then handleStart_caught empty_list_message st
      else ({| quizState := QUIZ; questions := newQuestions; userAnswers := [];
               error := error st; language := language st |}, [])
  | Gemini.Rejected message => handleStart_caught message st
  end.

(** [handleStart], from the call to the end of the handler, when no other
    handler runs while the request is awaited. The objects that the service
    returns are taken for [Question]s without a check; [None]: one of them
    is none, and the application, which is modelled on [Question]s, is not
    followed. *)
Definition handleStart (env : Gemini.Environment) (selectedLanguage : Language)
    (st : State) : option (State * list Gemini.Effect) :=
  let '(outcome, effects) := Gemini.generateQuizQuestions env selectedLanguage in
  outcome ← Gemini.typed outcome;
  let '(st', effects') := handleStart_settled outcome (handleStart_begin selectedLanguage st) in
  Some (st', effects ++ effects').

Definition handleFinish (answers : list UserAnswer) (st : State) : State :=
  {| quizState := RESULTS; questions := questions st; userAnswers := answers;
     error := error st; language := language st |}.

Definition handleRestart (st : State) : State :=
  {| quizState := WELCOME; questions := []; userAnswers := []; error := None;
     language := None |}.

(** What [renderContent] returns. *)
Inductive Screen :=
| LoadingScreen
| QuizScreen (props : Quiz.Props)
| ResultsScreen (questions : list Question) (userAnswers : list UserAnswer)
    (language : Language)
| WelcomeScreen (error : option string)
| Blank.   (* [null], after the call of [handleRestart] *)

(** [renderContent], with the state it leaves (it calls [handleRestart]
    when a quiz or a result is to be shown without a language). *)
Definition renderContent (st : State) : Screen * State :=
  match quizState st with
  | LOADING => (LoadingScreen, st)
  | QUIZ =>
      match language st with
      | None => (Blank, handleRestart st)
      | Some language => (QuizScreen {| Quiz.questions := questions st;
                                        Quiz.language := language |}, st)
      end
  | RESULTS =>
      match language st with
      | None => (Blank, handleRestart st)
      | Some language => (ResultsScreen (questions st) (userAnswers st) language, st)
      end
  | WELCOME => (WelcomeScreen (error st), st)
  end.

(** The state once React has rendered it: [renderContent] calls
    [handleRestart] when a quiz or a result is to be shown without a
    language, and the next render shows the welcome screen. *)
Definition rendered (st : State) : State := (renderContent st).2.

(** The application with the calls of [handleStart] that are waiting at
    their [await], each with the language it asked for. *)
Record System := {
  state : State;
  pending : list Language;
}.

(** What can happen to the application: its handlers are called and the
    pending calls resume. [handleStart] is called by the welcome screen,
    [handleRestart] by the results screen and [handleFinish] by a timer of
    a quiz screen, which may be one that is no longer shown (the timers of
    [handleAnswerSelect] are never cleared). The model lets every handler
    run in every state, which is more than the screens allow, and lets the
    pending calls resume in any order. *)
Inductive Event :=
| Starts (selectedLanguage : Language)
| Settles (n : nat) (env : Gemini.Environment)
| Finishes (answers : list UserAnswer)
| Restarts.

(** One event; the state changes of a handler are rendered together. (A
    handler that runs from a timer or after the [await] sets [quizState]
    last and leaves [language] alone, so that a render between two of its
    state changes would select the screen by the same [quizState] and
    [language] as the render before and call no handler.) [None]: there is
    no [n]-th pending call, or the service returns an object that is no
    [Question]. *)
Definition step (sys : System) (event : Event) : option System :=
  match event with
  | Starts selectedLanguage =>
      Some {| state := rendered (handleStart_begin selectedLanguage (state sys));
              pending := pending sys ++ [selectedLanguage] |}
  | Settles n env =>
      selectedLanguage ← pending sys !! n;
      outcome ← Gemini.typed (Gemini.generateQuizQuestions env selectedLanguage).1;
      Some {| state := rendered (handleStart_settled outcome (state sys)).1;
              pending := delete n (pending sys) |}
  | Finishes answers =>
      Some {| state := rendered (handleFinish answers (state sys));
              pending := pending sys |}
  | Restarts =>
      Some {| state := rendered (handleRestart (state sys)); pending := pending sys |}
  end.

Inductive reachable : System → Prop :=
| reachable_initial : reachable {| state := initial; pending := [] |}
| reachable_step sys event sys' :
    reachable sys → step sys event = Some sys' → reachable sys'.

End App.

(** ** A quiz screen at work: its handlers driven by events *)

Module Session.

(** The component's state with what its handlers have set going: the timers
    armed and not yet run, the pronunciation requests in flight (each with
    the question index its closure saw), the sources started whose
    [onended] is still to come, and the calls of [onFinish] so far. *)
Record System := {
  state : Quiz.State;
  timers : list Quiz.Callback;
  requests : list nat;
  sounding : nat;
  finished : list (list UserAnswer);
}.

Definition is_animation (callback : Quiz.Callback) : bool :=
  match callback with
  | Quiz.EndAnimation => true
  | Quiz.AdvanceOrFinish _ _ => false
  end.

(** One effect of a handler. When the effect hooked on the question index
    runs again, its cleanup clears the timer of its previous run. *)
Definition absorb (seenIndex : nat) (sys : System) (effect : Quiz.Effect) : System :=
  match effect with
  | Quiz.SetTimeout callback _ =>
      {| state := state sys;
         timers := (if is_animation callback
                    then filter (λ pending, is_animation pending = false) (timers sys)
                    else timers sys) ++ [callback];
         requests := requests sys; sounding := sounding sys; finished := finished sys |}
  | Quiz.GeneratePronunciation _ =>
      {| state := state sys; timers := timers sys;
         requests := requests sys ++ [seenIndex];
         sounding := sounding sys; finished := finished sys |}
  | Quiz.SourceStart _ =>
      {| state := state sys; timers := timers sys; requests := requests sys;
         sounding := S (sounding sys); finished := finished sys |}
  | Quiz.OnFinish answers =>
      {| state := state sys; timers := timers sys; requests := requests sys;
         sounding := sounding sys; finished := finished sys ++ [answers] |}
  | _ => sys
  end.

(** A handler has run on the state of [sys]. *)
Definition after (sys : System) (result : Quiz.State * list Quiz.Effect) : System :=
  foldl (absorb (Quiz.currentQuestionIndex (state sys)))
    {| state := result.1; timers := timers sys; requests := requests sys;
       sounding := sounding sys; finished := finished sys |}
    result.2.

(** The screen once its two mount effects have run. *)
Definition mounted : System :=
  after {| state := Quiz.initial; timers := []; requests := []; sounding := 0;
           finished := [] |}
    (Quiz.question_changed Quiz.initial).

Inductive Event :=
| Click (answer : string)                       (* an option button *)
| TimerFires (n : nat)                          (* the [n]-th pending timer *)
| Toggle                                        (* the play / pause button *)
| Settles (n : nat) (outcome : Quiz.Settled)    (* the [n]-th request in flight *)
| SourceEnds                                    (* [onended] of a started source *)
| VolumeChanges (newVolume : float).            (* the slider *)

(** One event. An option button exists for each option of the current
    question; the audio controls are rendered for HSK only, and the slider
    is disabled while an option is selected. Any pending timer may be the
    next to run (the real ones run by due time, which allows less). [None]:
    the event cannot happen, or the handler throws. *)
Definition step (props : Quiz.Props) (sys : System) (event : Event) : option System :=
  let st := state sys in
  match event with
  | Click answer =>
      currentQuestion ← Quiz.questions props !! Quiz.currentQuestionIndex st;
      if decide (answer ∈ options currentQuestion)
      then after sys <$> Quiz.handleAnswerSelect props answer st
      else None
  | TimerFires n =>
      callback ← timers sys !! n;
      Some (after {| state := st; timers := delete n (timers sys);
                     requests := requests sys; sounding := sounding sys;
                     finished := finished sys |}
              (Quiz.run_callback props callback st))
  | Toggle =>
      match Quiz.language props with
      | hsk => Some (after sys (Quiz.handlePlayPauseToggle props st))
      | _ => None
      end
  | Settles n outcome =>
      seenIndex ← requests sys !! n;
      Some (after {| state := st; timers := timers sys;
                     requests := delete n (requests sys); sounding := sounding sys;
                     finished := finished sys |}
              (Quiz.handlePlayPauseToggle_settled seenIndex outcome st))
  | SourceEnds =>
      match sounding sys with
      | S others =>
          Some {| state := Quiz.source_ended st; timers := timers sys;
                  requests := requests sys; sounding := others;
                  finished := finished sys |}
      | O => None
      end
  | VolumeChanges newVolume =>
      match Quiz.language props with
      | hsk =>
          if Quiz.truthy_option (Quiz.selectedOption st) then None
          else Some (after sys (Quiz.handleVolumeChange newVolume st))
      | _ => None
      end
  end.

(** The states the screen can be in. The screen is followed also after it
    has called [onFinish] (its parent then unmounts it). *)
Inductive reachable (props : Quiz.Props) : System → Prop :=
| reachable_mounted : reachable props mounted
| reachable_step sys event sys' :
    reachable props sys → step props sys event = Some sys' → reachable props sys'.

End Session.

(** ** Vocabulary of the specification *)

Module Spec.

(** Every answer points at a question of the list. *)
Definition answers_in_range (questions : list Question) (userAnswers : list UserAnswer) : Prop :=
  Forall (λ ua, questionIndex ua < length questions) userAnswers.

(** The answer matches the correct answer of the question it points at. *)
Definition matches (questions : list Question) (ua : UserAnswer) : Prop :=
  ∃ q, questions !! questionIndex ua = Some q ∧ correctAnswer q = answer ua.

#[export] Instance matches_dec questions ua : Decision (matches questions ua).
Proof.
  unfold matches. destruct (questions !! questionIndex ua) as [q|].
  - destruct (decide (correctAnswer q = answer ua)) as [Heq|Hne].
    + left. eauto.
    + right. intros (q' & [= <-] & ?). done.
  - right. intros (q' & [=] & ?).
Defined.

(** A question sits at level [l] when its level prints as [l] does. *)
Definition at_level (l : Level) (q : Question) : Prop :=
  String_level (level q) = String_level l.

#[export] Instance at_level_dec l q : Decision (at_level l q).
Proof. unfold at_level. apply _. Defined.

Definition matches_at (questions : list Question) (l : Level) (ua : UserAnswer) : Prop :=
  ∃ q, questions !! questionIndex ua = Some q ∧ correctAnswer q = answer ua ∧ at_level l q.

#[export] Instance matches_at_dec questions l ua : Decision (matches_at questions l ua).
Proof.
  unfold matches_at. destruct (questions !! questionIndex ua) as [q|].
  - destruct (decide (correctAnswer q = answer ua ∧ at_level l q)) as [Heq|Hne].
    + left. eauto.
    + right. intros (q' & [= <-] & ?). done.
  - right. intros (q' & [=] & ?).
Defined.

Definition correct_count (questions : list Question) (userAnswers : list UserAnswer) : nat :=
  length (filter (matches questions) userAnswers).

Definition total_at (questions : list Question) (l : Level) : nat :=
  length (filter (at_level l) questions).

Definition correct_at (questions : list Question) (userAnswers : list UserAnswer)
    (l : Level) : nat :=
  length (filter (matches_at questions l) userAnswers).

(** A JavaScript array has fewer than 2^32 elements. *)
Definition array_sized {A} (l : list A) : Prop :=
  (Z.of_nat (length l) < 2 ^ 32)%Z.

(** Correct-at-level divided by total-at-level, 0 when the level has no
    question; an exact rational. *)
Definition accuracy_at (questions : list Question) (userAnswers : list UserAnswer)
    (l : Level) : Q :=
  if decide (total_at questions l = 0) then 0%Q
  else Qmake (Z.of_nat (correct_at questions userAnswers l))
             (Pos.of_nat (total_at questions l)).

(** A level is passed when its accuracy is at least 0.6. *)
Definition passes (questions : list Question) (userAnswers : list UserAnswer)
    (l : Level) : Prop :=
  (6 # 10 <= accuracy_at questions userAnswers l)%Q.

#[export] Instance passes_dec questions userAnswers l :
  Decision (passes questions userAnswers l).
Proof. unfold passes, Qle. apply _. Defined.

(** What the loop tests at a level, in doubles, on the two dictionaries. *)
Definition loop_passes (total correct : gmap string nat) (l : Level) : bool :=
  (0.6 <=? Results.accuracy total correct (String_level l))%float.

(** The level appears in the question set. *)
Definition present (questions : list Question) (l : Level) : Prop :=
  0 < total_at questions l.

#[export] Instance present_dec questions l : Decision (present questions l).
Proof. unfold present. apply _. Defined.

(** The highest level of the track's list that appears in the question set. *)
Definition max_level_present (language : Language) (questions : list Question) :
    option Level :=
  last (filter (present questions) (Results.LEVEL_ORDER language)).

(** [l] is [m] or comes before it in the track's list. *)
Definition up_to (language : Language) (m l : Level) : Prop :=
  ∃ i j, Results.LEVEL_ORDER language !! i = Some l
         ∧ Results.LEVEL_ORDER language !! j = Some m ∧ i ≤ j.

(** [(correct / total) * 100] as the program computes it, before rounding. *)
Definition percentage (correct total : nat) : float :=
  (JS.Number_of_nat correct / JS.Number_of_nat total * 100)%float.

(** The integer [z] is nearest to the exact quotient [100 * correct / total]:
    [|z - 100 * correct / total| <= 1/2]. *)
Definition nearest_percent (correct total : nat) (z : Z) : Prop :=
  (Z.abs (2 * (z * Z.of_nat total - 100 * Z.of_nat correct)) <= Z.of_nat total)%Z.

(** Bookkeeping of binary64 rounding: the rational [N / D] lies at location
    [l] of the unit interval that starts at [m]. *)
Definition located (m : Z) (l : location) (N D : Z) : Prop :=
  match l with
  | loc_Exact => N = m * D
  | loc_Inexact Lt => m * D < N ∧ 2 * N < (2 * m + 1) * D
  | loc_Inexact Eq => 2 * N = (2 * m + 1) * D
  | loc_Inexact Gt => (2 * m + 1) * D < 2 * N ∧ N < (m + 1) * D
  end%Z.

Definition located_record (mrs : shr_record) (N D : Z) : Prop :=
  located (shr_m mrs) (loc_of_shr_record mrs) N D.

(** [Math.random] keeps its contract: every value is a Number from 0 up
    to, not including, 1. *)
Definition unit_interval (random : nat → float) : Prop :=
  ∀ n, (0 <=? random n)%float = true ∧ (random n <? 1)%float = true.

(** The options of a parsed element as [shuffleArray] spreads them, in the
    provider's order (none when they are falsy or missing). *)
Definition spread_options (q : JSON) : list JSON :=
  match Gemini.spread (Gemini.member "options" q) with
  | Some (Some items) => items
  | _ => []
  end.

(** A parsed element with its options spread but not shuffled. *)
Definition unshuffled (q : JSON) : Gemini.Processed :=
  {| Gemini.element := q; Gemini.shuffled_options := spread_options q |}.

(** [q] is [p] with its options reordered. *)
Definition reordered (q p : Gemini.Processed) : Prop :=
  Gemini.element q = Gemini.element p
  ∧ Gemini.shuffled_options q ≡ₚ Gemini.shuffled_options p.

(** The callback of [questions.map] throws on this element: it is [null],
    or its options are truthy and cannot be spread. *)
Definition element_throws (q : JSON) : Prop :=
  q = JNull
  ∨ ∃ value, Gemini.member "options" q = Some value
      ∧ Gemini.truthy value = true
      ∧ (∀ items, value ≠ JArray items) ∧ (∀ s, value ≠ JString s).

(** Two values that [includes] takes for the same: two primitive values
    that are equal ([+0] and [-0] are). *)
Inductive same_value : JSON → JSON → Prop :=
| same_null : same_value JNull JNull
| same_bool b : same_value (JBool b) (JBool b)
| same_number x y :
    (x =? y)%float = true ∨ (PrimFloat.is_nan x = true ∧ PrimFloat.is_nan y = true) →
    same_value (JNumber x) (JNumber y)
| same_string s : same_value (JString s) (JString s).

(** The options of the object hold its correct answer. *)
Definition holds_answer (q : Gemini.Processed) : Prop :=
  ∃ answer option,
    Gemini.member "correctAnswer" (Gemini.element q) = Some answer
    ∧ option ∈ Gemini.shuffled_options q
    ∧ same_value answer option.

(** No API credential is configured: the variable is unset or empty. *)
Definition credential_missing (env : Gemini.Environment) : Prop :=
  Gemini.API_KEY env = None ∨ Gemini.API_KEY env = Some "".

(** The provider call errors. *)
Definition provider_call_errors (env : Gemini.Environment) (language : Language) : Prop :=
  Gemini.generateContent env language = None.

(** The provider answers with nothing but white space. *)
Definition response_empty (env : Gemini.Environment) (language : Language) : Prop :=
  ∃ text, Gemini.generateContent env language = Some {| Gemini.text := Some text |}
          ∧ JS.trim text = "".

(** Two worlds in which the call fails: one without a credential, one whose
    provider answers with an empty text. *)
Definition env_without_key : Gemini.Environment :=
  {| Gemini.API_KEY := None;
     Gemini.generateContent := λ _, Some {| Gemini.text := Some "[]" |};
     Gemini.JSON_parse := λ _, Some (JArray []);
     Gemini.random := λ _, 0%float |}.

Definition env_empty_response : Gemini.Environment :=
  {| Gemini.API_KEY := Some "key";
     Gemini.generateContent := λ _, Some {| Gemini.text := Some "" |};
     Gemini.JSON_parse := λ _, None;
     Gemini.random := λ _, 0%float |}.

(** The awaited pronunciation ended in a failure. *)
Definition is_failure (outcome : Quiz.Settled) : Prop :=
  outcome = Quiz.PronunciationRejected ∨ outcome = Quiz.DecodeThrew.

(** What the rest of the quiz reads of a state: the answers, the position,
    the lock. *)
Definition progress (st : Quiz.State) : list UserAnswer * nat * option string :=
  (Quiz.userAnswers st, Quiz.currentQuestionIndex st, Quiz.selectedOption st).

(** A quiz whose first question offers an empty string among its options. *)
Definition blank_option_question : Question :=
  {| questionText := "w1"; options := [""; "a"; "b"; "c"];
     correctAnswer := "a"; level := LNum 1; contextSentence := None |}.

Definition blank_option_quiz : Quiz.Props :=
  {| Quiz.questions :=
       [ blank_option_question;
         {| questionText := "w2"; options := ["d"; "e"; "f"; "g"];
            correctAnswer := "d"; level := LNum 1; contextSentence := None |} ];
     Quiz.language := hsk |}.

(** *** Sample inputs *)

Definition question_at (lvl : Level) (word correct : string) : Question :=
  {| questionText := word; options := [correct; "x"; "y"; "z"];
     correctAnswer := correct; level := lvl; contextSentence := None |}.

Definition answered (index : nat) (choice : string) : UserAnswer :=
  {| questionIndex := index; answer := choice |}.

(** HSK: two questions at level 1, one at level 2, one at level 3; the
    answers are right at levels 1 and 2 and wrong at level 3. *)
Definition sample_questions : list Question :=
  [question_at (LNum 1) "w0" "a"; question_at (LNum 1) "w1" "b";
   question_at (LNum 2) "w2" "c"; question_at (LNum 3) "w3" "d"].

Definition sample_answers : list UserAnswer :=
  [answered 0 "a"; answered 1 "b"; answered 2 "c"; answered 3 "x"].

(** One wrong answer at level 1. *)
Definition failing_answers : list UserAnswer := [answered 0 "x"].

(** HSK with a gap: questions at levels 1 and 3 only, all answered right. *)
Definition gap_questions : list Question :=
  [question_at (LNum 1) "w0" "a"; question_at (LNum 3) "w1" "b"].

Definition gap_answers : list UserAnswer := [answered 0 "a"; answered 1 "b"].

(** DELE without a gap: questions at A1 and A2, all answered right. *)
Definition dele_questions : list Question :=
  [question_at (LStr "A1") "w0" "a"; question_at (LStr "A2") "w1" "b"].

Definition dele_answers : list UserAnswer := [answered 0 "a"; answered 1 "b"].

(** 30 questions, the first 18 answered right, the others wrong. *)
Definition thirty_questions : list Question :=
  replicate 30 (question_at (LNum 1) "w" "a").

Definition eighteen_right : list UserAnswer :=
  ((λ i, answered i "a") <$> seq 0 18) ++ ((λ i, answered i "x") <$> seq 18 12).

(** A stream of values in [0, 1): 0, 1/7, ..., 6/7 (rounded), over again. *)
Definition sample_random (n : nat) : float :=
  (JS.Number_of_nat (n mod 7) / 7)%float.

(** A question as the provider writes it. *)
Definition parsed_question (word : string) (choices : list string) (correct : string)
    (lvl : float) : JSON :=
  JObject (<["questionText" := JString word]>
             (<["options" := JArray (JString <$> choices)]>
                (<["correctAnswer" := JString correct]>
                   (<["level" := JNumber lvl]> ∅)))).

(** A provider that answers with two questions, the second one with three
    options only. *)
Definition sample_parsed : list JSON :=
  [ parsed_question "w0" ["a"; "b"; "c"; "d"] "c" 1;
    parsed_question "w1" ["a"; "b"; "c"] "a" 2 ].

(** The two of them with their options shuffled by the sample stream. *)
Definition sample_processed : list Gemini.Processed :=
  [ {| Gemini.element := parsed_question "w0" ["a"; "b"; "c"; "d"] "c" 1;
       Gemini.shuffled_options := JString <$> ["b"; "c"; "d"; "a"] |};
    {| Gemini.element := parsed_question "w1" ["a"; "b"; "c"] "a" 2;
       Gemini.shuffled_options := JString <$> ["a"; "c"; "b"] |} ].

Definition sample_env : Gemini.Environment :=
  {| Gemini.API_KEY := Some "key";
     Gemini.generateContent := λ _, Some {| Gemini.text := Some " [two questions] " |};
     Gemini.JSON_parse := λ _, Some (JArray sample_parsed);
     Gemini.random := sample_random |}.

(** *** More vocabulary: the service *)

(** The speech request comes without a credential. *)
Definition key_missing (API_KEY : option string) : Prop :=
  API_KEY = None ∨ API_KEY = Some "".

(** The random numbers the shuffle of one parsed element draws. *)
Definition draws (q : JSON) : nat := length (spread_options q) - 1.

(** The stream that is [r] at position [n] and [random] elsewhere. *)
Definition with_draw (n : nat) (r : float) (random : nat → float) : nat → float :=
  λ k, if decide (k = n) then r else random k.

(** The draw that picks [t] out of [0 .. k - 1]: the double nearest to
    [(2 t + 1) / (2 k)], the middle of the [t]-th of [k] equal parts of
    the unit interval. *)
Definition draw_for (t k : nat) : float :=
  (JS.Number_of_nat (2 * t + 1) / JS.Number_of_nat (2 * k))%float.

(** [p] is the parsed element [q] with its options shuffled by the draws
    of [random] from position [calls] on. *)
Definition reordered_by (random : nat → float) (calls : nat) (q : JSON)
    (p : Gemini.Processed) : Prop :=
  ∃ array,
    Gemini.spread (Gemini.member "options" q) = Some array
    ∧ p = {| Gemini.element := q;
             Gemini.shuffled_options := (Gemini.shuffleArray random array calls).1 |}.

(** *** More vocabulary: the decoded audio *)

(** The code of a character of a binary string: a byte. *)
Definition code (c : Ascii.ascii) : Z := Z.of_N (Ascii.N_of_ascii c).

(** The signed 16-bit integer with the given low and high bytes. *)
Definition int16 (low high : Z) : Z :=
  let unsigned := (low + 256 * high)%Z in
  if (unsigned <? 32768)%Z then unsigned else (unsigned - 65536)%Z.

(** A sample within the range of normalised audio, [-1 <= s < 1]. *)
Definition normalised (s : float) : Prop :=
  (-1 <=? s)%float = true ∧ (s <? 1)%float = true.

(** The division by 32768 on the sample with the given bytes: the quotient
    is normalised, and exact (multiplied back it is the integer). *)
Definition sample_checked (low high : Z) : bool :=
  let s := (JS.Number_of_Z (int16 low high) / 32768)%float in
  (-1 <=? s)%float && (s <? 1)%float
  && PrimFloat.Leibniz.eqb (s * 32768)%float (JS.Number_of_Z (int16 low high)).

Definition byte_values : list Z := Z.of_nat <$> seq 0 256.

(** *** More vocabulary: a quiz at work *)

(** No question offers the empty string as an option. *)
Definition no_blank_option (questions : list Question) : Prop :=
  Forall (λ q, "" ∉ options q) questions.

(** One answer for each of the first questions, in the order of the
    questions, each answer an option of its question. *)
Definition answered_in_order (questions : list Question) (answers : list UserAnswer) :
    Prop :=
  questionIndex <$> answers = seq 0 (length answers)
  ∧ Forall (λ ua, ∃ q, questions !! questionIndex ua = Some q ∧ answer ua ∈ options q)
      answers.

(** The pending timers that advance the quiz (the others end the
    animation). *)
Definition advancing (timers : list Quiz.Callback) : list Quiz.Callback :=
  filter (λ callback, Session.is_animation callback = false) timers.

(** Where a quiz stands: the current question exists and the questions
    before it are answered, in order; then either the current question is
    open (no option selected, no timer to advance, no call of [onFinish]), or
    it is answered too and locked by a non-empty option, with either the one
    timer of that answer pending or, on the last question, that timer run
    and the answers handed over by the one call of [onFinish]. *)
Definition progress_ok (props : Quiz.Props) (st : Quiz.State)
    (pending : list Quiz.Callback) (finished : list (list UserAnswer)) : Prop :=
  let index := Quiz.currentQuestionIndex st in
  let answers := Quiz.userAnswers st in
  index < length (Quiz.questions props)
  ∧ answered_in_order (Quiz.questions props) answers
  ∧ ((Quiz.selectedOption st = None ∧ length answers = index
      ∧ pending = [] ∧ finished = [])
     ∨ (∃ selected, Quiz.selectedOption st = Some selected ∧ selected ≠ ""
          ∧ length answers = S index
          ∧ ((pending = [Quiz.AdvanceOrFinish index answers] ∧ finished = [])
             ∨ (S index = length (Quiz.questions props)
                ∧ pending = [] ∧ finished = [answers])))).

Definition quiz_progress (props : Quiz.Props) (sys : Session.System) : Prop :=
  progress_ok props (Session.state sys) (advancing (Session.timers sys))
    (Session.finished sys).

(** The pronunciation requests in flight: none with the loading flag down,
    or one with the flag up, for a question whose audio is not cached. *)
Definition one_request (sys : Session.System) : Prop :=
  let st := Session.state sys in
  (Session.requests sys = [] ∧ Quiz.isAudioLoading st = false)
  ∨ (∃ seenIndex, Session.requests sys = [seenIndex]
       ∧ Quiz.isAudioLoading st = true
       ∧ Quiz.audioCache st !! seenIndex = None).

(** What a list of effects arms, hands over and requests. *)
Definition armed (effects : list Quiz.Effect) : list Quiz.Callback :=
  omap (λ effect, match effect with
                  | Quiz.SetTimeout callback _ =>
                      if Session.is_animation callback then None else Some callback
                  | _ => None
                  end) effects.

Definition handed_over (effects : list Quiz.Effect) : list (list UserAnswer) :=
  omap (λ effect, match effect with
                  | Quiz.OnFinish answers => Some answers
                  | _ => None
                  end) effects.

Definition requested (effects : list Quiz.Effect) : list string :=
  omap (λ effect, match effect with
                  | Quiz.GeneratePronunciation text => Some text
                  | _ => None
                  end) effects.

(** The system after the events, one after the other, from the mount on;
    [None] when one of them cannot happen. *)
Definition play (props : Quiz.Props) (events : list Session.Event) :
    option Session.System :=
  foldl (λ sys event, sys ≫= λ sys, Session.step props sys event)
    (Some Session.mounted) events.

(** A user who answers one question after the other: for each choice the
    animation of the question ends (300 ms), the option is clicked, and the
    timer of the answer runs (800 ms). *)
Definition answering (choices : list string) : list Session.Event :=
  choices ≫= λ choice, [Session.TimerFires 0; Session.Click choice; Session.TimerFires 0].

(** The answers these choices make, from question [first] on. *)
Definition answers_given (first : nat) (choices : list string) : list UserAnswer :=
  imap (λ i choice, {| questionIndex := first + i; answer := choice |}) choices.

(** The timers pending after the effects of a handler. *)
Definition timers_after (timers : list Quiz.Callback) (effects : list Quiz.Effect) :
    list Quiz.Callback :=
  foldl (λ timers effect,
           match effect with
           | Quiz.SetTimeout callback _ =>
               (if Session.is_animation callback then advancing timers else timers)
               ++ [callback]
           | _ => timers
           end) timers effects.

(** *** More vocabulary: the application *)

(** A question as the service returns it. *)
Definition well_formed (q : Question) : Prop :=
  length (options q) = 4 ∧ correctAnswer q ∈ options q.

(** What holds of a state that a handler leaves, whichever handlers have
    run before: a quiz has questions (all well formed) and no answers yet;
    while the application is loading, a call of [handleStart] is waiting
    for the service. *)
Definition shown_ok (st : App.State) (pending : list Language) : Prop :=
  match App.quizState st with
  | App.QUIZ =>
      App.questions st ≠ [] ∧ Forall well_formed (App.questions st)
      ∧ App.userAnswers st = []
  | App.LOADING => pending ≠ []
  | App.WELCOME | App.RESULTS => True
  end.

(** The same between two events, where moreover rendering leaves the state
    as it is. *)
Definition app_ok (sys : App.System) : Prop :=
  App.rendered (App.state sys) = App.state sys
  ∧ shown_ok (App.state sys) (App.pending sys).

(** *** More sample inputs *)

(** The sample questions as a quiz. *)
Definition sample_quiz : Quiz.Props :=
  {| Quiz.questions := sample_questions; Quiz.language := hsk |}.

(** The first question answered right (after its animation has ended), the
    advance, the second answered wrong. *)
Definition sample_events : list Session.Event :=
  [Session.TimerFires 0; Session.Click "a"; Session.TimerFires 0;
   Session.TimerFires 0; Session.Click "x"].

(** The whole sample quiz. *)
Definition whole_quiz : list Session.Event := answering ["a"; "b"; "c"; "x"].

(** A pronunciation asked for on the first question and decoded. *)
Definition sample_buffer : Quiz.AudioBuffer := [0.5%float; (-0.25)%float].

Definition listening : list Session.Event :=
  [Session.Toggle; Session.Settles 0 (Quiz.Decoded sample_buffer)].

(** A locale that writes numbers without grouping. *)
Definition plain_digits (n : N) : string := NilZero.string_of_uint (N.to_uint n).

(** A provider of speech that answers with one candidate of one part. *)
Definition sample_speech (audio : string) : Gemini.SpeechResponse :=
  {| Gemini.candidates :=
       Some [ {| Gemini.content :=
                   Some {| Gemini.parts :=
                             Some [ {| Gemini.inlineData :=
                                         Some {| Gemini.data := Some audio |} |} ] |} |} ] |}.

(** Four bytes of audio, 00 40 00 80, and their base64 text: the samples
    16384 and -32768. *)
Definition sample_binary : string :=
  String (Ascii.ascii_of_nat 0)
    (String (Ascii.ascii_of_nat 64)
       (String (Ascii.ascii_of_nat 0) (String (Ascii.ascii_of_nat 128) EmptyString))).

Definition sample_atob (base64 : string) : option string :=
  if decide (base64 = "AEAAgA==") then Some sample_binary else None.

(** What the sample provider's answer comes to, as questions. *)
Definition sample_returned : list Question :=
  [ {| questionText := "w0"; options := ["b"; "c"; "d"; "a"]; correctAnswer := "c";
       level := LNum 1; contextSentence := None |} ].

(** The application after the events, one after the other, from the first
    render on; [None] when one of them cannot happen. *)
Definition run (events : list App.Event) : option App.System :=
  foldl (λ sys event, sys ≫= λ sys, App.step sys event)
    (Some {| App.state := App.initial; App.pending := [] |}) events.

(** The application after a start that the sample provider answers. *)
Definition sample_started : App.System :=
  default {| App.state := App.initial; App.pending := [] |}
    (run [App.Starts hsk; App.Settles 0 sample_env]).

Definition sample_started_quiz : Quiz.Props :=
  {| Quiz.questions := App.questions (App.state sample_started); Quiz.language := hsk |}.

(** While a start is waiting for the service, a timer of an earlier quiz
    screen calls [handleFinish] and the user restarts from the result; when
    the service answers, the quiz comes without a language, and rendering
    falls back to the welcome screen. *)
Definition late_timer : list App.Event :=
  [App.Starts hsk; App.Finishes []; App.Restarts; App.Settles 0 sample_env].

(** Its one question answered right. *)
Definition one_question_quiz : list Session.Event := answering ["c"].

(** The quiz screen with the pronunciation of its first question cached. *)
Definition sample_cached : Quiz.State :=
  Quiz.setAudioCache (λ prev, <[0 := sample_buffer]> prev) Quiz.initial.

(** The quiz screen on the last of the sample questions. *)
Definition sample_last : Quiz.State :=
  Quiz.setCurrentQuestionIndex (λ _, 3) Quiz.initial.

End Spec.

Import Spec.

(** ** Binary64 arithmetic: the program's doubles against exact arithmetic *)

Section binary64.
#[local] Open Scope Z_scope.

Lemma digits2_pos_bounds (p : positive) :
  2 ^ (Z.pos (digits2_pos p) - 1) <= Z.pos p < 2 ^ Z.pos (digits2_pos p).
Proof.
  induction p as [p IH|p IH|]; simpl digits2_pos.
  - rewrite Pos2Z.inj_succ, (Pos2Z.inj_xI p).
    replace (Z.succ (Z.pos (digits2_pos p)) - 1) with (Z.succ (Z.pos (digits2_pos p) - 1)) by lia.
    rewrite !Z.pow_succ_r by lia.
    set (lo := 2 ^ (Z.pos (digits2_pos p) - 1)) in *.
    set (hi := 2 ^ Z.pos (digits2_pos p)) in *. clearbody lo hi. lia.
  - rewrite Pos2Z.inj_succ, (Pos2Z.inj_xO p).
    replace (Z.succ (Z.pos (digits2_pos p)) - 1) with (Z.succ (Z.pos (digits2_pos p) - 1)) by lia.
    rewrite !Z.pow_succ_r by lia.
    set (lo := 2 ^ (Z.pos (digits2_pos p) - 1)) in *.
    set (hi := 2 ^ Z.pos (digits2_pos p)) in *. clearbody lo hi. lia.
  - simpl. lia.
Qed.

Lemma loc_of_shr_record_of_loc m l :
  loc_of_shr_record (shr_record_of_loc m l) = l ∧ shr_m (shr_record_of_loc m l) = m.
Proof. destruct l as [|[]]; done. Qed.

Lemma shr_1_located mrs N D :
  0 <= shr_m mrs → 0 < D → located_record mrs N D →
  located_record (shr_1 mrs) N (2 * D)
  ∧ shr_m (shr_1 mrs) = shr_m mrs / 2.
Proof.
  destruct mrs as [m r s]. unfold located_record.
  cbn [shr_m]. intros Hm HD Hloc.
  destruct m as [|p|p]; [| |lia].
  - destruct r, s; cbn [located loc_of_shr_record shr_1 shr_m shr_r shr_s orb] in *;
      (split; [lia|reflexivity]).
  - destruct p as [p|p|].
    + assert (Z.pos p~1 / 2 = Z.pos p) as Hdiv
        by (rewrite (Pos2Z.inj_xI p); symmetry; apply (Z.div_unique _ 2 _ 1); lia).
      rewrite Hdiv. rewrite (Pos2Z.inj_xI p) in Hloc.
      destruct r, s; cbn [located loc_of_shr_record shr_1 shr_m shr_r shr_s orb] in *;
        (split; [lia|reflexivity]).
    + assert (Z.pos p~0 / 2 = Z.pos p) as Hdiv
        by (rewrite (Pos2Z.inj_xO p); symmetry; apply (Z.div_unique _ 2 _ 0); lia).
      rewrite Hdiv. rewrite (Pos2Z.inj_xO p) in Hloc.
      destruct r, s; cbn [located loc_of_shr_record shr_1 shr_m shr_r shr_s orb] in *;
        (split; [lia|reflexivity]).
    + change (1 / 2) with 0.
      destruct r, s; cbn [located loc_of_shr_record shr_1 shr_m shr_r shr_s orb] in *;
        (split; [lia|reflexivity]).
Qed.

Lemma pow2_xO (n : positive) : 2 ^ Z.pos n~0 = 2 ^ Z.pos n * 2 ^ Z.pos n.
Proof.
  rewrite (Pos2Z.inj_xO n). replace (2 * Z.pos n) with (Z.pos n + Z.pos n) by lia.
  rewrite Z.pow_add_r by lia. reflexivity.
Qed.

Lemma pow2_xI (n : positive) : 2 ^ Z.pos n~1 = 2 ^ Z.pos n * (2 ^ Z.pos n * 2).
Proof.
  rewrite (Pos2Z.inj_xI n). replace (2 * Z.pos n + 1) with (Z.pos n + (Z.pos n + 1)) by lia.
  rewrite !Z.pow_add_r by lia. reflexivity.
Qed.

Lemma iter_shr_1_located (n : positive) mrs N D :
  0 <= shr_m mrs → 0 < D → located_record mrs N D →
  located_record (SpecFloat.iter_pos shr_1 n mrs) N (2 ^ Z.pos n * D)
  ∧ shr_m (SpecFloat.iter_pos shr_1 n mrs) = shr_m mrs / 2 ^ Z.pos n.
Proof.
  revert mrs N D. induction n as [n IH|n IH|]; intros mrs N D Hm HD Hloc; simpl SpecFloat.iter_pos.
  - destruct (shr_1_located mrs N D Hm HD Hloc) as [H1 E1].
    assert (0 <= shr_m (shr_1 mrs)) as Hm1 by (rewrite E1; apply Z.div_pos; lia).
    destruct (IH _ N (2 * D) Hm1 ltac:(lia) H1) as [H2 E2].
    assert (0 < 2 ^ Z.pos n) as Hpow by (apply Z.pow_pos_nonneg; lia).
    assert (0 <= shr_m (SpecFloat.iter_pos shr_1 n (shr_1 mrs))) as Hm2
      by (rewrite E2; apply Z.div_pos; lia).
    destruct (IH _ N (2 ^ Z.pos n * (2 * D)) Hm2 ltac:(lia) H2) as [H3 E3].
    rewrite pow2_xI.
    split.
    + replace (2 ^ Z.pos n * (2 ^ Z.pos n * 2) * D)
        with (2 ^ Z.pos n * (2 ^ Z.pos n * (2 * D))) by lia. exact H3.
    + rewrite E3, E2, E1. rewrite !Z.div_div by lia. f_equal. lia.
  - destruct (IH _ N D Hm HD Hloc) as [H2 E2].
    assert (0 < 2 ^ Z.pos n) as Hpow by (apply Z.pow_pos_nonneg; lia).
    assert (0 <= shr_m (SpecFloat.iter_pos shr_1 n mrs)) as Hm2
      by (rewrite E2; apply Z.div_pos; lia).
    destruct (IH _ N (2 ^ Z.pos n * D) Hm2 ltac:(lia) H2) as [H3 E3].
    rewrite pow2_xO.
    split.
    + replace (2 ^ Z.pos n * 2 ^ Z.pos n * D)
        with (2 ^ Z.pos n * (2 ^ Z.pos n * D)) by lia. exact H3.
    + rewrite E3, E2. rewrite !Z.div_div by lia. reflexivity.
  - change (2 ^ 1) with 2. apply shr_1_located; assumption.
Qed.

Lemma digits2_pos_unique (p : positive) (k : Z) :
  2 ^ (k - 1) <= Z.pos p < 2 ^ k → Z.pos (digits2_pos p) = k.
Proof.
  intros [Hlo Hhi]. pose proof (digits2_pos_bounds p) as [Hlo' Hhi'].
  assert (0 < k) as Hk.
  { destruct (Z.lt_trichotomy k 0) as [Hneg|[->|Hpos]]; [|simpl in Hhi; lia|done].
    rewrite Z.pow_neg_r in Hhi by done. lia. }
  assert (k - 1 < Z.pos (digits2_pos p)) as H1.
  { apply (Z.pow_lt_mono_r_iff 2); lia. }
  assert (Z.pos (digits2_pos p) - 1 < k) as H2.
  { apply (Z.pow_lt_mono_r_iff 2); lia. }
  lia.
Qed.

Lemma round_nearest_even_located mrs N D :
  0 < D → located_record mrs N D →
  let R := round_nearest_even (shr_m mrs) (loc_of_shr_record mrs) in
  shr_m mrs <= R <= shr_m mrs + 1
  ∧ - D <= 2 * (R * D - N) <= D
  ∧ (loc_of_shr_record mrs = loc_Exact → R = shr_m mrs).
Proof.
  unfold located_record. intros HD Hloc.
  destruct (loc_of_shr_record mrs) as [|[]]; cbn [located round_nearest_even] in *.
  - split_and!; [lia..|done].
  - destruct (Z.even (shr_m mrs)); split_and!; try lia; done.
  - split_and!; [lia..|done].
  - split_and!; [lia..|done].
Qed.

(** The shift that brings a mantissa of at least 53 bits back to 53 bits. *)
Lemma shr_fexp_located (p : positive) e l N D :
  0 < D → located (Z.pos p) l N D →
  let n := Z.pos (digits2_pos p) - 53 in
  0 <= n → -1074 <= e + n →
  ∃ mrs, shr_fexp prec emax (Z.pos p) e l = (mrs, e + n)
    ∧ located_record mrs N (2 ^ n * D)
    ∧ shr_m mrs = Z.pos p / 2 ^ n.
Proof.
  intros HD Hloc n Hn He. unfold shr_fexp, shr, fexp, Zdigits2.
  change (SpecFloat.emin prec emax) with (-1074). change prec with 53.
  replace (Z.max (Z.pos (digits2_pos p) + e - 53) (-1074) - e) with n by (unfold n in *; lia).
  destruct (loc_of_shr_record_of_loc (Z.pos p) l) as [Hl Hm].
  clearbody n. destruct n as [|k|k]; [| |lia].
  - exists (shr_record_of_loc (Z.pos p) l). split_and!.
    + f_equal. lia.
    + unfold located_record. rewrite Hl, Hm. change (2 ^ 0) with 1.
      by replace (1 * D) with D by lia.
    + rewrite Hm. change (2 ^ 0) with 1. by rewrite Z.div_1_r.
  - destruct (iter_shr_1_located k (shr_record_of_loc (Z.pos p) l) N D) as [Hiter Hshift].
    + rewrite Hm. lia.
    + done.
    + unfold located_record. by rewrite Hl, Hm.
    + eexists. split_and!; [reflexivity|exact Hiter|by rewrite Hshift, Hm].
Qed.

(** Rounding to nearest, for a mantissa of at least 53 bits in the normal
    range: the result has a 53-bit mantissa and lies within half a unit of
    its last place of [N / D * 2 ^ ex]. *)
Lemma binary_round_aux_spec (sx : bool) (p : positive) ex lx N D :
  0 < D → located (Z.pos p) lx N D →
  let n := Z.pos (digits2_pos p) - 53 in
  0 <= n → -1074 <= ex + n → ex + n + 1 <= 971 →
  ∃ (m : positive) (j : Z),
    binary_round_aux prec emax sx (Z.pos p) ex lx = S754_finite sx m (ex + j)
    ∧ 2 ^ 52 <= Z.pos m < 2 ^ 53
    ∧ n <= j <= n + 1
    ∧ - (2 ^ j * D) <= 2 * (Z.pos m * (2 ^ j * D) - N) <= 2 ^ j * D
    ∧ (lx = loc_Exact → n = 0 → m = p ∧ j = 0).
Proof.
  intros HD Hloc n Hn Hlo Hhi.
  destruct (shr_fexp_located p ex lx N D HD Hloc Hn Hlo) as (mrs & Hshr & Hmrs & Hm).
  fold n in Hshr, Hmrs, Hm.
  assert (0 < 2 ^ n) as Hpow by (apply Z.pow_pos_nonneg; lia).
  pose proof (round_nearest_even_located mrs N (2 ^ n * D) ltac:(lia) Hmrs) as (HR & Herr & _).
  set (R := round_nearest_even (shr_m mrs) (loc_of_shr_record mrs)) in *.
  assert (2 ^ 52 <= shr_m mrs < 2 ^ 53) as Hrange.
  { pose proof (digits2_pos_bounds p) as [Hp1 Hp2].
    replace (Z.pos (digits2_pos p)) with (n + 53) in Hp2 by (unfold n; lia).
    replace (Z.pos (digits2_pos p) - 1) with (n + 52) in Hp1 by (unfold n; lia).
    rewrite Z.pow_add_r in Hp1, Hp2 by lia. rewrite Hm. split.
    - apply Z.div_le_lower_bound; lia.
    - apply Z.div_lt_upper_bound; lia. }
  unfold binary_round_aux. rewrite Hshr. fold R.
  destruct R as [|r|r] eqn:ER; [lia| |lia].
  destruct (Z.eq_dec (Z.pos r) (2 ^ 53)) as [Htop|Hbelow].
  - (* the mantissa rounded up to 2^53 *)
    change (2 ^ 53) with 9007199254740992 in *. change (2 ^ 52) with 4503599627370496 in *.
    assert (r = 9007199254740992%positive) as -> by lia.
    assert (shr_fexp prec emax 9007199254740992 (ex + n) loc_Exact
            = ({| shr_m := 4503599627370496; shr_r := false; shr_s := false |}, ex + n + 1))
      as ->.
    { unfold shr_fexp, fexp, Zdigits2.
      change (SpecFloat.emin prec emax) with (-1074). change prec with 53.
      change (Z.pos (digits2_pos 9007199254740992)) with 54.
      replace (Z.max (54 + (ex + n) - 53) (-1074) - (ex + n)) with 1 by lia.
      reflexivity. }
    exists (4503599627370496)%positive, (n + 1). cbn [shr_m].
    split; [|split; [|split; [|split]]].
    + replace (ex + n + 1 <=? emax - prec) with true
        by (symmetry; apply Z.leb_le; change emax with 1024; change prec with 53; lia).
      f_equal. lia.
    + lia.
    + lia.
    + rewrite Z.pow_add_r by lia. change (2 ^ 1) with 2. clearbody n.
      set (P := 2 ^ n) in *. clearbody P. nia.
    + intros -> Hzero. exfalso. rewrite Hzero in *. change (2 ^ 0) with 1 in *.
      cbn [located] in Hloc. pose proof (digits2_pos_bounds p) as [_ Hp2].
      replace (Z.pos (digits2_pos p)) with 53 in Hp2 by (unfold n in Hzero; lia).
      change (2 ^ 53) with 9007199254740992 in *. nia.
  - assert (Z.pos (digits2_pos r) = 53) as Hdigits by (apply digits2_pos_unique; lia).
    destruct (shr_fexp_located r (ex + n) loc_Exact (Z.pos r) 1) as (mrs' & Hshr' & _ & Hm').
    + lia.
    + cbn [located]. lia.
    + lia.
    + lia.
    + rewrite Hdigits in Hshr', Hm'. change (53 - 53) with 0 in Hshr', Hm'.
      change (2 ^ 0) with 1 in Hm'. rewrite Z.div_1_r in Hm'.
      exists r, n. rewrite Hshr', Hm'. split; [|split; [|split; [|split]]].
      * replace (ex + n + 0 <=? emax - prec) with true
          by (symmetry; apply Z.leb_le; change emax with 1024; change prec with 53; lia).
        f_equal. lia.
      * lia.
      * lia.
      * lia.
      * intros -> Hzero. rewrite Hzero in *. change (2 ^ 0) with 1 in *.
        cbn [located] in Hloc. split; [|done].
        assert (Z.pos r = Z.pos p) as Heq by nia. by injection Heq.
Qed.

Lemma iter_xO_pow2 (p d : positive) : Z.pos (Pos.iter xO p d) = Z.pos p * 2 ^ Z.pos d.
Proof.
  induction d as [|d IH] using Pos.peano_ind.
  - simpl Pos.iter. rewrite (Pos2Z.inj_xO p). change (2 ^ 1) with 2. lia.
  - rewrite Pos.iter_succ, (Pos2Z.inj_xO (Pos.iter xO p d)), IH, Pos2Z.inj_succ.
    rewrite Z.pow_succ_r by lia. lia.
Qed.

(** A count below 2^53 is a Number exactly. *)
Lemma Number_of_nat_spec (k : nat) :
  0 < Z.of_nat k < 2 ^ 53 →
  ∃ (m : positive) (e : Z),
    Prim2SF (JS.Number_of_nat k) = S754_finite false m e
    ∧ 2 ^ 52 <= Z.pos m < 2 ^ 53
    ∧ -52 <= e <= 0
    ∧ Z.pos m = Z.of_nat k * 2 ^ (- e).
Proof.
  intros Hk. unfold JS.Number_of_nat. rewrite of_uint63_spec, Uint63.of_Z_spec.
  rewrite Z.mod_small by (change wB with (2 ^ 63); change (2 ^ 53) with 9007199254740992 in Hk;
                          change (2 ^ 63) with 9223372036854775808; lia).
  destruct (Z.of_nat k) as [|p|p] eqn:Ep; [lia| |lia].
  pose proof (digits2_pos_bounds p) as [Hd1 Hd2].
  set (d := Z.pos (digits2_pos p)) in *.
  assert (1 <= d <= 53) as Hd.
  { split; [unfold d; lia|].
    destruct (Z_le_gt_dec d 53) as [|Hgt]; [done|]. exfalso.
    assert (2 ^ 53 <= 2 ^ (d - 1)) by (apply Z.pow_le_mono_r; lia). lia. }
  unfold binary_normalize, binary_round. fold d.
  assert (fexp prec emax (d + 0) = d - 53) as ->.
  { unfold fexp. change (SpecFloat.emin prec emax) with (-1074). change prec with 53. lia. }
  unfold shl_align. replace (d - 53 - 0) with (d - 53) by lia.
  destruct (d - 53) as [|q|q] eqn:Eq; [| lia |].
  - (* 53 bits already *)
    destruct (binary_round_aux_spec false p 0 loc_Exact (Z.pos p) 1) as (m & j & -> & Hm & _ & _ & Hexact).
    + lia.
    + cbn [located]. lia.
    + fold d. lia.
    + fold d. lia.
    + fold d. lia.
    + destruct Hexact as [-> ->]; [done|fold d; lia|].
      exists p, 0. split_and!; [done|lia..|].
      change (2 ^ (- 0)) with 1. lia.
  - (* fewer than 53 bits: the mantissa is shifted left *)
    pose proof (iter_xO_pow2 p q) as Hshift.
    set (mz := Pos.iter xO p q) in *.
    assert (0 < 2 ^ Z.pos q) as Hpow by (apply Z.pow_pos_nonneg; lia).
    assert (Z.pos (digits2_pos mz) = 53) as Hdz.
    { apply digits2_pos_unique. rewrite Hshift.
      replace 53 with (d + Z.pos q) by lia. replace (d + Z.pos q - 1) with (d - 1 + Z.pos q) by lia.
      rewrite !Z.pow_add_r by lia. nia. }
    destruct (binary_round_aux_spec false mz (Z.neg q) loc_Exact (Z.pos mz) 1)
      as (m & j & -> & Hm & _ & _ & Hexact).
    + lia.
    + cbn [located]. lia.
    + rewrite Hdz. lia.
    + rewrite Hdz. lia.
    + rewrite Hdz. lia.
    + destruct Hexact as [-> ->]; [done|rewrite Hdz; lia|].
      exists mz, (Z.neg q). split_and!; [f_equal; lia|lia..|].
      rewrite Hshift. reflexivity.
Qed.

Lemma new_location_located (nb q k : Z) :
  0 <= k < nb → located q (new_location nb k) (q * nb + k) nb.
Proof.
  intros Hk. unfold new_location, new_location_even, new_location_odd.
  destruct (Z.even nb) eqn:Heven.
  - destruct (Z.eqb_spec k 0) as [->|Hnz]; [cbn [located]; lia|].
    destruct (Z.compare_spec (2 * k) nb); cbn [located]; lia.
  - assert (Z.odd nb = true) as Hodd by (rewrite <- Z.negb_even, Heven; done).
    apply Z.odd_spec in Hodd as [t Ht].
    destruct (Z.eqb_spec k 0) as [->|Hnz]; [cbn [located]; lia|].
    destruct (Z.compare_spec (2 * k + 1) nb); cbn [located]; lia.
Qed.

(** Division of two positive Numbers with 53-bit mantissas: the quotient
    has a 53-bit mantissa and lies within half a unit of its last place of
    the exact quotient. *)
Lemma SF64div_spec (m1 m2 : positive) (e1 e2 : Z) :
  2 ^ 52 <= Z.pos m1 < 2 ^ 53 → 2 ^ 52 <= Z.pos m2 < 2 ^ 53 →
  -400 <= e1 - e2 <= 400 →
  ∃ (m : positive) (j : Z),
    SF64div (S754_finite false m1 e1) (S754_finite false m2 e2)
    = S754_finite false m (e1 - e2 - 53 + j)
    ∧ 2 ^ 52 <= Z.pos m < 2 ^ 53
    ∧ 0 <= j <= 2
    ∧ - (2 ^ j * Z.pos m2) <= 2 * (Z.pos m * (2 ^ j * Z.pos m2) - Z.pos m1 * 2 ^ 53)
      <= 2 ^ j * Z.pos m2.
Proof.
  intros Hm1 Hm2 He.
  unfold SF64div, SFdiv, SFdiv_core_binary, Zdigits2.
  rewrite (digits2_pos_unique m1 53), (digits2_pos_unique m2 53) by done.
  assert (Z.min (fexp prec emax (53 + e1 - (53 + e2))) (e1 - e2) = e1 - e2 - 53) as ->.
  { unfold fexp. change (SpecFloat.emin prec emax) with (-1074). change prec with 53. lia. }
  replace (e1 - e2 - (e1 - e2 - 53)) with 53 by lia.
  rewrite Z.shiftl_mul_pow2 by lia.
  pose proof (Z.div_eucl_eq (Z.pos m1 * 2 ^ 53) (Z.pos m2) ltac:(lia)) as Heucl.
  pose proof (Z.mod_pos_bound (Z.pos m1 * 2 ^ 53) (Z.pos m2) ltac:(lia)) as Hrem.
  unfold Z.modulo in Hrem.
  destruct (Z.div_eucl (Z.pos m1 * 2 ^ 53) (Z.pos m2)) as [q r].
  change (2 ^ 52) with 4503599627370496 in *. change (2 ^ 53) with 9007199254740992 in *.
  assert (4503599627370496 <= q < 18014398509481984) as Hq by nia.
  destruct q as [|q|q]; [lia| |lia].
  assert (53 <= Z.pos (digits2_pos q) <= 54) as Hdigits.
  { pose proof (digits2_pos_bounds q) as [Hq1 Hq2].
    split.
    - destruct (Z_lt_le_dec (Z.pos (digits2_pos q)) 53) as [Hlt|]; [|done]. exfalso.
      assert (2 ^ Z.pos (digits2_pos q) <= 2 ^ 52) by (apply Z.pow_le_mono_r; lia).
      change (2 ^ 52) with 4503599627370496 in *. lia.
    - destruct (Z_le_gt_dec (Z.pos (digits2_pos q)) 54) as [|Hgt]; [done|]. exfalso.
      assert (2 ^ 54 <= 2 ^ (Z.pos (digits2_pos q) - 1)) by (apply Z.pow_le_mono_r; lia).
      change (2 ^ 54) with 18014398509481984 in *. lia. }
  destruct (binary_round_aux_spec false q (e1 - e2 - 53) (new_location (Z.pos m2) r)
              (Z.pos m1 * 9007199254740992) (Z.pos m2))
    as (m & j & Hround & Hm & Hj & Herr & _).
  - lia.
  - rewrite Heucl. replace (Z.pos m2 * Z.pos q + r) with (Z.pos q * Z.pos m2 + r) by lia.
    by apply new_location_located.
  - lia.
  - lia.
  - lia.
  - exists m, j. rewrite xorb_false_l in *. split; [exact Hround|].
    change (2 ^ 52) with 4503599627370496 in *. change (2 ^ 53) with 9007199254740992 in *.
    split; [lia|]. split; [lia|]. exact Herr.
Qed.

(** Product of two positive Numbers with 53-bit mantissas. *)
Lemma SF64mul_spec (m1 m2 : positive) (e1 e2 : Z) :
  2 ^ 52 <= Z.pos m1 < 2 ^ 53 → 2 ^ 52 <= Z.pos m2 < 2 ^ 53 →
  -400 <= e1 + e2 <= 400 →
  ∃ (m : positive) (j : Z),
    SF64mul (S754_finite false m1 e1) (S754_finite false m2 e2)
    = S754_finite false m (e1 + e2 + j)
    ∧ 2 ^ 52 <= Z.pos m < 2 ^ 53
    ∧ 52 <= j <= 54
    ∧ - 2 ^ j <= 2 * (Z.pos m * 2 ^ j - Z.pos m1 * Z.pos m2) <= 2 ^ j.
Proof.
  intros Hm1 Hm2 He. unfold SF64mul, SFmul.
  assert (105 <= Z.pos (digits2_pos (m1 * m2)) <= 106) as Hdigits.
  { pose proof (digits2_pos_bounds (m1 * m2)) as [Hq1 Hq2].
    rewrite Pos2Z.inj_mul in Hq1, Hq2.
    assert (2 ^ 104 <= Z.pos m1 * Z.pos m2 < 2 ^ 106) as Hprod.
    { change (2 ^ 104) with (2 ^ 52 * 2 ^ 52). change (2 ^ 106) with (2 ^ 53 * 2 ^ 53).
      set (lo := 2 ^ 52) in *. set (hi := 2 ^ 53) in *.
      assert (0 < lo) by reflexivity. clearbody lo hi. nia. }
    split.
    - destruct (Z_lt_le_dec (Z.pos (digits2_pos (m1 * m2))) 105) as [Hlt|]; [|done]. exfalso.
      assert (2 ^ Z.pos (digits2_pos (m1 * m2)) <= 2 ^ 104) by (apply Z.pow_le_mono_r; lia).
      lia.
    - destruct (Z_le_gt_dec (Z.pos (digits2_pos (m1 * m2))) 106) as [|Hgt]; [done|]. exfalso.
      assert (2 ^ 106 <= 2 ^ (Z.pos (digits2_pos (m1 * m2)) - 1))
        by (apply Z.pow_le_mono_r; lia).
      lia. }
  destruct (binary_round_aux_spec false (m1 * m2) (e1 + e2) loc_Exact
              (Z.pos (m1 * m2)) 1)
    as (m & j & Hround & Hm & Hj & Herr & _).
  - lia.
  - cbn [located]. lia.
  - lia.
  - lia.
  - lia.
  - exists m, j. split; [exact Hround|]. split; [exact Hm|]. split; [lia|].
    rewrite Pos2Z.inj_mul in Herr. rewrite !Z.mul_1_r in Herr. exact Herr.
Qed.

Lemma Prim2SF_100 : Prim2SF 100%float = S754_finite false 7036874417766400 (-46).
Proof. reflexivity. Qed.

Lemma Prim2SF_threshold :
  Prim2SF 0.6%float = S754_finite false 5404319552844595 (-53).
Proof. reflexivity. Qed.

Lemma Math_round_fractional x s m e :
  Prim2SF x = S754_finite s m e → e < 0 →
  JS.Math_round x
  = let z := JS.round_half_up s m e in
    if z =? 0 then (if s then PrimFloat.neg_zero else PrimFloat.zero)
    else JS.Number_of_Z z.
Proof.
  intros Hx He. unfold JS.Math_round. rewrite Hx.
  by rewrite (proj2 (Z.leb_gt 0 e)) by lia.
Qed.

(** The arithmetic behind the score: [my * A / B] approximates [c / n],
    [mx / G] approximates 100 times that, [z] is [mx / G] rounded; all the
    errors together stay below half a unit of [1 / n]. *)
Lemma nearest_from_bounds (c n z my mx A B J G : Z) :
  0 < n → 0 <= c → 0 < A → 0 < B → 0 < J → 0 < G →
  G * A * J = B * 2 ^ 46 →
  - (n * A) <= 2 * (my * (n * A) - c * B) <= n * A →
  - J <= 2 * (mx * J - my * 7036874417766400) <= J →
  (2 * z - 1) * G <= 2 * mx < (2 * z + 1) * G →
  3 * n < G → 7036874417766400 <= 2 * J →
  Z.abs (2 * (z * n - 100 * c)) <= n.
Proof.
  intros Hn Hc HA HB HJ HG Hrel Hy Hx Hz Hbig HJ2.
  change (2 ^ 46) with 70368744177664 in Hrel.
  set (K := G * A * J) in *.
  assert (0 < K) as HK by (unfold K; nia).
  set (JAn := J * A * n).
  assert (0 < JAn) as HJAn by (unfold JAn; nia).
  assert (- (G * JAn) <= (2 * z * G - 2 * mx) * JAn <= G * JAn) as P1 by nia.
  set (An := A * n).
  assert (0 < An) as HAn by (unfold An; nia).
  assert (- (J * An) <= (2 * mx * J - 2 * my * 7036874417766400) * An <= J * An) as P2 by nia.
  assert (- (n * A * 7036874417766400)
          <= (2 * my * (n * A) - 2 * c * B) * 7036874417766400
          <= n * A * 7036874417766400) as P3 by nia.
  assert (K * (2 * (z * n - 100 * c))
          = (2 * z * G - 2 * mx) * JAn
            + (2 * mx * J - 2 * my * 7036874417766400) * An
            + (2 * my * (n * A) - 2 * c * B) * 7036874417766400) as Hsum.
  { replace (K * (2 * (z * n - 100 * c)))
      with (2 * z * n * K - 200 * c * K) by ring.
    rewrite Hrel at 2. unfold K, JAn, An. ring. }
  assert (J * An + n * A * 7036874417766400 < K) as Hsmall.
  { assert (0 < A * J) as HAJ by nia.
    assert (3 * n * (A * J) < G * (A * J)) as H1
      by (apply Z.mul_lt_mono_pos_r; [exact HAJ|exact Hbig]).
    assert (0 <= n * A) as HnA by nia.
    assert (n * A * 7036874417766400 <= n * A * (2 * J)) as H2
      by (apply Z.mul_le_mono_nonneg_l; [exact HnA|exact HJ2]).
    unfold K, An. lia. }
  assert (G * JAn = K * n) as HGJ by (unfold K, JAn; ring).
  assert (- (K * (n + 1)) < K * (2 * (z * n - 100 * c)) < K * (n + 1)) as Hfinal.
  { rewrite HGJ in P1. rewrite Hsum. lia. }
  assert (- (n + 1) < 2 * (z * n - 100 * c) < n + 1) as [Hlo Hhi].
  { split; apply (Z.mul_lt_mono_pos_l K); [exact HK|lia|exact HK|lia]. }
  lia.
Qed.

Lemma round_half_up_bounds (mx : positive) (ex : Z) :
  ex < 0 →
  let z := JS.round_half_up false mx ex in
  (2 * z - 1) * 2 ^ (- ex) <= 2 * Z.pos mx < (2 * z + 1) * 2 ^ (- ex).
Proof.
  intros Hex z. unfold z, JS.round_half_up.
  set (G := 2 ^ (- ex)).
  assert (0 < G) as HG by (apply Z.pow_pos_nonneg; lia).
  replace (1 - ex) with (- ex + 1) by lia.
  rewrite Z.shiftr_div_pow2 by lia. rewrite Z.pow_add_r by lia.
  fold G. change (2 ^ 1) with 2.
  pose proof (Z.div_mod (2 * Z.pos mx + G) (G * 2) ltac:(lia)) as Hdiv.
  pose proof (Z.mod_pos_bound (2 * Z.pos mx + G) (G * 2) ltac:(lia)) as Hmod.
  set (q := (2 * Z.pos mx + G) / (G * 2)) in *.
  set (r := (2 * Z.pos mx + G) mod (G * 2)) in *.
  clearbody q r G. lia.
Qed.

Lemma percentage_zero (n : nat) :
  0 < Z.of_nat n < 2 ^ 53 → percentage 0 n = 0%float.
Proof.
  intros Hn. unfold percentage.
  destruct (Number_of_nat_spec n Hn) as (m & e & Hspec & _).
  assert ((JS.Number_of_nat 0 / JS.Number_of_nat n)%float = 0%float) as ->.
  { apply Prim2SF_inj. rewrite FloatAxioms.div_spec, Hspec. reflexivity. }
  reflexivity.
Qed.

(** The score the program computes in doubles is an integer nearest to the
    exact percentage, for all counts below 2^32. *)
Theorem score_nearest (c n : nat) :
  0 < Z.of_nat n < 2 ^ 32 → Z.of_nat c < 2 ^ 32 →
  ∃ z, JS.Math_round (percentage c n) = JS.Number_of_Z z ∧ nearest_percent c n z.
Proof.
  intros Hn Hc.
  change (2 ^ 32) with 4294967296 in *.
  destruct (Z.eq_dec (Z.of_nat c) 0) as [Hzero|Hpos].
  { assert (c = 0%nat) as -> by lia. exists 0. split.
    - rewrite percentage_zero by (change (2 ^ 53) with 9007199254740992; lia). reflexivity.
    - unfold nearest_percent. lia. }
  destruct (Number_of_nat_spec c) as (m1 & e1 & Hc_spec & Hm1 & He1 & Hm1c);
    [change (2 ^ 53) with 9007199254740992; lia|].
  destruct (Number_of_nat_spec n) as (m2 & e2 & Hn_spec & Hm2 & He2 & Hm2n);
    [change (2 ^ 53) with 9007199254740992; lia|].
  destruct (SF64div_spec m1 m2 e1 e2 Hm1 Hm2 ltac:(lia)) as (my & j & Hdiv & Hmy & Hj & Hy).
  destruct (SF64mul_spec my 7036874417766400 (e1 - e2 - 53 + j) (-46) Hmy
              ltac:(change (2 ^ 52) with 4503599627370496;
                    change (2 ^ 53) with 9007199254740992; lia) ltac:(lia))
    as (mx & j' & Hmul & Hmx & Hj' & Hx).
  assert (Prim2SF (percentage c n)
          = S754_finite false mx (e1 - e2 - 53 + j + -46 + j')) as Hpercentage.
  { unfold percentage. rewrite FloatAxioms.mul_spec, FloatAxioms.div_spec, Hc_spec, Hn_spec, Prim2SF_100.
    fold SF64div. rewrite Hdiv. exact Hmul. }
  set (ex := e1 - e2 - 53 + j + -46 + j') in *.
  (* common scales *)
  set (A := 2 ^ (j - e2)).
  set (B := 2 ^ (53 - e1)).
  set (J := 2 ^ j') in *.
  assert (0 < A) as HA by (apply Z.pow_pos_nonneg; lia).
  assert (0 < B) as HB by (apply Z.pow_pos_nonneg; lia).
  assert (0 < J) as HJ by (apply Z.pow_pos_nonneg; lia).
  assert (2 ^ j * Z.pos m2 = Z.of_nat n * A) as HnA.
  { rewrite Hm2n. unfold A. replace (j - e2) with (j + - e2) by lia.
    rewrite Z.pow_add_r by lia. ring. }
  assert (Z.pos m1 * 2 ^ 53 = Z.of_nat c * B) as HcB.
  { rewrite Hm1c. unfold B. replace (53 - e1) with (- e1 + 53) by lia.
    rewrite Z.pow_add_r by lia. ring. }
  rewrite HnA, HcB in Hy.
  change (2 ^ 52) with 4503599627370496 in *. change (2 ^ 53) with 9007199254740992 in *.
  assert (4503599627370496 <= J <= 18014398509481984) as HJrange.
  { unfold J. split.
    - change 4503599627370496 with (2 ^ 52). apply Z.pow_le_mono_r; lia.
    - change 18014398509481984 with (2 ^ 54). apply Z.pow_le_mono_r; lia. }
  (* the quotient is far above one unit of B / A *)
  assert (4503599627370496 * A < 8589934592 * B) as HAB.
  { assert (Z.of_nat n * A <= 2 * Z.pos my * (Z.of_nat n * A) - Z.of_nat n * A) as H0.
    { assert (0 < Z.of_nat n * A) by nia. nia. }
    assert (1 * A <= Z.of_nat n * A) as H1 by (apply Z.mul_le_mono_nonneg_r; lia).
    assert (Z.of_nat c * B < 4294967296 * B) as H2 by (apply Z.mul_lt_mono_pos_r; lia).
    assert (4503599627370496 * (Z.of_nat n * A) <= Z.pos my * (Z.of_nat n * A)) as H3.
    { apply Z.mul_le_mono_nonneg_r; [nia|lia]. }
    lia. }
  assert (ex < 0) as Hex.
  { assert (52 + (j - e2) < 33 + (53 - e1)) as Hexp.
    { apply (Z.pow_lt_mono_r_iff 2); [lia|lia|].
      rewrite !Z.pow_add_r by lia. fold A B.
      change (2 ^ 52) with 4503599627370496. change (2 ^ 33) with 8589934592. exact HAB. }
    unfold ex. lia. }
  set (G := 2 ^ (- ex)).
  assert (0 < G) as HG by (apply Z.pow_pos_nonneg; lia).
  assert (G * A * J = B * 2 ^ 46) as Hrel.
  { unfold G, A, J, B. rewrite <- !Z.pow_add_r by lia. f_equal. unfold ex. lia. }
  pose proof (round_half_up_bounds mx ex Hex) as Hz. cbv zeta in Hz. fold G in Hz.
  set (z := JS.round_half_up false mx ex) in *.
  exists z. split.
  - rewrite (Math_round_fractional _ false mx ex Hpercentage Hex). cbv zeta. fold z.
    destruct (Z.eqb_spec z 0) as [->|_]; reflexivity.
  - unfold nearest_percent.
    apply (nearest_from_bounds (Z.of_nat c) (Z.of_nat n) z (Z.pos my) (Z.pos mx) A B J G);
      try lia; try assumption.
    (* 3 n < G *)
    change (2 ^ 46) with 70368744177664 in Hrel.
    assert ((2 * Z.pos my - 1) * (Z.of_nat n * A) <= 2 * (Z.of_nat c * B)) as H1 by lia.
    assert (9007199254740991 * (Z.of_nat n * A) <= (2 * Z.pos my - 1) * (Z.of_nat n * A)) as H2.
    { apply Z.mul_le_mono_nonneg_r; [nia|lia]. }
    assert (2 * (Z.of_nat c * B) <= 8589934590 * B) as H3.
    { assert (Z.of_nat c * B <= 4294967295 * B) by (apply Z.mul_le_mono_nonneg_r; lia). lia. }
    (* 9007199254740991 n A <= 8589934590 B, and G A J = B 2^46 *)
    assert (9007199254740991 * 70368744177664 * (Z.of_nat n * A)
            <= 8589934590 * (G * A * J)) as H4 by (rewrite Hrel; lia).
    assert (8589934590 * (G * A * J) <= 8589934590 * 18014398509481984 * (G * A)) as H5.
    { assert (G * A * J <= G * A * 18014398509481984)
        by (apply Z.mul_le_mono_nonneg_l; [nia|lia]). lia. }
    assert (9007199254740991 * 70368744177664 * Z.of_nat n * A
            <= 8589934590 * 18014398509481984 * G * A) as H6 by lia.
    assert (9007199254740991 * 70368744177664 * Z.of_nat n
            <= 8589934590 * 18014398509481984 * G) as H7.
    { apply (Z.mul_le_mono_pos_r _ _ A); [exact HA|exact H6]. }
    lia.
Qed.

(** The double quotient reaches the double 0.6 exactly when
    correct / total >= 3/5, for all counts below 2^32. *)
Theorem threshold_exact (c t : nat) :
  0 < Z.of_nat t < 2 ^ 32 → Z.of_nat c < 2 ^ 32 →
  (0.6 <=? JS.Number_of_nat c / JS.Number_of_nat t)%float = true
  ↔ (3 * t ≤ 5 * c)%nat.
Proof.
  intros Ht Hc.
  change (2 ^ 32) with 4294967296 in *.
  destruct (Number_of_nat_spec t) as (m2 & e2 & Ht_spec & Hm2 & He2 & Hm2t);
    [change (2 ^ 53) with 9007199254740992; lia|].
  rewrite FloatAxioms.leb_spec, Prim2SF_threshold, FloatAxioms.div_spec, Ht_spec.
  destruct (Z.eq_dec (Z.of_nat c) 0) as [Hzero|Hpos].
  { assert (c = 0%nat) as -> by lia. split; [discriminate|lia]. }
  destruct (Number_of_nat_spec c) as (m1 & e1 & Hc_spec & Hm1 & He1 & Hm1c);
    [change (2 ^ 53) with 9007199254740992; lia|].
  rewrite Hc_spec.
  destruct (SF64div_spec m1 m2 e1 e2 Hm1 Hm2 ltac:(lia)) as (my & j & -> & Hmy & Hj & Hy).
  set (ey := e1 - e2 - 53 + j) in *.
  set (A := 2 ^ (j - e2)).
  set (B := 2 ^ (53 - e1)).
  assert (0 < A) as HA by (apply Z.pow_pos_nonneg; lia).
  assert (0 < B) as HB by (apply Z.pow_pos_nonneg; lia).
  assert (2 ^ j * Z.pos m2 = Z.of_nat t * A) as HtA.
  { rewrite Hm2t. unfold A. replace (j - e2) with (j + - e2) by lia.
    rewrite Z.pow_add_r by lia. ring. }
  assert (Z.pos m1 * 2 ^ 53 = Z.of_nat c * B) as HcB.
  { rewrite Hm1c. unfold B. replace (53 - e1) with (- e1 + 53) by lia.
    rewrite Z.pow_add_r by lia. ring. }
  rewrite HtA, HcB in Hy.
  change (2 ^ 52) with 4503599627370496 in *. change (2 ^ 53) with 9007199254740992 in *.
  assert (0 < Z.of_nat t * A) as HtA0 by (apply Z.mul_pos_pos; lia).
  assert (4503599627370496 * (Z.of_nat t * A) <= Z.pos my * (Z.of_nat t * A)) as Hlow
    by (apply Z.mul_le_mono_nonneg_r; lia).
  assert (Z.pos my * (Z.of_nat t * A) <= 9007199254740991 * (Z.of_nat t * A)) as Hhigh
    by (apply Z.mul_le_mono_nonneg_r; lia).
  unfold SFleb, SFcompare.
  destruct (Z.compare_spec (-53) ey) as [Heq|Hlt|Hgt].
  - (* the same binade as 0.6: the mantissas decide *)
    assert (B = 9007199254740992 * A) as HBA.
    { unfold A, B. replace (53 - e1) with (53 + (j - e2)) by (unfold ey in Heq; lia).
      rewrite Z.pow_add_r by lia. reflexivity. }
    rewrite HBA in Hy.
    assert (- Z.of_nat t <= 2 * (Z.pos my * Z.of_nat t - Z.of_nat c * 9007199254740992)
            <= Z.of_nat t) as Hy'.
    { split; apply (Z.mul_le_mono_pos_r _ _ A); try exact HA; lia. }
    change (Pos.compare_cont Eq 5404319552844595 my)
      with (Pos.compare 5404319552844595 my).
    destruct (Pos.compare_spec 5404319552844595 my) as [Hm|Hm|Hm].
    + rewrite <- Hm in Hy'. clear Hm. split; [intros _; lia|reflexivity].
    + apply Pos2Z.pos_lt_pos in Hm.
      assert (5404319552844595 * Z.of_nat t <= Z.pos my * Z.of_nat t) as Hge
        by (apply Z.mul_le_mono_nonneg_r; lia).
      split; [intros _; lia|reflexivity].
    + apply Pos2Z.pos_lt_pos in Hm.
      assert (Z.pos my * Z.of_nat t <= 5404319552844594 * Z.of_nat t) as Hle
        by (apply Z.mul_le_mono_nonneg_r; lia).
      split; [discriminate|intros H35; exfalso; lia].
  - (* a higher binade: the quotient is at least 1 *)
    assert (B <= 4503599627370496 * A) as HBA.
    { unfold A, B. change 4503599627370496 with (2 ^ 52).
      rewrite <- Z.pow_add_r by lia. apply Z.pow_le_mono_r; [lia|unfold ey in Hlt; lia]. }
    assert (Z.of_nat c * B <= Z.of_nat c * (4503599627370496 * A)) as Hc1
      by (apply Z.mul_le_mono_nonneg_l; lia).
    assert (9007199254740991 * Z.of_nat t * A <= 9007199254740992 * Z.of_nat c * A) as Hc2 by lia.
    assert (9007199254740991 * Z.of_nat t <= 9007199254740992 * Z.of_nat c) as Hc3
      by (apply (Z.mul_le_mono_pos_r _ _ A); [exact HA|exact Hc2]).
    split; [intros _; lia|done].
  - (* a lower binade: the quotient is below 1/2 *)
    assert (18014398509481984 * A <= B) as HBA.
    { unfold A, B. change 18014398509481984 with (2 ^ 54).
      rewrite <- Z.pow_add_r by lia. apply Z.pow_le_mono_r; [lia|unfold ey in Hgt; lia]. }
    assert (Z.of_nat c * (18014398509481984 * A) <= Z.of_nat c * B) as Hc1
      by (apply Z.mul_le_mono_nonneg_l; lia).
    assert (2 * 18014398509481984 * Z.of_nat c * A < 18014398509481984 * Z.of_nat t * A) as Hc2
      by lia.
    assert (2 * 18014398509481984 * Z.of_nat c < 18014398509481984 * Z.of_nat t) as Hc3
      by (apply (Z.mul_lt_mono_pos_r A); [exact HA|exact Hc2]).
    split; [done|intros H35; lia].
Qed.

End binary64.

(** ** The estimator: dictionaries against counts *)

Section dictionaries.
Implicit Types (dict : gmap string nat) (questions : list Question)
  (userAnswers : list UserAnswer) (l : Level).

Lemma increment_lookup dict k k' :
  default 0 (Results.increment k dict !! k')
  = default 0 (dict !! k') + (if decide (k = k') then 1 else 0).
Proof.
  unfold Results.increment. destruct (decide (k = k')) as [->|Hne].
  - rewrite lookup_insert_eq. simpl. done.
  - rewrite lookup_insert_ne by done. lia.
Qed.

Lemma totalByLevel_from dict questions k :
  default 0 (foldl (λ d q, Results.increment (String_level (level q)) d) dict questions !! k)
  = default 0 (dict !! k) + length (filter (λ q, String_level (level q) = k) questions).
Proof.
  revert dict. induction questions as [|q questions IH]; intros dict; simpl.
  - lia.
  - rewrite IH, increment_lookup. rewrite filter_cons.
    destruct (decide (String_level (level q) = k)); simpl; lia.
Qed.

Lemma totalByLevel_count questions l :
  default 0 (Results.totalByLevel questions !! String_level l) = total_at questions l.
Proof.
  unfold Results.totalByLevel. rewrite totalByLevel_from, lookup_empty. done.
Qed.

Lemma correctByLevel_from_count questions userAnswers dict :
  answers_in_range questions userAnswers →
  ∃ dict', Results.correctByLevel_from questions userAnswers dict = Some dict'
    ∧ ∀ l, default 0 (dict' !! String_level l)
           = default 0 (dict !! String_level l) + correct_at questions userAnswers l.
Proof.
  unfold correct_at. intros Hrange. revert dict.
  induction Hrange as [|ua userAnswers Hua _ IH]; intros dict; simpl.
  - exists dict. split; [done|]. intros l. simpl. lia.
  - apply lookup_lt_is_Some_2 in Hua as [q Hq]. rewrite Hq. simpl.
    case_bool_decide as Hans.
    + destruct (IH (Results.increment (String_level (level q)) dict)) as (d & -> & Hd).
      exists d. split; [done|]. intros l. rewrite Hd, increment_lookup, filter_cons.
      destruct (decide (matches_at questions l ua)) as [(q' & Hq' & _ & Hl)|Hno].
      * rewrite Hq in Hq'. injection Hq' as <-. unfold at_level in Hl.
        rewrite decide_True by done. simpl. lia.
      * rewrite decide_False; [lia|]. intros Hl. apply Hno. exists q. done.
    + destruct (IH dict) as (d & -> & Hd).
      exists d. split; [done|]. intros l. rewrite Hd, filter_cons.
      rewrite decide_False; [done|]. intros (q' & Hq' & Hans' & _).
      rewrite Hq in Hq'. injection Hq' as <-. done.
Qed.

Lemma correctByLevel_count questions userAnswers :
  answers_in_range questions userAnswers →
  ∃ dict, Results.correctByLevel questions userAnswers = Some dict
    ∧ ∀ l, default 0 (dict !! String_level l) = correct_at questions userAnswers l.
Proof.
  intros Hrange.
  destruct (correctByLevel_from_count questions userAnswers ∅ Hrange) as (d & Hd & Hcount).
  exists d. split; [done|]. intros l. rewrite Hcount, lookup_empty. done.
Qed.

Lemma correctAnswersCount_count questions userAnswers :
  answers_in_range questions userAnswers →
  Results.correctAnswersCount questions userAnswers
  = Some (correct_count questions userAnswers).
Proof.
  unfold Results.correctAnswersCount, correct_count. intros Hrange.
  enough (Results.filter_throwing (Results.is_correct questions) userAnswers
          = Some (filter (matches questions) userAnswers)) as -> by done.
  induction Hrange as [|ua userAnswers Hua _ IH]; simpl; [done|].
  rewrite IH. unfold Results.is_correct at 1.
  apply lookup_lt_is_Some_2 in Hua as [q Hq]. rewrite Hq. simpl.
  rewrite filter_cons. case_bool_decide as Hans.
  - rewrite decide_True; [done|]. exists q. done.
  - rewrite decide_False; [done|]. intros (q' & Hq' & Hans').
    rewrite Hq in Hq'. injection Hq' as <-. done.
Qed.

Lemma total_at_sized questions l :
  array_sized questions → (Z.of_nat (total_at questions l) < 2 ^ 32)%Z.
Proof.
  unfold array_sized, total_at. intros Hsized.
  pose proof (length_filter (at_level l) questions). lia.
Qed.

Lemma correct_at_sized questions userAnswers l :
  array_sized userAnswers → (Z.of_nat (correct_at questions userAnswers l) < 2 ^ 32)%Z.
Proof.
  unfold array_sized, correct_at. intros Hsized.
  pose proof (length_filter (matches_at questions l) userAnswers). lia.
Qed.

Lemma correct_count_sized questions userAnswers :
  array_sized userAnswers → (Z.of_nat (correct_count questions userAnswers) < 2 ^ 32)%Z.
Proof.
  unfold array_sized, correct_count. intros Hsized.
  pose proof (length_filter (matches questions) userAnswers). lia.
Qed.

(** Passing, in integers: the level has questions and at least three fifths
    of them are answered right. *)
Lemma passes_iff questions userAnswers l :
  passes questions userAnswers l
  ↔ 0 < total_at questions l
    ∧ 3 * total_at questions l ≤ 5 * correct_at questions userAnswers l.
Proof.
  unfold passes, accuracy_at, Qle.
  destruct (decide (total_at questions l = 0)) as [Hzero|Hpos]; cbn [Qnum Qden].
  - lia.
  - assert (Z.pos (Pos.of_nat (total_at questions l)) = Z.of_nat (total_at questions l))
      as -> by (rewrite <- positive_nat_Z, Nat2Pos.id; done).
    lia.
Qed.

(** The test the loop makes in doubles on the two dictionaries is the exact
    test of the level. *)
Lemma loop_passes_iff questions userAnswers dict l :
  array_sized questions → array_sized userAnswers →
  (∀ l', default 0 (dict !! String_level l') = correct_at questions userAnswers l') →
  loop_passes (Results.totalByLevel questions) dict l = true
  ↔ passes questions userAnswers l.
Proof.
  intros Hquestions Hanswers Hdict. rewrite passes_iff.
  unfold loop_passes, Results.accuracy.
  pose proof (totalByLevel_count questions l) as Htotal.
  pose proof (total_at_sized questions l Hquestions) as Htotal_sized.
  pose proof (correct_at_sized questions userAnswers l Hanswers) as Hcorrect_sized.
  destruct (Results.totalByLevel questions !! String_level l) as [t|]; simpl in Htotal.
  - rewrite <- Htotal in *. case_bool_decide as Ht.
    + rewrite Hdict, threshold_exact by lia. lia.
    + split; [discriminate|lia].
  - split; [discriminate|lia].
Qed.

End dictionaries.

(** ** The estimator: the walk over the level list *)

Section walk.
Implicit Types (total correct : gmap string nat) (order passed rest : list Level)
  (l : Level) (acc : option Level).

Lemma level_loop_passed total correct passed rest acc :
  Forall (λ l, loop_passes total correct l = true) passed →
  Results.level_loop total correct (passed ++ rest) acc
  = Results.level_loop total correct rest (from_option Some acc (last passed)).
Proof.
  intros Hpassed. revert acc.
  induction Hpassed as [|l passed Hl _ IH]; intros acc; simpl; [done|].
  unfold loop_passes in Hl. rewrite Hl, IH. f_equal.
  destruct passed as [|l' passed]; [done|]. rewrite last_cons_cons.
  destruct (last (l' :: passed)) eqn:Hlast; [done|].
  apply last_None in Hlast. done.
Qed.

Lemma level_loop_break total correct rest acc :
  (∀ l, head rest = Some l → loop_passes total correct l = false) →
  Results.level_loop total correct rest acc = acc.
Proof.
  destruct rest as [|l rest]; simpl; [done|]. intros Hl.
  specialize (Hl l eq_refl). unfold loop_passes in Hl. rewrite Hl. done.
Qed.

(** Every list splits into its longest passing prefix and the rest. *)
Lemma passing_prefix total correct order :
  ∃ passed rest, order = passed ++ rest
    ∧ Forall (λ l, loop_passes total correct l = true) passed
    ∧ ∀ l, head rest = Some l → loop_passes total correct l = false.
Proof.
  induction order as [|l order (passed & rest & -> & Hpassed & Hrest)].
  - exists [], []. split_and!; [done|constructor|done].
  - destruct (loop_passes total correct l) eqn:Hl.
    + exists (l :: passed), rest. split_and!; [done|by constructor|done].
    + exists [], (l :: passed ++ rest). split_and!; [done|constructor|].
      intros l' [= <-]. done.
Qed.

Lemma LEVEL_ORDER_truthy language l :
  l ∈ Results.LEVEL_ORDER language → truthy_level (Some l) = true.
Proof.
  intros Hl. destruct language; simpl in Hl;
    repeat (apply elem_of_cons in Hl as [->|Hl]; [reflexivity|]);
    by apply elem_of_nil in Hl.
Qed.

Lemma finalLevel_passed language l score :
  l ∈ Results.LEVEL_ORDER language →
  Results.finalLevel language (Some l) score = String_level l.
Proof.
  intros Hl. unfold Results.finalLevel. rewrite (LEVEL_ORDER_truthy language l Hl). done.
Qed.

Lemma absent_fails questions userAnswers l :
  ¬ present questions l → ¬ passes questions userAnswers l.
Proof.
  unfold present. rewrite passes_iff. lia.
Qed.

(** The last element satisfying [P]: everything after it fails [P]. *)
Lemma last_filter_Some {A} (P : A → Prop) `{!∀ x, Decision (P x)} (xs : list A) m :
  last (filter P xs) = Some m →
  ∃ lower higher, xs = lower ++ m :: higher ∧ P m ∧ Forall (λ x, ¬ P x) higher.
Proof.
  induction xs as [|x xs IH]; [done|]. rewrite filter_cons.
  destruct (decide (P x)) as [HP|HP].
  - destruct (filter P xs) as [|y ys] eqn:Hfilter.
    + intros [= <-]. exists [], xs. split_and!; [done..|].
      apply Forall_forall. intros z Hz HPz.
      assert (z ∈ filter P xs) as Hin by (apply list_elem_of_filter; done).
      rewrite Hfilter in Hin. by apply elem_of_nil in Hin.
    + rewrite last_cons_cons. intros Hlast.
      destruct (IH Hlast) as (lower & higher & -> & ? & ?).
      exists (x :: lower), higher. done.
  - intros Hlast. destruct (IH Hlast) as (lower & higher & -> & ? & ?).
    exists (x :: lower), higher. done.
Qed.

End walk.

(** ** The estimator: level estimate and fallback *)

Section estimator.
Implicit Types (questions : list Question) (userAnswers : list UserAnswer)
  (language : Language) (l m : Level).

(** With every answer in range nothing throws, and the summary is built from
    the counts. *)
Lemma ResultsScreen_returns questions userAnswers language :
  answers_in_range questions userAnswers →
  ∃ dict,
    (∀ l, default 0 (dict !! String_level l) = correct_at questions userAnswers l)
    ∧ Results.ResultsScreen questions userAnswers language
      = Some {|
          Results.correctAnswers := correct_count questions userAnswers;
          Results.score :=
            Results.calculatedScore (correct_count questions userAnswers) questions;
          Results.estimatedLevel :=
            Results.finalLevel language
              (Results.level_loop (Results.totalByLevel questions) dict
                 (Results.LEVEL_ORDER language) None)
              (Results.calculatedScore (correct_count questions userAnswers) questions);
          Results.levelPrefix := Results.calculatedPrefix language |}.
Proof.
  intros Hrange.
  destruct (correctByLevel_count questions userAnswers Hrange) as (dict & Hdict & Hcount).
  exists dict. split; [done|].
  unfold Results.ResultsScreen, Results.passedLevel.
  rewrite (correctAnswersCount_count _ _ Hrange), Hdict. done.
Qed.

Lemma loop_fails_iff questions userAnswers dict l :
  array_sized questions → array_sized userAnswers →
  (∀ l', default 0 (dict !! String_level l') = correct_at questions userAnswers l') →
  loop_passes (Results.totalByLevel questions) dict l = false
  ↔ ¬ passes questions userAnswers l.
Proof.
  intros Hquestions Hanswers Hdict.
  rewrite <- (loop_passes_iff questions userAnswers dict l Hquestions Hanswers Hdict).
  by destruct (loop_passes _ _ _).
Qed.

(** C1. The estimator walks the level list of the language from the lowest
    level up: the list splits into the levels it passed (each with accuracy
    at least 0.6, the accuracy being correct-at-level over total-at-level,
    and 0 for a level without questions) and the rest, whose first level
    fails the threshold and stops the walk; the estimate is the last, that
    is the highest, passed level. *)
Theorem C1_level_walk questions userAnswers language :
  array_sized questions → array_sized userAnswers →
  answers_in_range questions userAnswers →
  ∃ summary passed rest,
    Results.ResultsScreen questions userAnswers language = Some summary
    ∧ Results.LEVEL_ORDER language = passed ++ rest
    ∧ Forall (passes questions userAnswers) passed
    ∧ (∀ l, head rest = Some l → ¬ passes questions userAnswers l)
    ∧ (∀ l, last passed = Some l → Results.estimatedLevel summary = String_level l).
Proof.
  intros Hquestions Hanswers Hrange.
  destruct (ResultsScreen_returns questions userAnswers language Hrange)
    as (dict & Hdict & Hsummary).
  destruct (passing_prefix (Results.totalByLevel questions) dict
              (Results.LEVEL_ORDER language)) as (passed & rest & Horder & Hpassed & Hrest).
  eexists _, passed, rest. split; [exact Hsummary|]. split_and!; [done| | |].
  - eapply Forall_impl; [exact Hpassed|]. intros l. simpl.
    by rewrite (loop_passes_iff questions userAnswers dict l Hquestions Hanswers Hdict).
  - intros l Hl.
    apply (loop_fails_iff questions userAnswers dict l Hquestions Hanswers Hdict). auto.
  - intros l Hlast. simpl.
    rewrite Horder, (level_loop_passed _ _ _ _ _ Hpassed), Hlast. simpl.
    rewrite (level_loop_break _ _ _ _ Hrest).
    apply finalLevel_passed. rewrite Horder. apply elem_of_app. left.
    apply last_Some in Hlast as [passed' ->]. apply elem_of_app. right. by left.
Qed.

(** C2, as amended. When every level of the track's list up to and including
    the highest level present in the question set has accuracy at least
    0.6, the estimate is that highest level present. *)
Theorem C2_estimate_is_max_present questions userAnswers language m :
  array_sized questions → array_sized userAnswers →
  answers_in_range questions userAnswers →
  max_level_present language questions = Some m →
  (∀ l, up_to language m l → passes questions userAnswers l) →
  ∃ summary,
    Results.ResultsScreen questions userAnswers language = Some summary
    ∧ Results.estimatedLevel summary = String_level m.
Proof.
  intros Hquestions Hanswers Hrange Hmax Hpass.
  destruct (ResultsScreen_returns questions userAnswers language Hrange)
    as (dict & Hdict & Hsummary).
  eexists. split; [exact Hsummary|]. simpl.
  apply last_filter_Some in Hmax as (lower & higher & Horder & _ & Habsent).
  assert (Forall (λ l, loop_passes (Results.totalByLevel questions) dict l = true)
            (lower ++ [m])) as Hpassed.
  { apply Forall_lookup. intros i l Hi.
    apply (loop_passes_iff questions userAnswers dict l Hquestions Hanswers Hdict).
    apply Hpass. exists i, (length lower). rewrite Horder. split_and!.
    - rewrite cons_middle, app_assoc. apply lookup_app_l_Some. done.
    - by rewrite list_lookup_middle.
    - apply lookup_lt_Some in Hi. rewrite length_app in Hi. simpl in Hi. lia. }
  rewrite Horder, cons_middle, app_assoc, (level_loop_passed _ _ _ _ _ Hpassed).
  rewrite last_snoc. simpl. rewrite level_loop_break.
  - apply finalLevel_passed. rewrite Horder. apply elem_of_app. right. by left.
  - intros l Hl.
    apply (loop_fails_iff questions userAnswers dict l Hquestions Hanswers Hdict).
    apply absent_fails. destruct higher as [|l' higher]; [done|].
    injection Hl as ->. by apply Forall_cons_1 in Habsent as [? _].
Qed.

(** C3. When the lowest level of the track fails the threshold (so that the
    walk passes no level), the estimate is the floor value of the track if
    the raw score is strictly greater than 20 and the below-minimum label
    otherwise. *)
Theorem C3_fallback questions userAnswers language :
  array_sized questions → array_sized userAnswers →
  answers_in_range questions userAnswers →
  (∀ l, head (Results.LEVEL_ORDER language) = Some l →
        ¬ passes questions userAnswers l) →
  ∃ summary,
    Results.ResultsScreen questions userAnswers language = Some summary
    ∧ Results.estimatedLevel summary
      = match language, (20 <? Results.score summary)%float with
        | hsk, true => "1"
        | hsk, false => "Below 1"
        | ielts, true => "4.0"
        | ielts, false => "Below 4.0"
        | dele, true => "A1"
        | dele, false => "Below A1"
        end.
Proof.
  intros Hquestions Hanswers Hrange Hfirst.
  destruct (ResultsScreen_returns questions userAnswers language Hrange)
    as (dict & Hdict & Hsummary).
  eexists. split; [exact Hsummary|]. simpl.
  rewrite level_loop_break.
  - unfold Results.finalLevel.
    destruct language, (20 <? _)%float; reflexivity.
  - intros l Hl.
    apply (loop_fails_iff questions userAnswers dict l Hquestions Hanswers Hdict). auto.
Qed.

(** C4. The raw score is [Math.round] of the number of answers that match
    the correct answer of their question, divided by the number of
    questions, times 100; computed in doubles as it is, it is an integer
    nearest to the exact value of that percentage; 18 correct answers on 30
    questions give 60. *)
Theorem C4_raw_score questions userAnswers language :
  array_sized questions → array_sized userAnswers →
  answers_in_range questions userAnswers →
  ∃ summary,
    Results.ResultsScreen questions userAnswers language = Some summary
    ∧ Results.correctAnswers summary = correct_count questions userAnswers
    ∧ Results.score summary
      = JS.Math_round (percentage (correct_count questions userAnswers) (length questions))
    ∧ (questions ≠ [] →
       ∃ z, Results.score summary = JS.Number_of_Z z
            ∧ nearest_percent (correct_count questions userAnswers) (length questions) z)
    ∧ (correct_count questions userAnswers = 18 → length questions = 30 →
       Results.score summary = 60%float).
Proof.
  intros Hquestions Hanswers Hrange.
  destruct (ResultsScreen_returns questions userAnswers language Hrange)
    as (dict & _ & Hsummary).
  eexists. split; [exact Hsummary|]. simpl. split_and!; [done|done| |].
  - intros Hnonempty. apply score_nearest.
    + unfold array_sized in Hquestions. destruct questions; [done|]. simpl length in *. lia.
    + by apply correct_count_sized.
  - intros Hcount Hlen. unfold Results.calculatedScore. rewrite Hcount, Hlen.
    vm_compute. reflexivity.
Qed.

End estimator.

(** ** Binary64 arithmetic: the random index of the shuffle *)

Section random_indices.
#[local] Open Scope Z_scope.

(** The shift that [shr_fexp] makes, in the subnormal range too. *)
Lemma shr_fexp_shifted (p : positive) e l N D :
  0 < D → located (Z.pos p) l N D →
  let s := fexp prec emax (Z.pos (digits2_pos p) + e) - e in
  0 <= s →
  ∃ mrs, shr_fexp prec emax (Z.pos p) e l = (mrs, e + s)
    ∧ located_record mrs N (2 ^ s * D)
    ∧ shr_m mrs = Z.pos p / 2 ^ s.
Proof.
  intros HD Hloc s Hs. unfold shr_fexp, shr, Zdigits2. fold s.
  destruct (loc_of_shr_record_of_loc (Z.pos p) l) as [Hl Hm].
  clearbody s. destruct s as [|k|k]; [| |lia].
  - exists (shr_record_of_loc (Z.pos p) l). split_and!.
    + f_equal. lia.
    + unfold located_record. rewrite Hl, Hm. change (2 ^ 0) with 1.
      by replace (1 * D) with D by lia.
    + rewrite Hm. change (2 ^ 0) with 1. by rewrite Z.div_1_r.
  - destruct (iter_shr_1_located k (shr_record_of_loc (Z.pos p) l) N D) as [Hiter Hshift].
    + rewrite Hm. lia.
    + done.
    + unfold located_record. by rewrite Hl, Hm.
    + eexists. split_and!; [reflexivity|exact Hiter|by rewrite Hshift, Hm].
Qed.

(** Rounding an exact value to nearest, in the subnormal range too: the
    result is zero or finite, and as a multiple [R] of [2 ^ (ex + s)] it
    lies within half a unit of the value. *)
Lemma binary_round_aux_exact (sx : bool) (p : positive) ex :
  let s := fexp prec emax (Z.pos (digits2_pos p) + ex) - ex in
  0 <= s → ex + s + 1 <= 971 →
  ∃ R : Z,
    0 <= R
    ∧ - 2 ^ s <= 2 * (R * 2 ^ s - Z.pos p) <= 2 ^ s
    ∧ (R = 0 ∧ binary_round_aux prec emax sx (Z.pos p) ex loc_Exact = S754_zero sx
       ∨ ∃ (m : positive) (e : Z),
           binary_round_aux prec emax sx (Z.pos p) ex loc_Exact = S754_finite sx m e
           ∧ ex + s <= e ∧ Z.pos m * 2 ^ (e - (ex + s)) = R).
Proof.
  intros s Hs Hhi.
  destruct (shr_fexp_shifted p ex loc_Exact (Z.pos p) 1) as (mrs & Hshr & Hmrs & Hm);
    [lia|cbn [located]; lia|done|].
  fold s in Hshr, Hmrs, Hm.
  assert (0 < 2 ^ s) as Hpow by (apply Z.pow_pos_nonneg; lia).
  pose proof (round_nearest_even_located mrs (Z.pos p) (2 ^ s * 1) ltac:(lia) Hmrs)
    as (HR & Herr & _).
  set (R := round_nearest_even (shr_m mrs) (loc_of_shr_record mrs)) in *.
  assert (-1074 <= ex + s) as Hlow.
  { unfold s, fexp. change (SpecFloat.emin prec emax) with (-1074). lia. }
  assert (0 <= shr_m mrs < 2 ^ 53) as Hrange.
  { rewrite Hm. split; [apply Z.div_pos; lia|].
    apply Z.div_lt_upper_bound; [lia|].
    pose proof (digits2_pos_bounds p) as [_ Hp2].
    assert (Z.pos (digits2_pos p) <= s + 53) as Hd.
    { unfold s, fexp. change prec with 53. lia. }
    assert (2 ^ Z.pos (digits2_pos p) <= 2 ^ (s + 53)) as Hmono
      by (apply Z.pow_le_mono_r; lia).
    rewrite Z.pow_add_r in Hmono by lia. lia. }
  exists R. split; [lia|]. split; [rewrite Z.mul_1_r in Herr; exact Herr|].
  unfold binary_round_aux. rewrite Hshr. fold R.
  destruct R as [|r|r] eqn:ER; [|  |lia].
  - (* rounded to zero *)
    left. split; [done|].
    unfold shr_fexp, shr, Zdigits2, fexp.
    change (SpecFloat.emin prec emax) with (-1074). change prec with 53.
    destruct (Z.max (0 + (ex + s) - 53) (-1074) - (ex + s)) as [|q|q] eqn:Eshift; [done|lia|done].
  - right.
    destruct (Z.eq_dec (Z.pos r) (2 ^ 53)) as [Htop|Hbelow].
    + (* the mantissa rounded up to 2^53 *)
      change (2 ^ 53) with 9007199254740992 in *.
      assert (r = 9007199254740992%positive) as -> by lia.
      assert (shr_fexp prec emax 9007199254740992 (ex + s) loc_Exact
              = ({| shr_m := 4503599627370496; shr_r := false; shr_s := false |}, ex + s + 1))
        as ->.
      { unfold shr_fexp, fexp, Zdigits2.
        change (SpecFloat.emin prec emax) with (-1074). change prec with 53.
        change (Z.pos (digits2_pos 9007199254740992)) with 54.
        replace (Z.max (54 + (ex + s) - 53) (-1074) - (ex + s)) with 1 by lia.
        reflexivity. }
      exists (4503599627370496)%positive, (ex + s + 1). cbn [shr_m].
      replace (ex + s + 1 <=? emax - prec) with true
        by (symmetry; apply Z.leb_le; change emax with 1024; change prec with 53; lia).
      split; [done|]. split; [lia|].
      replace (ex + s + 1 - (ex + s)) with 1 by lia. reflexivity.
    + assert (Z.pos r < 2 ^ 53) as Hr by lia.
      assert (Z.pos (digits2_pos r) <= 53) as Hdigits.
      { pose proof (digits2_pos_bounds r) as [Hr1 _].
        destruct (Z_le_gt_dec (Z.pos (digits2_pos r)) 53) as [|Hgt]; [done|]. exfalso.
        assert (2 ^ 53 <= 2 ^ (Z.pos (digits2_pos r) - 1)) by (apply Z.pow_le_mono_r; lia).
        lia. }
      exists r, (ex + s).
      assert (shr_fexp prec emax (Z.pos r) (ex + s) loc_Exact
              = ({| shr_m := Z.pos r; shr_r := false; shr_s := false |}, ex + s)) as ->.
      { unfold shr_fexp, shr, Zdigits2, fexp.
        change (SpecFloat.emin prec emax) with (-1074). change prec with 53.
        destruct (Z.max (Z.pos (digits2_pos r) + (ex + s) - 53) (-1074) - (ex + s))
          as [|q|q] eqn:Eshift; [done|lia|done]. }
      cbn [shr_m].
      replace (ex + s <=? emax - prec) with true
        by (symmetry; apply Z.leb_le; change emax with 1024; change prec with 53; lia).
      split; [done|]. split; [lia|].
      replace (ex + s - (ex + s)) with 0 by lia. change (2 ^ 0) with 1. lia.
Qed.


Lemma SFltb_finite (m1 m2 : positive) (e1 e2 : Z) :
  SFltb (S754_finite false m1 e1) (S754_finite false m2 e2) = true
  ↔ e1 < e2 ∨ (e1 = e2 ∧ Z.pos m1 < Z.pos m2).
Proof.
  unfold SFltb, SFcompare.
  destruct (Z.compare_spec e1 e2) as [Heq|Hlt|Hgt].
  - change (Pos.compare_cont Eq m1 m2) with (Pos.compare m1 m2).
    destruct (Pos.compare_spec m1 m2) as [Hm|Hm|Hm].
    + split; [done|]. intros [?|[_ ?]]; lia.
    + split; [|done]. intros _. right. split; [done|]. by apply Pos2Z.pos_lt_pos.
    + split; [done|]. apply Pos2Z.pos_lt_pos in Hm. intros [?|[_ ?]]; lia.
  - split; [|done]. intros _. by left.
  - split; [done|]. intros [?|[? _]]; lia.
Qed.

(** The doubles from 0 up to a positive finite bound, excluded. *)
Lemma SF_between (y : spec_float) (m2 : positive) (e2 : Z) :
  SFleb (S754_zero false) y = true →
  SFltb y (S754_finite false m2 e2) = true →
  (∃ s, y = S754_zero s)
  ∨ ∃ (m : positive) (e : Z),
      y = S754_finite false m e ∧ (e < e2 ∨ (e = e2 ∧ Z.pos m < Z.pos m2)).
Proof.
  intros Hlo Hhi. destruct y as [s|s| |s m e].
  - left. by exists s.
  - destruct s; [discriminate Hlo|discriminate Hhi].
  - discriminate Hlo.
  - destruct s; [discriminate Hlo|].
    right. exists m, e. split; [done|]. by apply SFltb_finite.
Qed.

(** A finite double as [Prim2SF] gives it: at most 53 bits of mantissa, on
    an exponent of -1074 at least, and 53 bits above that exponent. *)
Lemma Prim2SF_finite_bounds (x : float) s (m : positive) e :
  Prim2SF x = S754_finite s m e →
  Z.pos m < 2 ^ 53 ∧ -1074 <= e ∧ (-1074 < e → 2 ^ 52 <= Z.pos m).
Proof.
  intros Hx. pose proof (Prim2SF_valid x) as Hvalid. rewrite Hx in Hvalid.
  unfold valid_binary, bounded, canonical_mantissa in Hvalid.
  apply andb_prop in Hvalid as [Hcanonical _].
  apply Z.eqb_eq in Hcanonical. unfold fexp in Hcanonical.
  change (SpecFloat.emin prec emax) with (-1074) in Hcanonical.
  change prec with 53 in Hcanonical.
  pose proof (digits2_pos_bounds m) as [Hm1 Hm2].
  split_and!.
  - assert (2 ^ Z.pos (digits2_pos m) <= 2 ^ 53) by (apply Z.pow_le_mono_r; lia). lia.
  - lia.
  - intros He.
    assert (2 ^ 52 <= 2 ^ (Z.pos (digits2_pos m) - 1)) by (apply Z.pow_le_mono_r; lia). lia.
Qed.

(** The values [Math.random] may return: a zero, or a positive double
    below 1. *)
Lemma unit_interval_cases (r : float) :
  (0 <=? r)%float = true → (r <? 1)%float = true →
  (∃ s, Prim2SF r = S754_zero s)
  ∨ ∃ (m : positive) (e : Z),
      Prim2SF r = S754_finite false m e ∧ Z.pos m < 2 ^ 53 ∧ -1074 <= e <= -53.
Proof.
  rewrite FloatAxioms.leb_spec, FloatAxioms.ltb_spec.
  change (Prim2SF 0) with (S754_zero false).
  change (Prim2SF 1) with (S754_finite false 4503599627370496 (-52)).
  intros Hlo Hhi.
  destruct (SF_between _ _ _ Hlo Hhi) as [?|(m & e & Hr & Hbelow)]; [by left|].
  right. exists m, e. split; [done|].
  destruct (Prim2SF_finite_bounds r false m e Hr) as (Hm & He & Hnormal).
  change (2 ^ 52) with 4503599627370496 in *.
  split; [done|]. lia.
Qed.

(** A double below 1 times a count, rounded, stays below the count. *)
Lemma SF64mul_below (m mn : positive) (e en k : Z) :
  Z.pos m < 2 ^ 53 → -1074 <= e <= -53 →
  2 ^ 52 <= Z.pos mn < 2 ^ 53 → -52 <= en <= 0 → Z.pos mn = k * 2 ^ (- en) →
  SF64mul (S754_finite false m e) (S754_finite false mn en) = S754_zero false
  ∨ ∃ (m' : positive) (e' : Z),
      SF64mul (S754_finite false m e) (S754_finite false mn en) = S754_finite false m' e'
      ∧ e + en <= e' ∧ Z.pos m' * 2 ^ (e' - (e + en)) < k * 2 ^ (- (e + en)).
Proof.
  intros Hm He Hmn Hen Hk. unfold SF64mul, SFmul. cbn [xorb].
  set (d := Z.pos (digits2_pos (m * mn))).
  pose proof (digits2_pos_bounds (m * mn)) as [Hd1 Hd2]. fold d in Hd1, Hd2.
  rewrite Pos2Z.inj_mul in Hd1, Hd2.
  change (2 ^ 52) with 4503599627370496 in *. change (2 ^ 53) with 9007199254740992 in *.
  assert (4503599627370496 <= Z.pos m * Z.pos mn) as Hlow.
  { assert (1 * Z.pos mn <= Z.pos m * Z.pos mn) by (apply Z.mul_le_mono_nonneg_r; lia).
    lia. }
  assert (Z.pos m * Z.pos mn < 9007199254740992 * Z.pos mn) as Hhigh
    by (apply Z.mul_lt_mono_pos_r; lia).
  assert (53 <= d <= 106) as Hd.
  { split.
    - destruct (Z_lt_le_dec d 53) as [Hlt|]; [|done]. exfalso.
      assert (2 ^ d <= 2 ^ 52) by (apply Z.pow_le_mono_r; unfold d in *; lia).
      change (2 ^ 52) with 4503599627370496 in *. lia.
    - destruct (Z_le_gt_dec d 106) as [|Hgt]; [done|]. exfalso.
      assert (2 ^ 106 <= 2 ^ (d - 1)) by (apply Z.pow_le_mono_r; lia).
      change (2 ^ 106) with (9007199254740992 * 9007199254740992) in *.
      assert (9007199254740992 * Z.pos mn < 9007199254740992 * 9007199254740992)
        by (apply Z.mul_lt_mono_pos_l; lia).
      lia. }
  set (s := fexp prec emax (d + (e + en)) - (e + en)).
  assert (d - 53 <= s <= 53 ∧ (s = 53 → d = 106)) as Hs.
  { unfold s, fexp. change (SpecFloat.emin prec emax) with (-1074). change prec with 53. lia. }
  destruct (binary_round_aux_exact false (m * mn) (e + en)) as (R & HR & Herr & Hresult).
  { fold d s. lia. }
  { fold d s. lia. }
  fold d s in Herr, Hresult. rewrite Pos2Z.inj_mul in Herr.
  destruct Hresult as [[_ Hzero]|(m' & e' & Hfinite & He' & Hvalue)]; [by left|].
  right. exists m', e'. split; [exact Hfinite|]. fold s in He'. split; [lia|].
  (* the rounded product, on the scale of the exact one *)
  set (S := 2 ^ s) in *. set (T := 2 ^ (- e)).
  assert (0 < S) as HS by (apply Z.pow_pos_nonneg; lia).
  assert (9007199254740992 <= T) as HT.
  { unfold T. change 9007199254740992 with (2 ^ 53). apply Z.pow_le_mono_r; lia. }
  assert (S < 2 * Z.pos mn) as Hunit.
  { destruct (Z.eq_dec s 53) as [Htop|Hlower].
    - unfold S. rewrite Htop. change (2 ^ 53) with 9007199254740992.
      destruct Hs as [_ Hfull]. specialize (Hfull Htop).
      assert (2 ^ 105 <= Z.pos m * Z.pos mn) as Hbig
        by (replace 105 with (d - 1) by lia; exact Hd1).
      change (2 ^ 105) with (9007199254740992 * 4503599627370496) in Hbig. lia.
    - assert (S <= 2 ^ 52) by (apply Z.pow_le_mono_r; lia).
      change (2 ^ 52) with 4503599627370496 in *. lia. }
  assert (Z.pos m * Z.pos mn <= T * Z.pos mn - Z.pos mn) as Hexact.
  { assert (Z.pos m * Z.pos mn <= (T - 1) * Z.pos mn)
      by (apply Z.mul_le_mono_nonneg_r; lia).
    lia. }
  assert (R * S < T * Z.pos mn) as Hbelow by lia.
  (* back to the exponent of the result *)
  assert (2 ^ (e' - (e + en)) = 2 ^ (e' - (e + en + s)) * S) as Hsplit.
  { unfold S. rewrite <- Z.pow_add_r by lia. f_equal. lia. }
  assert (2 ^ (- (e + en)) = T * 2 ^ (- en)) as Hscale.
  { unfold T. rewrite <- Z.pow_add_r by lia. f_equal. lia. }
  rewrite Hsplit, Hscale, Z.mul_assoc, Hvalue.
  replace (k * (T * 2 ^ (- en))) with (T * (k * 2 ^ (- en))) by ring.
  rewrite <- Hk. exact Hbelow.
Qed.

(** A whole Number below 2^32 - 1 is the index it denotes. *)
Lemma array_index_Number_of_Z (z : Z) :
  0 <= z < 2 ^ 32 - 1 → JS.array_index (JS.Number_of_Z z) = Some (Z.to_nat z).
Proof.
  intros Hz. change (2 ^ 32 - 1) with 4294967295 in Hz.
  destruct (Z.eq_dec z 0) as [->|Hnz]; [reflexivity|].
  assert (JS.Number_of_Z z = JS.Number_of_nat (Z.to_nat z)) as ->.
  { unfold JS.Number_of_Z, JS.Number_of_nat.
    rewrite (proj2 (Z.ltb_ge z 0)) by lia. by rewrite Z2Nat.id by lia. }
  destruct (Number_of_nat_spec (Z.to_nat z)) as (m & e & Hnumber & Hm & He & Hvalue).
  { rewrite Z2Nat.id by lia. change (2 ^ 53) with 9007199254740992. lia. }
  rewrite Z2Nat.id in Hvalue by lia.
  unfold JS.array_index. rewrite Hnumber.
  assert (0 < 2 ^ (- e)) as Hpow by (apply Z.pow_pos_nonneg; lia).
  destruct (Z.leb_spec 0 e) as [Hwhole|Hfraction].
  - assert (e = 0) as -> by lia. change (2 ^ (- 0)) with 1 in Hvalue.
    change (2 ^ 0) with 1. rewrite Z.mul_1_r in *. rewrite Hvalue.
    rewrite (proj2 (Z.ltb_lt z (2 ^ 32 - 1))) by (change (2 ^ 32 - 1) with 4294967295; lia).
    done.
  - rewrite Z.land_ones by lia. rewrite Z.shiftr_div_pow2 by lia.
    rewrite Hvalue, Z.mod_mul, Z.div_mul by lia.
    rewrite (proj2 (Z.ltb_lt z (2 ^ 32 - 1))) by (change (2 ^ 32 - 1) with 4294967295; lia).
    done.
Qed.

(** The index that the floor of a non-negative double below a count [k]
    denotes is below [k]. *)
Lemma index_of_floor_below (x : float) (m : positive) (e E k : Z) :
  Prim2SF x = S754_finite false m e →
  E <= e → E <= 0 → Z.pos m * 2 ^ (e - E) < k * 2 ^ (- E) → k < 2 ^ 32 →
  ∃ j, JS.array_index (JS.Math_floor x) = Some j ∧ Z.of_nat j < k.
Proof.
  intros Hx HE HE0 Hbelow Hk. change (2 ^ 32) with 4294967296 in Hk.
  assert (0 < 2 ^ (- E)) as Hscale by (apply Z.pow_pos_nonneg; lia).
  unfold JS.Math_floor. rewrite Hx.
  destruct (Z.leb_spec 0 e) as [Hwhole|Hfraction].
  - (* a whole number already *)
    assert (Z.pos m * 2 ^ e < k) as Hvalue.
    { replace (e - E) with (e + - E) in Hbelow by lia.
      rewrite Z.pow_add_r, Z.mul_assoc in Hbelow by lia.
      apply (Z.mul_lt_mono_pos_r (2 ^ (- E))); [done|exact Hbelow]. }
    unfold JS.array_index. rewrite Hx.
    rewrite (proj2 (Z.leb_le 0 e)) by done.
    rewrite (proj2 (Z.ltb_lt _ (2 ^ 32 - 1)))
      by (change (2 ^ 32 - 1) with 4294967295; lia).
    eexists. split; [reflexivity|].
    assert (0 < 2 ^ e) by (apply Z.pow_pos_nonneg; lia).
    rewrite Z2Nat.id by lia. exact Hvalue.
  - assert (0 < 2 ^ (- e)) as Hpow by (apply Z.pow_pos_nonneg; lia).
    assert (Z.pos m < k * 2 ^ (- e)) as Hvalue.
    { assert (2 ^ (- E) = 2 ^ (- e) * 2 ^ (e - E)) as Hsplit
        by (rewrite <- Z.pow_add_r by lia; f_equal; lia).
      rewrite Hsplit, Z.mul_assoc in Hbelow.
      assert (0 < 2 ^ (e - E)) by (apply Z.pow_pos_nonneg; lia).
      apply (Z.mul_lt_mono_pos_r (2 ^ (e - E))); [done|exact Hbelow]. }
    unfold JS.floor_value.
    set (z := Z.shiftr (Z.pos m) (- e)).
    assert (0 <= z < k) as Hz.
    { unfold z. rewrite Z.shiftr_div_pow2 by lia. split.
      - apply Z.div_pos; lia.
      - apply Z.div_lt_upper_bound; lia. }
    destruct (Z.eqb_spec z 0) as [Hzero|Hpositive].
    + exists 0%nat. split; [reflexivity|]. simpl. lia.
    + exists (Z.to_nat z). split; [|rewrite Z2Nat.id by lia; lia].
      apply array_index_Number_of_Z. change (2 ^ 32 - 1) with 4294967295. lia.
Qed.

(** A value of [Math.random] times [i + 1], floored, is an index up to [i]. *)
Lemma random_index_le (r : float) (i : nat) :
  (0 <=? r)%float = true → (r <? 1)%float = true → Z.of_nat i + 1 < 2 ^ 32 →
  ∃ j, Gemini.random_index r i = Some j ∧ (j ≤ i)%nat.
Proof.
  intros Hlo Hhi Hi. unfold Gemini.random_index.
  destruct (Number_of_nat_spec (i + 1)) as (mn & en & Hn & Hmn & Hen & Hcount).
  { change (2 ^ 32) with 4294967296 in Hi. change (2 ^ 53) with 9007199254740992. lia. }
  set (x := (r * JS.Number_of_nat (i + 1))%float).
  assert (Prim2SF x = SF64mul (Prim2SF r) (S754_finite false mn en)) as Hx
    by (unfold x; rewrite FloatAxioms.mul_spec, Hn; done).
  destruct (unit_interval_cases r Hlo Hhi) as [[s Hr]|(m & e & Hr & Hm & He)];
    rewrite Hr in Hx.
  - (* a zero *)
    exists 0%nat. split; [|lia].
    unfold JS.Math_floor. rewrite Hx. cbn [SF64mul SFmul].
    unfold JS.array_index. rewrite Hx. done.
  - destruct (SF64mul_below m mn e en (Z.of_nat (i + 1)) Hm He Hmn Hen Hcount)
      as [Hzero|(m' & e' & Hfinite & He' & Hbelow)]; rewrite ?Hzero, ?Hfinite in Hx.
    + exists 0%nat. split; [|lia].
      unfold JS.Math_floor. rewrite Hx. unfold JS.array_index. rewrite Hx. done.
    + destruct (index_of_floor_below x m' e' (e + en) (Z.of_nat (i + 1)) Hx)
        as (j & Hj & Hle); [lia|lia|done|lia|].
      exists j. split; [done|lia].
Qed.

(** The index that the floor of a positive fraction denotes. *)
Lemma index_of_floor (x : float) (m : positive) (e z : Z) :
  Prim2SF x = S754_finite false m e → e < 0 →
  z * 2 ^ (- e) <= Z.pos m < (z + 1) * 2 ^ (- e) → z < 2 ^ 32 - 1 →
  JS.array_index (JS.Math_floor x) = Some (Z.to_nat z).
Proof.
  intros Hx He [Hlow Hhigh] Hz. change (2 ^ 32 - 1) with 4294967295 in Hz.
  assert (0 < 2 ^ (- e)) as Hpow by (apply Z.pow_pos_nonneg; lia).
  unfold JS.Math_floor. rewrite Hx.
  rewrite (proj2 (Z.leb_gt 0 e)) by done.
  unfold JS.floor_value. rewrite Z.shiftr_div_pow2 by lia.
  assert (Z.pos m / 2 ^ (- e) = z) as ->.
  { symmetry. apply (Z.div_unique _ _ _ (Z.pos m - z * 2 ^ (- e))); lia. }
  assert (0 <= z) as Hnonneg.
  { destruct (Z_lt_le_dec z 0) as [Hneg|]; [|done]. exfalso.
    assert ((z + 1) * 2 ^ (- e) <= 0 * 2 ^ (- e)) by (apply Z.mul_le_mono_nonneg_r; lia).
    lia. }
  destruct (Z.eqb_spec z 0) as [->|Hpositive]; [reflexivity|].
  apply array_index_Number_of_Z. change (2 ^ 32 - 1) with 4294967295. lia.
Qed.

(** The draw that picks [t] out of [0 .. k - 1]: the double nearest to
    [(2 t + 1) / (2 k)], the middle of the [t]-th of [k] equal parts of the
    unit interval. It is a value [Math.random] may return, and its product
    with [k], rounded, floors to [t]. *)
Lemma draw_picks (t k : nat) :
  (t < k)%nat → Z.of_nat k < 2 ^ 32 →
  let r := draw_for t k in
  (0 <=? r)%float = true ∧ (r <? 1)%float = true
  ∧ JS.array_index (JS.Math_floor (r * JS.Number_of_nat k)%float) = Some t.
Proof.
  intros Ht Hk r. unfold draw_for in r. change (2 ^ 32) with 4294967296 in Hk.
  set (a := (2 * t + 1)%nat) in *. set (b := (2 * k)%nat) in *.
  destruct (Number_of_nat_spec a) as (m1 & e1 & Ha & Hm1 & He1 & Hm1a);
    [unfold a; change (2 ^ 53) with 9007199254740992; lia|].
  destruct (Number_of_nat_spec b) as (m2 & e2 & Hb & Hm2 & He2 & Hm2b);
    [unfold b; change (2 ^ 53) with 9007199254740992; lia|].
  destruct (Number_of_nat_spec k) as (mk & ek & Hnk & Hmk & Hek & Hmkk);
    [change (2 ^ 53) with 9007199254740992; lia|].
  destruct (SF64div_spec m1 m2 e1 e2 Hm1 Hm2 ltac:(lia)) as (my & j & Hdiv & Hmy & Hj & Hy).
  set (ey := e1 - e2 - 53 + j) in *.
  set (A := 2 ^ (j - e2)). set (B := 2 ^ (53 - e1)). set (C := 2 ^ (- ek)) in *.
  assert (0 < A) as HA by (apply Z.pow_pos_nonneg; lia).
  assert (0 < B) as HB by (apply Z.pow_pos_nonneg; lia).
  assert (0 < C) as HC by (apply Z.pow_pos_nonneg; lia).
  assert (2 ^ j * Z.pos m2 = Z.of_nat b * A) as HbA.
  { rewrite Hm2b. unfold A. replace (j - e2) with (j + - e2) by lia.
    rewrite Z.pow_add_r by lia. ring. }
  assert (Z.pos m1 * 2 ^ 53 = Z.of_nat a * B) as HaB.
  { rewrite Hm1a. unfold B. replace (53 - e1) with (- e1 + 53) by lia.
    rewrite Z.pow_add_r by lia. ring. }
  rewrite HbA, HaB in Hy.
  change (2 ^ 52) with 4503599627370496 in *. change (2 ^ 53) with 9007199254740992 in *.
  assert (Z.of_nat a = 2 * Z.of_nat t + 1) as Hat by (unfold a; lia).
  assert (Z.of_nat b = 2 * Z.of_nat k) as Hbk by (unfold b; lia).
  assert (0 < Z.of_nat b * A) as HbApos by (apply Z.mul_pos_pos; lia).
  (* the quotient is below 1 *)
  assert (ey <= -53) as Hey.
  { destruct (Z_le_gt_dec ey (-53)) as [|Hgt]; [done|]. exfalso.
    assert (B <= 4503599627370496 * A) as HBA.
    { unfold A, B. change 4503599627370496 with (2 ^ 52).
      rewrite <- Z.pow_add_r by lia. apply Z.pow_le_mono_r; unfold ey in Hgt; lia. }
    assert (4503599627370496 * (Z.of_nat b * A) <= Z.pos my * (Z.of_nat b * A)) as H1
      by (apply Z.mul_le_mono_nonneg_r; lia).
    assert (Z.of_nat a * B <= Z.of_nat a * (4503599627370496 * A)) as H2
      by (apply Z.mul_le_mono_nonneg_l; lia).
    assert (Z.of_nat a * (4503599627370496 * A) + 4503599627370496 * A
            <= Z.of_nat b * (4503599627370496 * A)) as H3.
    { replace (Z.of_nat a * (4503599627370496 * A) + 4503599627370496 * A)
        with ((Z.of_nat a + 1) * (4503599627370496 * A)) by ring.
      apply Z.mul_le_mono_nonneg_r; lia. }
    assert (Z.of_nat b * A < 4294967296 * 2 * A) as H4
      by (apply Z.mul_lt_mono_pos_r; lia).
    lia. }
  assert (B = 2 ^ (- ey) * A) as HBA.
  { unfold A, B. rewrite <- Z.pow_add_r by lia. f_equal. unfold ey. lia. }
  assert (9007199254740992 * A <= B) as HBbig.
  { rewrite HBA. apply Z.mul_le_mono_nonneg_r; [lia|].
    change 9007199254740992 with (2 ^ 53). apply Z.pow_le_mono_r; lia. }
  assert (Prim2SF r = S754_finite false my ey) as Hr
    by (unfold r; rewrite FloatAxioms.div_spec, Ha, Hb; exact Hdiv).
  split; [rewrite FloatAxioms.leb_spec, Hr; reflexivity|].
  split.
  { rewrite FloatAxioms.ltb_spec, Hr.
    change (Prim2SF 1) with (S754_finite false 4503599627370496 (-52)).
    apply SFltb_finite. left. lia. }
  (* the product *)
  destruct (SF64mul_spec my mk ey ek) as (mx & j' & Hmul & Hmx & Hj' & Hx);
    [done|done|lia|].
  set (ex := ey + ek + j') in *. set (J := 2 ^ j') in *.
  change (2 ^ 52) with 4503599627370496 in *. change (2 ^ 53) with 9007199254740992 in *.
  assert (0 < J) as HJ by (apply Z.pow_pos_nonneg; lia).
  assert (J <= 18014398509481984) as HJmax.
  { unfold J. change 18014398509481984 with (2 ^ 54). apply Z.pow_le_mono_r; lia. }
  assert (Z.pos mk = Z.of_nat k * C) as HkC by exact Hmkk.
  assert (1048576 < C) as HCbig.
  { destruct (Z_lt_le_dec 1048576 C) as [|Hsmall]; [done|]. exfalso.
    assert (Z.of_nat k * C <= Z.of_nat k * 1048576) by (apply Z.mul_le_mono_nonneg_l; lia).
    lia. }
  assert (ex < 0) as Hex.
  { destruct (Z_lt_le_dec ex 0) as [|Hge]; [done|]. exfalso.
    assert (9007199254740992 * C <= J) as HJC.
    { unfold J, C. change 9007199254740992 with (2 ^ 53).
      rewrite <- Z.pow_add_r by lia. apply Z.pow_le_mono_r; unfold ex in Hge; lia. }
    assert (4503599627370496 * J <= Z.pos mx * J) as H1
      by (apply Z.mul_le_mono_nonneg_r; lia).
    assert (Z.pos my * Z.pos mk < 9007199254740992 * Z.pos mk) as H2
      by (apply Z.mul_lt_mono_pos_r; lia).
    assert (Z.of_nat k * C < 4294967296 * C) as H3 by (apply Z.mul_lt_mono_pos_r; lia).
    lia. }
  set (G := 2 ^ (- ex)).
  assert (0 < G) as HG by (apply Z.pow_pos_nonneg; lia).
  assert (G * A * J = B * C) as Hrel.
  { unfold G, A, J, B, C. rewrite <- !Z.pow_add_r by lia. f_equal. unfold ex, ey. lia. }
  rewrite HkC in Hx.
  (* the two roundings together, on the scale [b * A * J] *)
  set (bA := Z.of_nat b * A) in *. set (kC := Z.of_nat k * C) in *.
  set (aB := Z.of_nat a * B) in *.
  assert (0 < kC) as HkCpos by (apply Z.mul_pos_pos; lia).
  assert (2 * (Z.pos mx * J) * (2 * bA) <= (2 * (Z.pos my * kC) + J) * (2 * bA)) as Hup1
    by (apply Z.mul_le_mono_nonneg_r; lia).
  assert ((2 * (Z.pos my * kC) - J) * (2 * bA) <= 2 * (Z.pos mx * J) * (2 * bA)) as Hlow1
    by (apply Z.mul_le_mono_nonneg_r; lia).
  assert (2 * (Z.pos my * bA) * (2 * kC) <= (2 * aB + bA) * (2 * kC)) as Hup2
    by (apply Z.mul_le_mono_nonneg_r; lia).
  assert ((2 * aB - bA) * (2 * kC) <= 2 * (Z.pos my * bA) * (2 * kC)) as Hlow2
    by (apply Z.mul_le_mono_nonneg_r; lia).
  assert (bA * (kC + J) < 2 * (Z.of_nat k * (B * C))) as Hmargin.
  { assert (kC + J < 36028797018963968) by lia.
    assert (A * (kC + J) <= A * 36028797018963968) as H1
      by (apply Z.mul_le_mono_nonneg_l; lia).
    assert (9007199254740992 * A * 1048576 < B * C) as H2.
    { assert (9007199254740992 * A * 1048576 < 9007199254740992 * A * C)
        by (apply Z.mul_lt_mono_pos_l; lia).
      assert (9007199254740992 * A * C <= B * C) by (apply Z.mul_le_mono_nonneg_r; lia).
      lia. }
    assert (A * (kC + J) < B * C) as H3 by lia.
    unfold bA. rewrite Hbk.
    replace (2 * Z.of_nat k * A * (kC + J)) with (2 * Z.of_nat k * (A * (kC + J))) by ring.
    replace (2 * (Z.of_nat k * (B * C))) with (2 * Z.of_nat k * (B * C)) by ring.
    apply Z.mul_lt_mono_pos_l; lia. }
  assert (aB * kC = (2 * Z.of_nat t + 1) * (Z.of_nat k * (B * C))) as Hmain
    by (unfold aB, kC; rewrite Hat; ring).
  set (W := Z.of_nat k * (B * C)) in *.
  assert (0 < W) as HW by (apply Z.mul_pos_pos; [lia|apply Z.mul_pos_pos; lia]).
  assert (2 * Z.of_nat t * W <= Z.pos mx * J * bA < (2 * Z.of_nat t + 2) * W) as Hbounds.
  { assert (bA * (kC + J) = bA * kC + J * bA) as Hsplit by ring.
    assert (aB * kC = 2 * Z.of_nat t * W + W) as Hmain' by (rewrite Hmain; ring).
    assert ((2 * (Z.pos my * kC) + J) * (2 * bA)
            = 2 * (Z.pos my * bA) * (2 * kC) + 2 * (J * bA)) as E1 by ring.
    assert ((2 * (Z.pos my * kC) - J) * (2 * bA)
            = 2 * (Z.pos my * bA) * (2 * kC) - 2 * (J * bA)) as E2 by ring.
    assert ((2 * aB + bA) * (2 * kC) = 4 * (aB * kC) + 2 * (bA * kC)) as E3 by ring.
    assert ((2 * aB - bA) * (2 * kC) = 4 * (aB * kC) - 2 * (bA * kC)) as E4 by ring.
    assert (2 * (Z.pos mx * J) * (2 * bA) = 4 * (Z.pos mx * J * bA)) as E5 by ring.
    lia. }
  (* without the scale *)
  assert (Z.of_nat t * G <= Z.pos mx < (Z.of_nat t + 1) * G) as Hfloor.
  { assert (0 < J * bA) as Hscale by (apply Z.mul_pos_pos; lia).
    assert (∀ u, u * G * (J * bA) = 2 * u * W) as Hscaled.
    { intros u. unfold W, bA. rewrite Hbk.
      replace (u * G * (J * (2 * Z.of_nat k * A)))
        with (2 * u * (Z.of_nat k * (G * A * J))) by ring.
      rewrite Hrel. ring. }
    assert (Z.pos mx * (J * bA) = Z.pos mx * J * bA) as Hmx' by ring.
    split.
    - apply (Z.mul_le_mono_pos_r _ _ (J * bA)); [exact Hscale|].
      rewrite Hscaled, Hmx'. lia.
    - apply (Z.mul_lt_mono_pos_r (J * bA)); [exact Hscale|].
      rewrite Hscaled, Hmx'. lia. }
  rewrite <- (Nat2Z.id t). apply (index_of_floor _ mx ex).
  - rewrite FloatAxioms.mul_spec, Hr, Hnk. exact Hmul.
  - done.
  - done.
  - change (2 ^ 32 - 1) with 4294967295. lia.
Qed.

End random_indices.

(** ** The question service: shuffling *)

Section shuffle.
Context {T : Type}.
Implicit Types (shuffled array : list T) (random : nat → float) (i j calls : nat).

Lemma swap_permutation i j shuffled :
  j ≤ i → i < length shuffled → Gemini.swap i j shuffled ≡ₚ shuffled.
Proof.
  intros Hj Hi. unfold Gemini.swap.
  destruct (lookup_lt_is_Some_2 shuffled j) as [at_j Hat_j]; [lia|].
  destruct (lookup_lt_is_Some_2 shuffled i) as [at_i Hat_i]; [lia|].
  rewrite Hat_j, Hat_i. by apply Permutation_insert_swap.
Qed.

(** One round of the loop, under the contract of [Math.random]: a swap
    with a position up to [i]. *)
Lemma shuffle_round random i shuffled calls :
  unit_interval random → array_sized shuffled → S i < length shuffled →
  ∃ j, j ≤ S i
    ∧ Gemini.shuffle_loop random (S i) shuffled calls
      = Gemini.shuffle_loop random i (Gemini.swap (S i) j shuffled) (S calls).
Proof.
  intros Hrandom Hsized Hi. destruct (Hrandom calls) as [Hlo Hhi].
  destruct (random_index_le (random calls) (S i) Hlo Hhi) as (j & Hj & Hle).
  { unfold array_sized in Hsized. lia. }
  exists j. split; [done|]. cbn [Gemini.shuffle_loop]. by rewrite Hj.
Qed.

Lemma shuffle_loop_permutation random i shuffled calls :
  unit_interval random → array_sized shuffled → i < length shuffled ∨ i = 0 →
  (Gemini.shuffle_loop random i shuffled calls).1 ≡ₚ shuffled.
Proof.
  intros Hrandom. revert shuffled calls.
  induction i as [|i IH]; intros shuffled calls Hsized Hi; [done|].
  destruct Hi as [Hi|]; [|done].
  destruct (shuffle_round random i shuffled calls Hrandom Hsized Hi) as (j & Hj & ->).
  assert (Gemini.swap (S i) j shuffled ≡ₚ shuffled) as Hswap
    by (by apply swap_permutation).
  rewrite IH; [done| |].
  - unfold array_sized. by rewrite Hswap.
  - left. rewrite Hswap. lia.
Qed.

Lemma shuffleArray_permutation random (array : option (list T)) calls :
  unit_interval random → array_sized (default [] array) →
  (Gemini.shuffleArray random array calls).1 ≡ₚ default [] array.
Proof.
  intros Hrandom Hsized. destruct array as [array|]; simpl; [|done].
  apply shuffle_loop_permutation; [done|done|].
  destruct array; simpl; [by right|left; lia].
Qed.

(** The loop draws one random number per round. *)
Lemma shuffle_loop_calls random i shuffled calls :
  (Gemini.shuffle_loop random i shuffled calls).2 = calls + i.
Proof.
  revert shuffled calls. induction i as [|i IH]; intros shuffled calls; simpl; [lia|].
  destruct (Gemini.random_index (random calls) (S i)); rewrite IH; lia.
Qed.

(** It reads the stream at the positions of its own draws only. *)
Lemma shuffle_loop_ext random random' i shuffled calls :
  (∀ n, calls ≤ n < calls + i → random n = random' n) →
  Gemini.shuffle_loop random i shuffled calls
  = Gemini.shuffle_loop random' i shuffled calls.
Proof.
  revert shuffled calls. induction i as [|i IH]; intros shuffled calls Hsame; simpl; [done|].
  rewrite (Hsame calls) by lia.
  destruct (Gemini.random_index (random' calls) (S i)) as [j|]; apply IH; intros n Hn;
    apply Hsame; lia.
Qed.

Lemma shuffleArray_calls random (array : option (list T)) calls :
  (Gemini.shuffleArray random array calls).2 = calls + (length (default [] array) - 1).
Proof.
  destruct array as [array|]; simpl; [|lia]. apply shuffle_loop_calls.
Qed.

Lemma shuffleArray_ext random random' (array : option (list T)) calls :
  (∀ n, calls ≤ n < calls + (length (default [] array) - 1) → random n = random' n) →
  Gemini.shuffleArray random array calls = Gemini.shuffleArray random' array calls.
Proof.
  destruct array as [array|]; simpl; [|done]. apply shuffle_loop_ext.
Qed.

End shuffle.

Section process.
Implicit Types (random : nat → float) (questions : list JSON) (q : JSON)
  (processed : list Gemini.Processed) (p : Gemini.Processed) (calls k : nat).

Lemma same_value_zero_spec (x y : JSON) :
  Gemini.same_value_zero x y = true ↔ same_value x y.
Proof.
  split.
  - destruct x, y; simpl; try done.
    + intros _. constructor.
    + intros ->%Bool.eqb_prop. constructor.
    + intros [?|[? ?]%andb_prop]%orb_prop; constructor; [by left|by right].
    + intros ->%bool_decide_eq_true. constructor.
  - intros [|b|x' y' [Hequal|[Hx Hy]]|s']; simpl.
    + done.
    + by destruct b.
    + by rewrite Hequal.
    + rewrite Hx, Hy. apply orb_true_r.
    + by apply bool_decide_eq_true.
Qed.

(** [includes] finds an item that is the same as the value searched. *)
Lemma includes_spec (items : list JSON) (searchElement : option JSON) :
  Gemini.includes items searchElement = true
  ↔ ∃ value item, searchElement = Some value ∧ item ∈ items ∧ same_value value item.
Proof.
  unfold Gemini.includes. destruct searchElement as [value|].
  - rewrite existsb_exists. split.
    + intros (item & Hin & Hsame). exists value, item.
      split_and!; [done|by apply list_elem_of_In|by apply same_value_zero_spec].
    + intros (value' & item & [= <-] & Hin & Hsame). exists item.
      split; [by apply list_elem_of_In|by apply same_value_zero_spec].
  - split; [done|]. by intros (? & ? & ? & _).
Qed.

Lemma valid_spec p :
  Gemini.valid p = true ↔ length (Gemini.shuffled_options p) = 4 ∧ holds_answer p.
Proof.
  unfold Gemini.valid, holds_answer.
  rewrite andb_true_iff, bool_decide_eq_true, includes_spec.
  split; intros [Hlength (answer & option & Hanswer & Hin & Hsame)];
    (split; [done|]); by exists answer, option.
Qed.

(** The filter reads the options as a multiset only. *)
Lemma valid_reordered p p' : reordered p p' → Gemini.valid p = Gemini.valid p'.
Proof.
  intros [Helement Hperm]. apply eq_true_iff_eq. rewrite !valid_spec.
  unfold holds_answer. rewrite Helement.
  rewrite (Permutation_length Hperm). by setoid_rewrite Hperm.
Qed.

(** The callback throws on [null] and where the options cannot be spread. *)
Lemma element_throws_spread q :
  element_throws q ↔ q = JNull ∨ Gemini.spread (Gemini.member "options" q) = None.
Proof.
  unfold element_throws, Gemini.spread. apply or_iff_compat_l.
  destruct (Gemini.member "options" q) as [value|].
  - destruct (Gemini.truthy value) eqn:Htruthy; simpl.
    + destruct value as [|b|x|s|items|members]; [done|..].
      * split; [done|]. intros _. by exists (JBool b).
      * split; [done|]. intros _. by exists (JNumber x).
      * split; [|done]. intros (value & [= <-] & _ & _ & Hstring).
        by destruct (Hstring s).
      * split; [|done]. intros (value & [= <-] & _ & Harray & _).
        by destruct (Harray items).
      * split; [done|]. intros _. by exists (JObject members).
    + split; [|done]. intros (value' & [= <-] & Hfalse & _). congruence.
  - split; [|done]. by intros (? & ? & _).
Qed.

(** The mapping throws exactly when its callback throws on an element. *)
Lemma processQuestions_throws_iff random questions calls :
  Gemini.processQuestions random questions calls = None ↔ Exists element_throws questions.
Proof.
  revert calls. induction questions as [|q questions IH]; intros calls.
  - split; [done|]. by intros ?%Exists_nil.
  - rewrite Exists_cons.
    assert (q ≠ JNull →
            Gemini.processQuestions random (q :: questions) calls
            = array ← Gemini.spread (Gemini.member "options" q);
              let '(shuffled, calls') := Gemini.shuffleArray random array calls in
              processed ← Gemini.processQuestions random questions calls';
              Some ({| Gemini.element := q; Gemini.shuffled_options := shuffled |}
                    :: processed)) as Hstep by (by destruct q).
    assert (q = JNull ∨ q ≠ JNull) as [->|Hq] by (destruct q; [by left|by right..]).
    { split; [intros _; left; by left|done]. }
    rewrite (Hstep Hq).
    assert (Gemini.spread (Gemini.member "options" q) = None ↔ element_throws q)
      as Hthrows.
    { rewrite element_throws_spread. split; [by right|]. by intros [?|?]. }
    destruct (Gemini.spread (Gemini.member "options" q)) as [array|] eqn:Hspread; simpl.
    + destruct (Gemini.shuffleArray random array calls) as [shuffled calls'].
      specialize (IH calls').
      destruct (Gemini.processQuestions random questions calls') as [processed|]; simpl.
      * split; [done|]. intros [Hthis|Hrest]; [by apply Hthrows in Hthis|by apply IH in Hrest].
      * split; [|done]. intros _. right. by apply IH.
    + split; [|done]. intros _. left. by apply Hthrows.
Qed.

(** The [k]-th element is shuffled with the draws that follow those of the
    elements before it. *)
Lemma processQuestions_lookup random questions calls processed k q :
  Gemini.processQuestions random questions calls = Some processed →
  questions !! k = Some q →
  ∃ p, processed !! k = Some p
    ∧ reordered_by random (calls + sum_list_with draws (take k questions)) q p.
Proof.
  revert calls processed k.
  induction questions as [|q' questions IH]; intros calls processed k Hprocessed Hq; [done|].
  assert (q' ≠ JNull) as Hq' by (by intros ->).
  assert (Gemini.processQuestions random (q' :: questions) calls
          = array ← Gemini.spread (Gemini.member "options" q');
            let '(shuffled, calls') := Gemini.shuffleArray random array calls in
            rest ← Gemini.processQuestions random questions calls';
            Some ({| Gemini.element := q'; Gemini.shuffled_options := shuffled |} :: rest))
    as Hstep by (by destruct q').
  rewrite Hstep in Hprocessed. clear Hstep.
  destruct (Gemini.spread (Gemini.member "options" q')) as [array|] eqn:Hspread;
    [|done]. simpl in Hprocessed.
  pose proof (shuffleArray_calls random array calls) as Hcalls.
  destruct (Gemini.shuffleArray random array calls) as [shuffled calls'] eqn:Hshuffle.
  simpl in Hcalls.
  destruct (Gemini.processQuestions random questions calls') as [rest|] eqn:Hrest;
    [|done]. injection Hprocessed as <-.
  assert (draws q' = length (default [] array) - 1) as Hdraws.
  { unfold draws, spread_options. rewrite Hspread. by destruct array. }
  destruct k as [|k]; simpl in Hq.
  - injection Hq as <-. eexists. split; [reflexivity|].
    exists array. split; [done|]. simpl. by rewrite Nat.add_0_r, Hshuffle.
  - destruct (IH calls' rest k Hrest Hq) as (p & Hp & Hby).
    exists p. split; [exact Hp|]. simpl.
    replace (calls + (draws q' + sum_list_with draws (take k questions)))
      with (calls' + sum_list_with draws (take k questions)); [done|].
    rewrite Hdraws. lia.
Qed.

(** It returns when the callback throws on no element. *)
Lemma processQuestions_returns random questions calls :
  ¬ Exists element_throws questions →
  ∃ processed, Gemini.processQuestions random questions calls = Some processed.
Proof.
  intros Hthrows.
  destruct (Gemini.processQuestions random questions calls) as [processed|] eqn:Hprocessed;
    [by exists processed|].
  by apply processQuestions_throws_iff in Hprocessed.
Qed.

Lemma processQuestions_length random questions calls processed :
  Gemini.processQuestions random questions calls = Some processed →
  length processed = length questions.
Proof.
  revert calls processed. induction questions as [|q questions IH];
    intros calls processed Hprocessed; [by injection Hprocessed as <-|].
  assert (Gemini.processQuestions random (q :: questions) calls
          = match q with
            | JNull => None
            | _ =>
                array ← Gemini.spread (Gemini.member "options" q);
                let '(shuffled, calls') := Gemini.shuffleArray random array calls in
                rest ← Gemini.processQuestions random questions calls';
                Some ({| Gemini.element := q; Gemini.shuffled_options := shuffled |}
                      :: rest)
            end) as Hstep by done.
  rewrite Hstep in Hprocessed. clear Hstep.
  assert (∃ calls' rest p,
            Gemini.processQuestions random questions calls' = Some rest
            ∧ processed = p :: rest) as (calls' & rest & p & Hrest & ->).
  { destruct q; [done|..];
      (destruct (Gemini.spread _) as [array|]; [|done]; simpl in Hprocessed;
       destruct (Gemini.shuffleArray random array calls) as [shuffled calls'];
       destruct (Gemini.processQuestions random questions calls') as [rest|] eqn:Hrest;
       [|done]; injection Hprocessed as <-; by eexists _, _, _). }
  simpl. f_equal. by apply (IH calls').
Qed.

(** Every processed element is a parsed element with its own options
    reordered, in the same position. *)
Lemma processQuestions_reordered random questions calls processed :
  unit_interval random →
  Forall (λ q, array_sized (spread_options q)) questions →
  Gemini.processQuestions random questions calls = Some processed →
  Forall2 reordered processed (unshuffled <$> questions).
Proof.
  intros Hrandom Hsized Hprocessed.
  apply Forall2_same_length_lookup_2.
  { rewrite length_fmap. by apply (processQuestions_length random questions calls). }
  intros k p u Hp Hu.
  apply list_lookup_fmap_Some in Hu as (q & -> & Hq).
  destruct (processQuestions_lookup random questions calls processed k q Hprocessed Hq)
    as (p' & Hp' & array & Hspread & ->).
  rewrite Hp in Hp'. injection Hp' as ->.
  split; [done|]. simpl.
  assert (spread_options q = default [] array) as Hoptions.
  { unfold spread_options. rewrite Hspread. by destruct array. }
  rewrite Hoptions. apply shuffleArray_permutation; [done|].
  rewrite <- Hoptions. by apply (Forall_lookup_1 _ _ _ _ Hsized Hq).
Qed.

Lemma Forall2_filter_reordered (shuffled plain : list Gemini.Processed) :
  Forall2 reordered shuffled plain →
  Forall2 reordered (filter (λ p, Gemini.valid p = true) shuffled)
                    (filter (λ p, Gemini.valid p = true) plain).
Proof.
  induction 1 as [|p u shuffled plain Hpu _ IH]; [constructor|].
  rewrite !filter_cons. rewrite (valid_reordered p u Hpu).
  destruct (decide (Gemini.valid u = true)); [by constructor|done].
Qed.

End process.

(** C10. Under the contract of [Math.random], [shuffleArray] returns a
    permutation of its input (an array, so of fewer than 2^32 elements):
    same length, same elements with the same multiplicities; and on parsed
    elements that the mapping does not throw on, the shuffled options hold
    the correct answer exactly when the original ones did, a processed
    element passes the filter exactly when the parsed one would, and the
    elements that survive the filter are the parsed elements that would,
    each with its options reordered. The index of each swap is the one the
    program computes, in doubles. *)
Theorem C10_shuffle_is_permutation (random : nat → float) :
  unit_interval random →
  (∀ (T : Type) (array : list T) (calls : nat),
     array_sized array →
     let shuffled := (Gemini.shuffleArray random (Some array) calls).1 in
     shuffled ≡ₚ array
     ∧ length shuffled = length array
     ∧ ∀ x, x ∈ shuffled ↔ x ∈ array)
  ∧ (∀ (questions : list JSON) (calls : nat),
       Forall (λ q, array_sized (spread_options q)) questions →
       ¬ Exists element_throws questions →
       ∃ processed,
         Gemini.processQuestions random questions calls = Some processed
         ∧ Forall2 (λ p u, reordered p u
                           ∧ (holds_answer p ↔ holds_answer u)
                           ∧ Gemini.valid p = Gemini.valid u)
             processed (unshuffled <$> questions)
         ∧ Forall2 reordered
             (filter (λ p, Gemini.valid p = true) processed)
             (filter (λ p, Gemini.valid p = true) (unshuffled <$> questions))).
Proof.
  intros Hrandom. split.
  - intros T array calls Hsized shuffled.
    assert (shuffled ≡ₚ array) as Hperm
      by apply (shuffleArray_permutation random (Some array) calls Hrandom Hsized).
    split_and!; [done|by rewrite Hperm|]. intros x. by rewrite Hperm.
  - intros questions calls Hsized Hthrows.
    destruct (processQuestions_returns random questions calls Hthrows)
      as [processed Hprocessed].
    pose proof (processQuestions_reordered random questions calls processed
                  Hrandom Hsized Hprocessed) as Hall.
    exists processed. split; [done|]. split.
    + eapply Forall2_impl; [exact Hall|]. intros p u Hpu. split_and!; [done| |].
      * destruct Hpu as [Helement Hperm]. unfold holds_answer. rewrite Helement.
        by setoid_rewrite Hperm.
      * by apply valid_reordered.
    + by apply Forall2_filter_reordered.
Qed.

(** ** The question service: the call *)

Section service.
Implicit Types (env : Gemini.Environment) (language : Language)
  (questions : list JSON) (processed : list Gemini.Processed).

Lemma string_truthy_nonempty (s : string) : s ≠ "" → JS.string_truthy s = true.
Proof. by destruct s. Qed.

(** The strings among the items, when all items are strings. *)
Lemma mapM_as_string_elem (items : list JSON) (strings : list string) (s : string) :
  mapM Gemini.as_string items = Some strings → JString s ∈ items → s ∈ strings.
Proof.
  intros Hall Hin. apply mapM_Some in Hall.
  apply list_elem_of_lookup in Hin as [i Hi].
  destruct (Forall2_lookup_l _ _ _ _ _ Hall Hi) as (s' & Hs' & [= <-]).
  by apply list_elem_of_lookup_2 in Hs'.
Qed.

(** A returned object that is a [Question] is a well-formed one. *)
Lemma as_Question_well_formed (p : Gemini.Processed) (q : Question) :
  Gemini.valid p = true → Gemini.as_Question p = Some q → well_formed q.
Proof.
  intros [Hlength (answer & option & Hanswer & Hin & Hsame)]%valid_spec.
  unfold Gemini.as_Question. rewrite Hanswer. intros Hq.
  destruct (Gemini.member "questionText" (Gemini.element p) ≫= Gemini.as_string)
    as [questionText|]; [|done]. simpl in Hq.
  destruct (mapM Gemini.as_string (Gemini.shuffled_options p)) as [options|] eqn:Hoptions;
    [|done]. simpl in Hq.
  destruct (Gemini.as_string answer) as [correctAnswer|] eqn:Hcorrect; [|done].
  simpl in Hq.
  destruct (Gemini.member "level" (Gemini.element p) ≫= Gemini.as_level) as [level|];
    [|done]. simpl in Hq.
  destruct (match Gemini.member "contextSentence" (Gemini.element p) with
            | Some (JString s) => Some (Some s)
            | Some _ => None
            | None => Some None
            end) as [contextSentence|]; [|done]. simpl in Hq.
  injection Hq as <-. unfold well_formed. simpl. split.
  - apply mapM_Some, Forall2_length in Hoptions. lia.
  - destruct answer; try done. injection Hcorrect as ->.
    inversion Hsame; subst. by apply (mapM_as_string_elem _ _ _ Hoptions).
Qed.


(** C6, as amended. Without a credential the call fails before any network
    call, with a message of its own; with a credential, an erroring provider
    call and an empty response both fail with one and the same user-facing
    message (after the one network call, and logged). *)
Theorem C6_failures env language :
  (credential_missing env →
   Gemini.generateQuizQuestions env language
   = (Gemini.Rejected "API_KEY environment variable not set.", []))
  ∧ (¬ credential_missing env →
     provider_call_errors env language ∨ response_empty env language →
     Gemini.generateQuizQuestions env language
     = (Gemini.Rejected
          "Failed to communicate with the AI model. Please check your API key and try again.",
        [Gemini.GenerateContent language; Gemini.ConsoleError])).
Proof.
  unfold credential_missing, provider_call_errors, response_empty.
  unfold Gemini.generateQuizQuestions, Gemini.try_block. split.
  - intros [->| ->]; reflexivity.
  - intros Hkey Hfail. destruct (Gemini.API_KEY env) as [key|]; [|by destruct Hkey; left].
    rewrite string_truthy_nonempty by (intros ->; apply Hkey; by right).
    destruct Hfail as [->|(text & -> & Hempty)]; [reflexivity|].
    simpl. rewrite Hempty. reflexivity.
Qed.

End service.

(** ** The quiz runner *)

Section runner.
Implicit Types (props : Quiz.Props) (st : Quiz.State) (answer : string).

(** The lock holds for every non-empty selected option. *)
Lemma handleAnswerSelect_locked props st answer (selected : string) :
  Quiz.selectedOption st = Some selected → selected ≠ "" →
  Quiz.handleAnswerSelect props answer st = Some (st, []).
Proof.
  intros Hselected Hnonempty. unfold Quiz.handleAnswerSelect.
  rewrite Hselected. simpl. by rewrite string_truthy_nonempty.
Qed.

(** C7, on the code. After the empty-string option of the first question
    has been selected, a second selection before the timer fires is not
    ignored: it appends a second answer for the same question, plays a cue
    and arms a second timer; when both timers have run the quiz has moved
    two questions ahead, past its last question. *)
Theorem C7_empty_option_is_not_locked :
  ∃ st1 st2,
    Quiz.handleAnswerSelect blank_option_quiz "" Quiz.initial
    = Some (st1, [Quiz.IncorrectSound;
                  Quiz.SetTimeout
                    (Quiz.AdvanceOrFinish 0 [{| questionIndex := 0; answer := "" |}]) 800])
    ∧ Quiz.selectedOption st1 = Some ""
    ∧ Quiz.handleAnswerSelect blank_option_quiz "a" st1
      = Some (st2, [Quiz.CorrectSound;
                    Quiz.SetTimeout
                      (Quiz.AdvanceOrFinish 0 [{| questionIndex := 0; answer := "" |};
                                               {| questionIndex := 0; answer := "a" |}]) 800])
    ∧ Quiz.userAnswers st2 = [{| questionIndex := 0; answer := "" |};
                              {| questionIndex := 0; answer := "a" |}]
    ∧ st2 ≠ st1
    ∧ Quiz.currentQuestionIndex
        (Quiz.run_callback blank_option_quiz
           (Quiz.AdvanceOrFinish 0 [{| questionIndex := 0; answer := "" |};
                                    {| questionIndex := 0; answer := "a" |}])
           (Quiz.run_callback blank_option_quiz
              (Quiz.AdvanceOrFinish 0 [{| questionIndex := 0; answer := "" |}]) st2).1).1
      = 2.
Proof.
  eexists _, _. split_and!; try reflexivity. intros [=].
Qed.

(** C8. With no option selected yet, selecting an answer plays the correct
    cue exactly when the answer is the correct answer of the current
    question and the incorrect cue otherwise, appends one entry (current
    index, chosen answer) to the answers, locks the option and arms one
    timer of 800 ms; when that timer runs, the quiz moves to the next
    question and unlocks, or, on the last question, hands the whole answer
    list to the finish callback. *)
Theorem C8_answer_select props st answer (currentQuestion : Question) :
  Quiz.selectedOption st = None →
  Quiz.questions props !! Quiz.currentQuestionIndex st = Some currentQuestion →
  Quiz.audioContextRef st = true → Quiz.gainNodeRef st = true →
  let index := Quiz.currentQuestionIndex st in
  let newAnswers := Quiz.userAnswers st ++ [{| questionIndex := index; answer := answer |}] in
  let cue := if decide (answer = correctAnswer currentQuestion)
             then Quiz.CorrectSound else Quiz.IncorrectSound in
  let timer := Quiz.AdvanceOrFinish index newAnswers in
  ∃ st',
    Quiz.handleAnswerSelect props answer st
    = Some (st', Quiz.stop_source st ++ [cue; Quiz.SetTimeout timer 800])
    ∧ progress st' = (newAnswers, index, Some answer)
    ∧ if decide (index + 1 < length (Quiz.questions props))
      then ∃ st'',
             Quiz.run_callback props timer st'
             = (st'', Quiz.stop_source st' ++ [Quiz.SetTimeout Quiz.EndAnimation 300])
             ∧ progress st'' = (newAnswers, index + 1, None)
      else Quiz.run_callback props timer st' = (st', [Quiz.OnFinish newAnswers]).
Proof.
  intros Hselected Hquestion Hcontext Hgain index newAnswers cue timer.
  unfold Quiz.handleAnswerSelect, Quiz.play_sound.
  rewrite Hselected, Hquestion, Hcontext, Hgain. simpl.
  eexists. split_and!.
  - unfold cue. case_bool_decide; [rewrite decide_True by done|rewrite decide_False by done];
      reflexivity.
  - reflexivity.
  - fold index. destruct (decide (index + 1 < length (Quiz.questions props))) as [Hnext|Hlast].
    + rewrite (proj2 (Z.ltb_lt _ _)) by lia. eexists. split; reflexivity.
    + rewrite (proj2 (Z.ltb_ge _ _)) by lia. reflexivity.
Qed.

(** C9. When the pronunciation cannot be fetched or decoded, the failure is
    logged and playback goes back to idle (not playing, not loading); the
    answers, the current question index and the lock are untouched, so the
    score computed from the answers is the same and the next answer is
    handled as it would have been. *)
Theorem C9_pronunciation_failure props (seenIndex : nat) (outcome : Quiz.Settled) st :
  is_failure outcome →
  ∃ st',
    Quiz.handlePlayPauseToggle_settled seenIndex outcome st = (st', [Quiz.ConsoleError])
    ∧ Quiz.isPlaying st' = false
    ∧ Quiz.isAudioLoading st' = false
    ∧ progress st' = progress st
    ∧ (∀ language,
         Results.ResultsScreen (Quiz.questions props) (Quiz.userAnswers st') language
         = Results.ResultsScreen (Quiz.questions props) (Quiz.userAnswers st) language)
    ∧ (∀ answer,
         prod_map progress id <$> Quiz.handleAnswerSelect props answer st'
         = prod_map progress id <$> Quiz.handleAnswerSelect props answer st).
Proof.
  intros [-> | ->]; (eexists; split_and!; [reflexivity..| |]).
  all: try (intros language; reflexivity).
  all: intros answer; unfold Quiz.handleAnswerSelect; simpl;
    destruct (Quiz.truthy_option (Quiz.selectedOption st)); [reflexivity|];
    destruct (Quiz.questions props !! Quiz.currentQuestionIndex st); reflexivity.
Qed.

End runner.

(** ** The claims on sample inputs *)

Lemma sample_random_unit_interval : unit_interval sample_random.
Proof.
  intros n. unfold sample_random.
  pose proof (Nat.mod_upper_bound n 7 ltac:(done)) as Hbound.
  destruct (n mod 7) as [|[|[|[|[|[|[|k]]]]]]]; [by vm_compute..|lia].
Qed.

Lemma C1_level_walk_sample :
  ∃ summary passed rest,
    Results.ResultsScreen sample_questions sample_answers hsk = Some summary
    ∧ Results.LEVEL_ORDER hsk = passed ++ rest
    ∧ Forall (passes sample_questions sample_answers) passed
    ∧ (∀ l, head rest = Some l → ¬ passes sample_questions sample_answers l)
    ∧ (∀ l, last passed = Some l → Results.estimatedLevel summary = String_level l).
Proof.
  apply (C1_level_walk sample_questions sample_answers hsk).
  - reflexivity.
  - reflexivity.
  - repeat constructor.
Defined.

Lemma C2_gap_counterexample :
  array_sized gap_questions
  ∧ array_sized gap_answers
  ∧ answers_in_range gap_questions gap_answers
  ∧ Forall (λ l, present gap_questions l → passes gap_questions gap_answers l)
      (Results.LEVEL_ORDER hsk)
  ∧ max_level_present hsk gap_questions = Some (LNum 3)
  ∧ String_level (LNum 3) = "3"
  ∧ Results.estimatedLevel <$> Results.ResultsScreen gap_questions gap_answers hsk
    = Some "1".
Proof.
  split_and!; try reflexivity.
  - repeat constructor.
  - repeat constructor; intros Hpresent;
      try (apply (bool_decide_eq_true_1 _); reflexivity);
      exfalso; vm_compute in Hpresent; lia.
Qed.

Lemma C2_estimate_is_max_present_sample :
  ∃ summary,
    Results.ResultsScreen dele_questions dele_answers dele = Some summary
    ∧ Results.estimatedLevel summary = String_level (LStr "A2").
Proof.
  apply (C2_estimate_is_max_present dele_questions dele_answers dele (LStr "A2")).
  - reflexivity.
  - reflexivity.
  - repeat constructor.
  - reflexivity.
  - intros l (i & j & Hi & Hj & Hle).
    destruct j as [|[|j]]; [discriminate Hj| |].
    + destruct i as [|[|i]]; [| |lia]; injection Hi as <-;
        apply (bool_decide_eq_true_1 _); reflexivity.
    + do 4 (destruct j as [|j]; [discriminate Hj|]). discriminate Hj.
Defined.

Lemma C3_fallback_sample :
  ∃ summary,
    Results.ResultsScreen sample_questions failing_answers hsk = Some summary
    ∧ Results.estimatedLevel summary
      = match hsk, (20 <? Results.score summary)%float with
        | hsk, true => "1"
        | hsk, false => "Below 1"
        | ielts, true => "4.0"
        | ielts, false => "Below 4.0"
        | dele, true => "A1"
        | dele, false => "Below A1"
        end.
Proof.
  apply (C3_fallback sample_questions failing_answers hsk).
  - reflexivity.
  - reflexivity.
  - repeat constructor.
  - intros l [= <-]. apply (bool_decide_eq_false_1 _). reflexivity.
Defined.

Lemma C4_eighteen_of_thirty :
  ∃ summary,
    Results.ResultsScreen thirty_questions eighteen_right hsk = Some summary
    ∧ Results.correctAnswers summary = 18
    ∧ Results.score summary = 60%float
    ∧ nearest_percent 18 30 60.
Proof.
  assert (answers_in_range thirty_questions eighteen_right) as Hrange.
  { apply Forall_forall. intros ua Hua. vm_compute in Hua.
    repeat (apply elem_of_cons in Hua as [->|Hua]; [vm_compute; lia|]).
    by apply elem_of_nil in Hua. }
  destruct (C4_raw_score thirty_questions eighteen_right hsk eq_refl eq_refl Hrange)
    as (summary & Hsummary & Hcount & _ & _ & Hsixty).
  exists summary. split_and!; [exact Hsummary|by rewrite Hcount| |].
  - apply Hsixty; reflexivity.
  - unfold nearest_percent. simpl. lia.
Defined.

Lemma sample_parsed_spreads : ¬ Exists element_throws sample_parsed.
Proof.
  intros (q & Hq & Hthrows)%Exists_exists.
  apply element_throws_spread in Hthrows.
  repeat (apply elem_of_cons in Hq as [->|Hq]; [vm_compute in Hthrows; by destruct Hthrows|]).
  by apply elem_of_nil in Hq.
Qed.


Lemma C6_messages_differ :
  (Gemini.generateQuizQuestions env_without_key hsk).1
  = Gemini.Rejected "API_KEY environment variable not set."
  ∧ (Gemini.generateQuizQuestions env_empty_response hsk).1
    = Gemini.Rejected
        "Failed to communicate with the AI model. Please check your API key and try again."
  ∧ (Gemini.generateQuizQuestions env_without_key hsk).1
    ≠ (Gemini.generateQuizQuestions env_empty_response hsk).1.
Proof.
  split_and!; [reflexivity..|]. discriminate.
Qed.

Lemma C6_failures_sample :
  Gemini.generateQuizQuestions env_without_key dele
  = (Gemini.Rejected "API_KEY environment variable not set.", [])
  ∧ Gemini.generateQuizQuestions env_empty_response dele
    = (Gemini.Rejected
         "Failed to communicate with the AI model. Please check your API key and try again.",
       [Gemini.GenerateContent dele; Gemini.ConsoleError]).
Proof.
  split.
  - apply (proj1 (C6_failures env_without_key dele)). left. reflexivity.
  - apply (proj2 (C6_failures env_empty_response dele)).
    + intros [Hkey|Hkey]; discriminate Hkey.
    + right. exists ""%string. split; reflexivity.
Defined.

Lemma C8_answer_select_sample :
  ∃ st',
    Quiz.handleAnswerSelect blank_option_quiz "b" Quiz.initial
    = Some (st', [Quiz.IncorrectSound;
                  Quiz.SetTimeout (Quiz.AdvanceOrFinish 0 [answered 0 "b"]) 800])
    ∧ progress st' = ([answered 0 "b"], 0, Some "b"%string)
    ∧ ∃ st'',
        Quiz.run_callback blank_option_quiz (Quiz.AdvanceOrFinish 0 [answered 0 "b"]) st'
        = (st'', Quiz.stop_source st' ++ [Quiz.SetTimeout Quiz.EndAnimation 300])
        ∧ progress st'' = ([answered 0 "b"], 1, None).
Proof.
  destruct (C8_answer_select blank_option_quiz Quiz.initial "b"
              blank_option_question)
    as (st' & Hselect & Hprogress & Htimer).
  all: try reflexivity.
  exists st'. split_and!; [exact Hselect|exact Hprogress|exact Htimer].
Defined.

Lemma C9_pronunciation_failure_sample :
  ∃ st',
    Quiz.handlePlayPauseToggle_settled 0 Quiz.DecodeThrew
      (Quiz.handlePlayPauseToggle blank_option_quiz Quiz.initial).1
    = (st', [Quiz.ConsoleError])
    ∧ Quiz.isPlaying st' = false
    ∧ Quiz.isAudioLoading st' = false
    ∧ progress st' = ([], 0, None).
Proof.
  destruct (C9_pronunciation_failure blank_option_quiz 0 Quiz.DecodeThrew
              (Quiz.handlePlayPauseToggle blank_option_quiz Quiz.initial).1)
    as (st' & Hsettled & Hplaying & Hloading & Hprogress & _).
  - right. reflexivity.
  - exists st'. split_and!; [exact Hsettled|exact Hplaying|exact Hloading|exact Hprogress].
Defined.

Lemma C10_shuffle_is_permutation_sample :
  let shuffled := (Gemini.shuffleArray sample_random (Some [1; 2; 3; 4; 5]) 0).1 in
  shuffled = [2; 3; 4; 5; 1]
  ∧ shuffled ≡ₚ [1; 2; 3; 4; 5]
  ∧ length shuffled = 5
  ∧ ∀ x, x ∈ shuffled ↔ x ∈ [1; 2; 3; 4; 5].
Proof.
  split; [by vm_compute|].
  apply (proj1 (C10_shuffle_is_permutation sample_random sample_random_unit_interval)
           nat [1; 2; 3; 4; 5] 0).
  reflexivity.
Defined.

(** ** More of the results screen: errors, bounds, vocabulary *)

Section results_screen.
Implicit Types (questions : list Question) (userAnswers : list UserAnswer)
  (language : Language) (l m : Level) (dict : gmap string nat).

Lemma filter_throwing_out_of_range questions userAnswers :
  ¬ answers_in_range questions userAnswers →
  Results.filter_throwing (Results.is_correct questions) userAnswers = None.
Proof.
  unfold answers_in_range.
  induction userAnswers as [|ua rest IH]; intros Hout.
  - exfalso. apply Hout. constructor.
  - simpl. destruct (Results.is_correct questions ua) as [b|] eqn:Hb; [|reflexivity].
    simpl. rewrite IH; [reflexivity|]. intros Hrest. apply Hout. constructor; [|done].
    unfold Results.is_correct in Hb.
    destruct (questions !! questionIndex ua) as [q|] eqn:Hq; [|discriminate Hb].
    by apply lookup_lt_Some in Hq.
Qed.

Lemma ResultsScreen_out_of_range questions userAnswers language :
  ¬ answers_in_range questions userAnswers →
  Results.ResultsScreen questions userAnswers language = None.
Proof.
  intros Hout. unfold Results.ResultsScreen, Results.correctAnswersCount.
  by rewrite filter_throwing_out_of_range.
Qed.

(** X1. The results screen throws exactly when some answer points outside
    the question list (reading [.correctAnswer] of [undefined]); otherwise
    it returns a summary. *)
Theorem ResultsScreen_throws_iff questions userAnswers language :
  Results.ResultsScreen questions userAnswers language = None
  ↔ ¬ answers_in_range questions userAnswers.
Proof.
  split.
  - intros Hnone Hrange.
    destruct (ResultsScreen_returns questions userAnswers language Hrange)
      as (dict & _ & Hsome).
    rewrite Hsome in Hnone. discriminate Hnone.
  - apply ResultsScreen_out_of_range.
Qed.

(** The loop reads the dictionary of correct answers through
    [(correctByLevel[levelStr] || 0)] only. *)
Lemma level_loop_ext (total : gmap string nat) dict dict' (order : list Level) acc :
  (∀ l, default 0 (dict !! String_level l) = default 0 (dict' !! String_level l)) →
  Results.level_loop total dict order acc = Results.level_loop total dict' order acc.
Proof.
  intros Hsame. revert acc. induction order as [|l order IH]; intros acc; simpl; [done|].
  unfold Results.accuracy. rewrite (Hsame l), IH. done.
Qed.

(** X2. The summary does not depend on the order in which the answers were
    given: the answers are counted, as a whole and level by level. *)
Theorem ResultsScreen_order_irrelevant questions userAnswers userAnswers' language :
  userAnswers ≡ₚ userAnswers' →
  Results.ResultsScreen questions userAnswers language
  = Results.ResultsScreen questions userAnswers' language.
Proof.
  intros Hperm.
  destruct (decide (Forall (λ ua, questionIndex ua < length questions) userAnswers))
    as [Hrange|Hout].
  - assert (answers_in_range questions userAnswers') as Hrange'
      by (unfold answers_in_range; by rewrite <- Hperm).
    destruct (ResultsScreen_returns questions userAnswers language Hrange)
      as (dict & Hdict & ->).
    destruct (ResultsScreen_returns questions userAnswers' language Hrange')
      as (dict' & Hdict' & ->).
    assert (correct_count questions userAnswers = correct_count questions userAnswers')
      as Hcount by (unfold correct_count; by rewrite Hperm).
    rewrite Hcount.
    rewrite (level_loop_ext (Results.totalByLevel questions) dict dict'); [done|].
    intros l. rewrite Hdict, Hdict'. unfold correct_at. by rewrite Hperm.
  - rewrite !ResultsScreen_out_of_range; [done| |done].
    unfold answers_in_range. by rewrite <- Hperm.
Qed.

(** Answers to different questions of the list are no more than the
    questions. *)
Lemma answers_once_length questions userAnswers :
  answers_in_range questions userAnswers →
  NoDup (questionIndex <$> userAnswers) →
  length userAnswers ≤ length questions.
Proof.
  intros Hrange Honce.
  assert (questionIndex <$> userAnswers ⊆+ seq 0 (length questions)) as Hsub.
  2: { apply submseteq_length in Hsub. by rewrite length_fmap, length_seq in Hsub. }
  apply NoDup_submseteq; [done|].
  intros i (ua & -> & Hua)%list_elem_of_fmap.
  apply elem_of_seq. unfold answers_in_range in Hrange.
  rewrite Forall_forall in Hrange. specialize (Hrange ua Hua). lia.
Qed.

(** No more answers than questions: the score is a percentage. *)
Lemma score_in_range questions userAnswers language :
  array_sized questions → questions ≠ [] →
  answers_in_range questions userAnswers →
  length userAnswers ≤ length questions →
  ∃ summary z,
    Results.ResultsScreen questions userAnswers language = Some summary
    ∧ Results.correctAnswers summary ≤ length questions
    ∧ Results.score summary = JS.Number_of_Z z
    ∧ (0 ≤ z ≤ 100)%Z.
Proof.
  intros Hsized Hnonempty Hrange Hlength.
  assert (correct_count questions userAnswers ≤ length questions) as Hcount.
  { unfold correct_count.
    pose proof (length_filter (matches questions) userAnswers). lia. }
  destruct (ResultsScreen_returns questions userAnswers language Hrange)
    as (dict & _ & Hsummary).
  unfold array_sized in Hsized.
  assert (0 < length questions) as Hpos by (destruct questions; [done|simpl; lia]).
  destruct (score_nearest (correct_count questions userAnswers) (length questions))
    as (z & Hscore & Hnearest); [lia..|].
  eexists _, z. split; [exact Hsummary|]. simpl. split_and!; [done|exact Hscore| |].
  - unfold nearest_percent in Hnearest. nia.
  - unfold nearest_percent in Hnearest. nia.
Qed.

(** X3. When no question is answered twice, the score is a whole number
    between 0 and 100, and no more answers are counted as correct than
    there are questions. *)
Theorem score_between_0_and_100 questions userAnswers language :
  array_sized questions → questions ≠ [] →
  answers_in_range questions userAnswers →
  NoDup (questionIndex <$> userAnswers) →
  ∃ summary z,
    Results.ResultsScreen questions userAnswers language = Some summary
    ∧ Results.correctAnswers summary ≤ length questions
    ∧ Results.score summary = JS.Number_of_Z z
    ∧ (0 ≤ z ≤ 100)%Z.
Proof.
  intros Hsized Hnonempty Hrange Honce.
  apply score_in_range; [done..|].
  (* answers to different questions of the list are no more than the questions *)
  by apply answers_once_length.
Qed.

(** X4. Without questions there is nothing to divide by: the screen throws
    when there is an answer, and otherwise reports no correct answer, the
    score NaN (0 / 0) and the below-minimum label. *)
Theorem ResultsScreen_without_questions userAnswers language :
  Results.ResultsScreen [] userAnswers language
  = match userAnswers with
    | [] => Some {| Results.correctAnswers := 0;
                    Results.score := PrimFloat.nan;
                    Results.estimatedLevel := Results.below_label language;
                    Results.levelPrefix := Results.calculatedPrefix language |}
    | _ :: _ => None
    end.
Proof.
  destruct userAnswers as [|ua rest]; [|reflexivity].
  destruct language; reflexivity.
Qed.

(** The loop returns what it started with or a level of the list. *)
Lemma level_loop_result (total : gmap string nat) dict (order : list Level) acc :
  Results.level_loop total dict order acc = acc
  ∨ ∃ l, l ∈ order ∧ Results.level_loop total dict order acc = Some l.
Proof.
  revert acc. induction order as [|l order IH]; intros acc; simpl; [by left|].
  destruct (0.6 <=? _)%float; [|by left].
  destruct (IH (Some l)) as [->|(l' & Hl' & ->)]; right.
  - exists l. split; [by left|done].
  - exists l'. split; [by right|done].
Qed.

(** X5. The vocabulary line goes with the level shown: the placeholder with
    the below-minimum label, and otherwise the size the table gives for the
    level shown (the IELTS floor '4.0' being looked up as '4'), which is
    never missing and never zero. *)
Theorem estimatedVocab_of_level (toLocaleString : N → string) questions userAnswers
    language :
  answers_in_range questions userAnswers →
  ∃ summary vocab,
    Results.ResultsScreen questions userAnswers language = Some summary
    ∧ Results.estimatedVocab toLocaleString questions userAnswers language = Some vocab
    ∧ ((Results.estimatedLevel summary = Results.below_label language
        ∧ vocab = "~100-200 words")
       ∨ (∃ size,
            Results.VOCAB_ESTIMATES language
              !! (if decide (Results.estimatedLevel summary = Results.floor_level language)
                  then Results.floor_key language
                  else Results.estimatedLevel summary)
            = Some size
            ∧ (0 < size)%N
            ∧ vocab = "~" +:+ toLocaleString size +:+ " words")).
Proof.
  intros Hrange.
  destruct (ResultsScreen_returns questions userAnswers language Hrange)
    as (dict & Hdict & Hsummary).
  unfold Results.estimatedVocab, Results.passedLevel.
  rewrite (correctAnswersCount_count _ _ Hrange).
  destruct (correctByLevel_count questions userAnswers Hrange) as (dict' & Hdict' & Hcount).
  rewrite Hdict'. simpl.
  assert (Results.level_loop (Results.totalByLevel questions) dict'
            (Results.LEVEL_ORDER language) None
          = Results.level_loop (Results.totalByLevel questions) dict
              (Results.LEVEL_ORDER language) None) as ->.
  { apply level_loop_ext. intros l. by rewrite Hdict, Hcount. }
  eexists _, _. split; [exact Hsummary|]. split; [reflexivity|]. simpl.
  set (score := Results.calculatedScore _ _).
  destruct (level_loop_result (Results.totalByLevel questions) dict
              (Results.LEVEL_ORDER language) None) as [->|(l & Hl & ->)].
  - unfold Results.finalLevel, Results.finalLevelKey.
    destruct (20 <? score)%float.
    + right. destruct language; eexists; (split; [reflexivity|]); split; reflexivity.
    + left. done.
  - right. clearbody score.
    destruct language; simpl in Hl;
      repeat (apply elem_of_cons in Hl as [->|Hl];
              [eexists; (split; [reflexivity|]); split; reflexivity|]);
      by apply elem_of_nil in Hl.
Qed.

(** X6. The vocabulary table of each track has an entry for exactly the
    levels of the track, and along the track the sizes are positive and
    never go down. *)
Theorem VOCAB_ESTIMATES_along_track language :
  dom (Results.VOCAB_ESTIMATES language)
  = list_to_set (String_level <$> Results.LEVEL_ORDER language)
  ∧ ∀ i j l m,
      Results.LEVEL_ORDER language !! i = Some l →
      Results.LEVEL_ORDER language !! j = Some m →
      i ≤ j →
      ∃ a b, Results.VOCAB_ESTIMATES language !! String_level l = Some a
             ∧ Results.VOCAB_ESTIMATES language !! String_level m = Some b
             ∧ (0 < a ≤ b)%N.
Proof.
  split.
  - destruct language;
      (apply (bool_decide_eq_true_1 _); vm_compute; reflexivity).
  - intros i j l m Hi Hj Hle.
    destruct language;
      repeat (destruct i as [|i]; [injection Hi as <-|]);
      try discriminate Hi;
      repeat (destruct j as [|j]; [injection Hj as <-|]);
      try discriminate Hj; try lia;
      (eexists _, _; split_and!; [reflexivity|reflexivity|done|done]).
Qed.

(** X7. Answers that are right at least as often at every level never give
    a lower estimate: the levels passed with the one answer list are among
    the levels passed with the other. *)
Theorem estimate_monotone questions userAnswers userAnswers' language :
  array_sized questions → array_sized userAnswers → array_sized userAnswers' →
  answers_in_range questions userAnswers →
  answers_in_range questions userAnswers' →
  (∀ l, correct_at questions userAnswers l ≤ correct_at questions userAnswers' l) →
  ∃ passed passed',
    Results.passedLevel questions userAnswers language = Some (last passed)
    ∧ Results.passedLevel questions userAnswers' language = Some (last passed')
    ∧ passed `prefix_of` passed'
    ∧ passed' `prefix_of` Results.LEVEL_ORDER language.
Proof.
  intros Hquestions Hanswers Hanswers' Hrange Hrange' Hmore.
  destruct (correctByLevel_count questions userAnswers Hrange) as (dict & Hdict & Hcount).
  destruct (correctByLevel_count questions userAnswers' Hrange')
    as (dict' & Hdict' & Hcount').
  unfold Results.passedLevel. rewrite Hdict, Hdict'. simpl.
  destruct (passing_prefix (Results.totalByLevel questions) dict
              (Results.LEVEL_ORDER language)) as (passed & rest & Horder & Hpassed & Hrest).
  destruct (passing_prefix (Results.totalByLevel questions) dict'
              (Results.LEVEL_ORDER language))
    as (passed' & rest' & Horder' & Hpassed' & Hrest').
  exists passed, passed'. split_and!.
  - rewrite Horder, (level_loop_passed _ _ _ _ _ Hpassed).
    rewrite (level_loop_break _ _ _ _ Hrest). by destruct (last passed).
  - rewrite Horder', (level_loop_passed _ _ _ _ _ Hpassed').
    rewrite (level_loop_break _ _ _ _ Hrest'). by destruct (last passed').
  - destruct (prefix_weak_total passed passed' (Results.LEVEL_ORDER language))
      as [Hprefix|[tail Htail]]; [by eexists|by eexists|done|].
    destruct tail as [|l tail]; [rewrite app_nil_r in Htail; by subst|].
    exfalso. subst passed.
    assert (head rest' = Some l) as Hhead.
    { rewrite Horder', <- app_assoc in Horder. apply app_inv_head in Horder.
      by subst rest'. }
    specialize (Hrest' l Hhead).
    apply (loop_fails_iff questions userAnswers' dict' l Hquestions Hanswers' Hcount')
      in Hrest'.
    apply Hrest'. rewrite passes_iff.
    assert (passes questions userAnswers l) as Hpass.
    { apply (loop_passes_iff questions userAnswers dict l Hquestions Hanswers Hcount).
      rewrite Forall_app, Forall_cons in Hpassed. by destruct Hpassed as (_ & ? & _). }
    apply passes_iff in Hpass. specialize (Hmore l). lia.
  - by eexists.
Qed.

End results_screen.

(** ** More of the question service: outcomes, draws, speech *)

Section service_outcomes.
Implicit Types (env : Gemini.Environment) (language : Language).

Lemma string_truthy_false (s : string) : JS.string_truthy s = false ↔ s = "".
Proof. destruct s; simpl; split; intros H; done. Qed.

(** X8. Whatever the configuration and the provider, a call of
    [generateQuizQuestions] ends in one of three ways: without a credential
    it is rejected with the message about the key and no request is made;
    otherwise exactly one request is made, and the call either is fulfilled
    with the filtered elements (the response has text, which parses to an
    array with no element on which the mapping throws) or is rejected with
    the one communication-failure message and logged (the request errors;
    the response has no text, or only white space; the text is not valid
    JSON; it parses to something that is not an array; an element is [null],
    or its options are truthy and neither an array nor a string). *)
Theorem generateQuizQuestions_outcomes env language :
  let outcome := Gemini.generateQuizQuestions env language in
  (credential_missing env
   ∧ outcome = (Gemini.Rejected "API_KEY environment variable not set.", []))
  ∨ (¬ credential_missing env
     ∧ ∃ text questions processed,
         Gemini.generateContent env language = Some {| Gemini.text := Some text |}
         ∧ JS.trim text ≠ ""
         ∧ Gemini.JSON_parse env (JS.trim text) = Some (JArray questions)
         ∧ ¬ Exists element_throws questions
         ∧ Gemini.processQuestions (Gemini.random env) questions 0 = Some processed
         ∧ outcome
           = (Gemini.Fulfilled (filter (λ p, Gemini.valid p = true) processed),
              [Gemini.GenerateContent language]))
  ∨ (¬ credential_missing env
     ∧ (provider_call_errors env language
        ∨ Gemini.generateContent env language = Some {| Gemini.text := None |}
        ∨ response_empty env language
        ∨ (∃ text, Gemini.generateContent env language
                   = Some {| Gemini.text := Some text |}
                   ∧ Gemini.JSON_parse env (JS.trim text) = None)
        ∨ (∃ text parsed, Gemini.generateContent env language
                          = Some {| Gemini.text := Some text |}
                          ∧ Gemini.JSON_parse env (JS.trim text) = Some parsed
                          ∧ ∀ questions, parsed ≠ JArray questions)
        ∨ (∃ text questions, Gemini.generateContent env language
                             = Some {| Gemini.text := Some text |}
                             ∧ Gemini.JSON_parse env (JS.trim text) = Some (JArray questions)
                             ∧ Exists element_throws questions))
     ∧ outcome
       = (Gemini.Rejected
            "Failed to communicate with the AI model. Please check your API key and try again.",
          [Gemini.GenerateContent language; Gemini.ConsoleError])).
Proof.
  unfold credential_missing, provider_call_errors, response_empty.
  unfold Gemini.generateQuizQuestions, Gemini.try_block.
  destruct (Gemini.API_KEY env) as [key|]; [|left; split; [by left|done]].
  destruct (JS.string_truthy key) eqn:Hkey.
  2: { apply string_truthy_false in Hkey as ->. left. split; [by right|done]. }
  assert (¬ (Some key = None ∨ Some key = Some "")) as Hset.
  { intros [?|[= ->]]; done. }
  right.
  destruct (Gemini.generateContent env language) as [[[text|]]|]; simpl.
  3: { right. split; [done|]. split; [by left|done]. }
  2: { right. split; [done|]. split; [right; by left|done]. }
  destruct (JS.string_truthy (JS.trim text)) eqn:Htext; simpl.
  2: { apply string_truthy_false in Htext. right. split; [done|]. split; [|done].
       right. right. left. by exists text. }
  destruct (Gemini.JSON_parse env (JS.trim text)) as [parsed|] eqn:Hparsed; simpl.
  2: { right. split; [done|]. split; [|done]. do 3 right. left. by exists text. }
  destruct (Gemini.as_array parsed) as [questions|] eqn:Harray; simpl.
  2: { right. split; [done|]. split; [|done]. do 4 right. left.
       exists text, parsed. split_and!; [done..|]. intros questions ->. done. }
  assert (parsed = JArray questions) as ->
    by (destruct parsed; try done; by injection Harray as ->).
  destruct (Gemini.processQuestions (Gemini.random env) questions 0)
    as [processed|] eqn:Hprocessed; simpl.
  - left. split; [done|]. exists text, questions, processed.
    split_and!; [done| |done| |done|done].
    + intros Hempty. by rewrite Hempty in Htext.
    + intros Hthrows.
      apply (proj2 (processQuestions_throws_iff (Gemini.random env) questions 0))
        in Hthrows.
      congruence.
  - right. split; [done|]. split; [|done]. do 5 right.
    exists text, questions. split_and!; [done..|].
    by apply (processQuestions_throws_iff (Gemini.random env) questions 0).
Qed.

(** X9. A call of [generatePronunciation] ends in one of three ways too:
    without a credential, rejected with the message about the key and no
    request; fulfilled, after one request, with the inline data of the first
    part of the first candidate, which is then not empty; or, when any step
    on the way to that data is missing or the data is empty or the request
    errors, rejected with the one message about the audio, and logged. *)
Theorem generatePronunciation_outcomes (API_KEY : option string)
    (generateContent : string → option Gemini.SpeechResponse) (text : string) :
  let outcome := Gemini.generatePronunciation API_KEY generateContent text in
  (key_missing API_KEY
   ∧ outcome = (Gemini.Rejected "API_KEY environment variable not set.", []))
  ∨ (¬ key_missing API_KEY
     ∧ ∃ audio,
         generateContent text ≫= Gemini.base64Audio = Some audio
         ∧ audio ≠ ""
         ∧ outcome = (Gemini.Fulfilled audio, [Gemini.GenerateSpeech text]))
  ∨ (¬ key_missing API_KEY
     ∧ (generateContent text ≫= Gemini.base64Audio = None
        ∨ generateContent text ≫= Gemini.base64Audio = Some "")
     ∧ outcome
       = (Gemini.Rejected "Failed to generate pronunciation audio.",
          [Gemini.GenerateSpeech text; Gemini.SpeechConsoleError])).
Proof.
  unfold key_missing, Gemini.generatePronunciation.
  destruct API_KEY as [key|]; [|left; split; [by left|done]].
  destruct (JS.string_truthy key) eqn:Hkey.
  2: { apply string_truthy_false in Hkey as ->. left. split; [by right|done]. }
  assert (¬ (Some key = None ∨ Some key = Some "")) as Hset.
  { intros [?|[= ->]]; done. }
  right.
  destruct (generateContent text) as [response|]; simpl.
  2: { right. split; [done|]. split; [by left|done]. }
  destruct (Gemini.base64Audio response) as [audio|].
  2: { right. split; [done|]. split; [by left|done]. }
  destruct (JS.string_truthy audio) eqn:Haudio.
  - left. split; [done|]. exists audio. split_and!; [done| |done].
    intros ->. done.
  - apply string_truthy_false in Haudio as ->.
    right. split; [done|]. split; [by right|done].
Qed.

End service_outcomes.

Section independence.
Implicit Types (random : nat → float) (questions : list JSON) (q : JSON)
  (processed : list Gemini.Processed) (calls k : nat).

(** Whether the mapping throws does not depend on the random numbers. *)
Lemma processQuestions_succeeds random random' questions calls calls' processed :
  Gemini.processQuestions random questions calls = Some processed →
  is_Some (Gemini.processQuestions random' questions calls').
Proof.
  intros Hprocessed.
  destruct (Gemini.processQuestions random' questions calls') as [processed'|] eqn:Hother;
    [done|].
  apply processQuestions_throws_iff in Hother.
  apply (proj2 (processQuestions_throws_iff random questions calls)) in Hother.
  congruence.
Qed.

(** X10. The options of each question are shuffled with random numbers of
    their own: the [k]-th element draws the numbers at the positions after
    those of the elements before it, one for each option but the first,
    and its shuffled options do not change when the stream changes anywhere
    else. *)
Theorem shuffles_use_own_draws random random' questions k q :
  ¬ Exists element_throws questions →
  questions !! k = Some q →
  (∀ n, sum_list_with draws (take k questions) ≤ n
        < sum_list_with draws (take k questions) + draws q →
        random n = random' n) →
  ∃ processed processed' p,
    Gemini.processQuestions random questions 0 = Some processed
    ∧ Gemini.processQuestions random' questions 0 = Some processed'
    ∧ processed !! k = Some p
    ∧ processed' !! k = Some p
    ∧ Gemini.element p = q
    ∧ Gemini.shuffled_options p
      = (Gemini.shuffleArray random (Some (spread_options q))
           (sum_list_with draws (take k questions))).1.
Proof.
  intros Hthrows Hq Hsame.
  destruct (processQuestions_returns random questions 0 Hthrows)
    as [processed Hprocessed].
  destruct (processQuestions_returns random' questions 0 Hthrows)
    as [processed' Hprocessed'].
  destruct (processQuestions_lookup random questions 0 processed k q Hprocessed Hq)
    as (p & Hp & array & Hspread & ->).
  destruct (processQuestions_lookup random' questions 0 processed' k q Hprocessed' Hq)
    as (p' & Hp' & array' & Hspread' & ->).
  rewrite Hspread in Hspread'. injection Hspread' as <-.
  simpl in Hp, Hp'.
  assert (spread_options q = default [] array) as Hoptions.
  { unfold spread_options. rewrite Hspread. by destruct array. }
  assert (Gemini.shuffleArray random' array (sum_list_with draws (take k questions))
          = Gemini.shuffleArray random array (sum_list_with draws (take k questions)))
    as Hshuffle.
  { symmetry. apply shuffleArray_ext. intros n Hn. apply Hsame.
    assert (draws q = length (default [] array) - 1) as ->
      by (unfold draws; by rewrite Hoptions).
    lia. }
  rewrite Hshuffle in Hp'.
  eexists processed, processed', _. split_and!; [done|done|exact Hp|exact Hp'|done|].
  simpl. rewrite Hoptions. destruct array as [items|]; [done|].
  simpl. done.
Qed.

End independence.

Section every_order.
Context {T : Type}.
Implicit Types (l target array : list T) (random : nat → float) (i j calls : nat).

Lemma swap_length i j l : length (Gemini.swap i j l) = length l.
Proof.
  unfold Gemini.swap. destruct (l !! j), (l !! i); [|done..].
  by rewrite !length_insert.
Qed.

Lemma swap_lookup i j l x :
  j ≤ i → i < length l → l !! j = Some x → Gemini.swap i j l !! i = Some x.
Proof.
  intros Hj Hi Hx. unfold Gemini.swap. rewrite Hx.
  destruct (lookup_lt_is_Some_2 l i Hi) as [y Hy]. rewrite Hy.
  destruct (decide (j = i)) as [->|Hne].
  - rewrite list_lookup_insert_eq by (rewrite length_insert; lia). congruence.
  - rewrite list_lookup_insert_ne by done.
    by rewrite list_lookup_insert_eq by lia.
Qed.

Lemma swap_drop i j l : j ≤ i → drop (S i) (Gemini.swap i j l) = drop (S i) l.
Proof.
  intros Hj. unfold Gemini.swap. destruct (l !! j), (l !! i); [|done..].
  rewrite !drop_insert_lt by lia. done.
Qed.

(** The draw for [j] out of [i + 1] picks the index [j], computed as the
    program computes it. *)
Lemma random_index_pick i j :
  j ≤ i → (Z.of_nat i + 1 < 2 ^ 32)%Z →
  Gemini.random_index (draw_for j (i + 1)) i = Some j.
Proof.
  intros Hj Hi. unfold Gemini.random_index.
  apply (draw_picks j (i + 1)); lia.
Qed.

Lemma with_draw_unit_interval calls i j random :
  j ≤ i → (Z.of_nat i + 1 < 2 ^ 32)%Z → unit_interval random →
  unit_interval (with_draw calls (draw_for j (i + 1)) random).
Proof.
  intros Hj Hi Hrandom n. unfold with_draw. destruct (decide (n = calls)); [|apply Hrandom].
  destruct (draw_picks j (i + 1)) as (Hlo & Hhi & _); [lia|lia|done].
Qed.

(** The rounds from position [i] down can still put the elements up to
    position [i] in any order. *)
Lemma shuffle_loop_reaches i l target calls :
  array_sized l →
  i < length l → target ≡ₚ l → drop (S i) target = drop (S i) l →
  ∃ random, unit_interval random ∧ (Gemini.shuffle_loop random i l calls).1 = target.
Proof.
  revert l calls. induction i as [|i IH]; intros l calls Hsized Hi Hperm Hdrop.
  - exists (λ _, 0%float). split; [done|]. simpl.
    pose proof (Permutation_length Hperm) as Hlength.
    destruct l as [|x l]; [simpl in Hi; lia|].
    destruct target as [|y target]; [discriminate Hlength|].
    simpl in Hdrop. rewrite !drop_0 in Hdrop. subst target.
    f_equal. symmetry. apply Permutation_singleton_inj.
    apply (Permutation_app_inv_r l [y] [x]). exact Hperm.
  - pose proof (Permutation_length Hperm) as Hlength.
    assert (Z.of_nat (S i) + 1 < 2 ^ 32)%Z as Hindex
      by (unfold array_sized in Hsized; lia).
    destruct (lookup_lt_is_Some_2 target (S i)) as [x Hx]; [lia|].
    assert (take (S (S i)) target ≡ₚ take (S (S i)) l) as Htake.
    { apply (Permutation_app_inv_r (drop (S (S i)) l)).
      rewrite <- Hdrop at 1. by rewrite !take_drop. }
    assert (x ∈ take (S (S i)) l) as Hin.
    { rewrite <- Htake. apply elem_of_take. exists (S i). split; [done|lia]. }
    apply elem_of_take in Hin as (j & Hj & Hlt).
    set (l1 := Gemini.swap (S i) j l).
    assert (l1 !! S i = Some x) as Hl1 by (apply swap_lookup; [lia|done|done]).
    destruct (IH l1 (S calls)) as (random1 & Hrandom1 & Hloop).
    + unfold array_sized, l1. by rewrite swap_length.
    + unfold l1. rewrite swap_length. lia.
    + rewrite Hperm. symmetry. apply swap_permutation; [lia|done].
    + rewrite (drop_S _ _ _ Hx), (drop_S _ _ _ Hl1). f_equal.
      unfold l1. rewrite swap_drop by lia. done.
    + exists (with_draw calls (draw_for j (S i + 1)) random1).
      split; [apply with_draw_unit_interval; [lia|done|done]|].
      assert (Gemini.random_index
                (with_draw calls (draw_for j (S i + 1)) random1 calls) (S i)
              = Some j) as Hpick.
      { unfold with_draw. rewrite decide_True by done. apply random_index_pick; [lia|done]. }
      cbn [Gemini.shuffle_loop]. rewrite Hpick. fold l1.
      rewrite <- Hloop. f_equal. apply shuffle_loop_ext.
      intros n Hn. unfold with_draw. rewrite decide_False by lia. done.
Qed.

(** X11. Every order of the array is an outcome of [shuffleArray]: for each
    permutation of the input (an array, so of fewer than 2^32 elements)
    there are Numbers that [Math.random] may return, all from 0 up to, not
    including, 1, with which the shuffle, computing its indices in doubles
    as the program does, returns it. *)
Theorem shuffleArray_reaches_every_order array target :
  array_sized array →
  target ≡ₚ array →
  ∃ random,
    unit_interval random ∧ (Gemini.shuffleArray random (Some array) 0).1 = target.
Proof.
  intros Hsized Hperm. simpl.
  destruct array as [|x array].
  - apply Permutation_nil_r in Hperm as ->. exists (λ _, 0%float). done.
  - apply shuffle_loop_reaches; [done|simpl; lia|done|].
    rewrite !drop_ge; [done|simpl; lia|].
    rewrite (Permutation_length Hperm). simpl. lia.
Qed.

End every_order.

(** ** The quiz runner: decoding the pronunciation *)

Section decoding.
Implicit Types (data : list Z) (samples : list float) (i k : nat).

(** All 65536 samples, computed. *)
Lemma samples_checked :
  Forall (λ high, Forall (λ low, sample_checked low high = true) byte_values) byte_values.
Proof. apply (bool_decide_eq_true_1 _). vm_compute. reflexivity. Qed.

Lemma code_byte (c : Ascii.ascii) : code c ∈ byte_values.
Proof.
  unfold code, byte_values. apply list_elem_of_fmap.
  exists (N.to_nat (Ascii.N_of_ascii c)). split; [lia|].
  apply elem_of_seq. pose proof (Ascii.N_ascii_bounded c). lia.
Qed.

Lemma sample_of_bytes (low high : Ascii.ascii) :
  let s := (JS.Number_of_Z (int16 (code low) (code high)) / 32768)%float in
  normalised s ∧ (s * 32768)%float = JS.Number_of_Z (int16 (code low) (code high)).
Proof.
  pose proof samples_checked as Hall. rewrite Forall_forall in Hall.
  specialize (Hall (code high) (code_byte high)). rewrite Forall_forall in Hall.
  specialize (Hall (code low) (code_byte low)).
  unfold sample_checked in Hall.
  apply andb_true_iff in Hall as [[Hlow Hhigh]%andb_true_iff Hexact].
  apply FloatAxioms.Leibniz.eqb_spec in Hexact. done.
Qed.

(** The 16-bit view exists exactly for an even number of bytes. *)
Lemma Int16Array_pairs data (dataInt16 : list Z) :
  Quiz.Int16Array data = Some dataInt16 →
  length data = 2 * length dataInt16
  ∧ ∀ i, i < length dataInt16 →
      ∃ low high, data !! (2 * i) = Some low ∧ data !! (2 * i + 1) = Some high
                  ∧ dataInt16 !! i = Some (int16 low high).
Proof.
  revert data. induction dataInt16 as [|value dataInt16 IH]; intros data Hview.
  - destruct data as [|low [|high rest]]; simpl in Hview; [|done|].
    + split; [done|]. simpl. lia.
    + destruct (Quiz.Int16Array rest); discriminate Hview.
  - destruct data as [|low [|high rest]]; simpl in Hview; [done..|].
    destruct (Quiz.Int16Array rest) as [tail|] eqn:Hrest; [|done].
    simpl in Hview. injection Hview as <- ->.
    destruct (IH rest Hrest) as [Hlength Hpairs]. split; [simpl; lia|].
    intros [|i] Hi.
    + exists low, high. done.
    + destruct (Hpairs i) as (low' & high' & Hlow & Hhigh & Hvalue); [simpl in Hi; lia|].
      exists low', high'. split_and!.
      * replace (2 * S i) with (S (S (2 * i))) by lia. done.
      * replace (2 * S i + 1) with (S (S (2 * i + 1))) by lia. done.
      * done.
Qed.

Lemma Int16Array_even data k :
  length data = 2 * k → is_Some (Quiz.Int16Array data).
Proof.
  revert data. induction k as [|k IH]; intros data Hlength.
  - destruct data; [by eexists|done].
  - destruct data as [|low [|high rest]]; simpl in Hlength; [lia..|].
    destruct (IH rest) as [tail Htail]; [lia|].
    simpl. rewrite Htail. by eexists.
Qed.

Lemma Int16Array_throws_iff data :
  Quiz.Int16Array data = None ↔ Nat.Odd (length data).
Proof.
  split.
  - intros Hnone. destruct (Nat.Even_or_Odd (length data)) as [[k Hk]|Hodd]; [|done].
    destruct (Int16Array_even data k Hk) as [? Hsome]. congruence.
  - intros [k Hk]. destruct (Quiz.Int16Array data) as [dataInt16|] eqn:Hview; [|done].
    apply Int16Array_pairs in Hview as [Hlength _]. lia.
Qed.

(** The loop writes every frame of its channel. *)
Lemma fill_lookup (f : nat → float) (first count : nat) (channelData : list float) k :
  foldl (λ channelData i, <[i := f i]> channelData) channelData (seq first count) !! k
  = if decide (first ≤ k < first + count ∧ k < length channelData)
    then Some (f k) else channelData !! k.
Proof.
  revert first channelData. induction count as [|count IH]; intros first channelData; simpl.
  - rewrite decide_False by lia. done.
  - rewrite IH, length_insert, list_lookup_insert.
    destruct (decide (first = k)) as [->|Hne].
    + rewrite (decide_False (P := S k ≤ k < S k + count ∧ _)) by lia.
      destruct (decide (k < length channelData)) as [Hk|Hk].
      * rewrite !decide_True by lia. done.
      * rewrite !decide_False by lia. done.
    + rewrite (decide_False (P := first = k ∧ _)) by (intros [? _]; done).
      destruct (decide (S first ≤ k < S first + count ∧ k < length channelData)).
      * rewrite decide_True by lia. done.
      * rewrite decide_False by lia. done.
Qed.

Lemma fill_channel_frames (dataInt16 : list Z) (frameCount : nat) :
  Quiz.fill_channel dataInt16 1 frameCount 0 (replicate frameCount 0%float)
  = (λ i, Quiz.sample dataInt16 i) <$> seq 0 frameCount.
Proof.
  apply list_eq. intros k. unfold Quiz.fill_channel.
  rewrite (fill_lookup (λ i, Quiz.sample dataInt16 (i * 1 + 0))), length_replicate.
  rewrite list_lookup_fmap.
  destruct (decide (k < frameCount)) as [Hk|Hk].
  - rewrite decide_True by lia. rewrite lookup_seq_lt by done. simpl.
    by rewrite Nat.mul_1_r, Nat.add_0_r.
  - rewrite decide_False by lia. rewrite lookup_seq_ge by lia.
    simpl. apply lookup_replicate_None. lia.
Qed.

(** One channel: what [decodeAudioData] returns. *)
Lemma decodeAudioData_mono data (ctx : bool) (sampleRate : N) :
  Quiz.decodeAudioData data ctx sampleRate 1
  = dataInt16 ← Quiz.Int16Array data;
    if ctx && negb (length dataInt16 =? 0)
    then Some {| Quiz.sampleRate := sampleRate;
                 Quiz.channels :=
                   [(λ i, Quiz.sample dataInt16 i) <$> seq 0 (length dataInt16)] |}
    else None.
Proof.
  unfold Quiz.decodeAudioData. destruct (Quiz.Int16Array data) as [dataInt16|]; [|done].
  cbn [mbind option_bind]. destruct ctx; [|done]. rewrite Nat.div_1_r.
  unfold Quiz.createBuffer. change (1 =? 0) with false. cbn [orb andb].
  destruct (length dataInt16 =? 0); [reflexivity|].
  cbn [mbind option_bind Quiz.channels replicate imap negb].
  by rewrite fill_channel_frames.
Qed.

(** X12. When the awaited pronunciation comes out decoded, the service had
    resolved to text that [atob] accepts, with an even, positive number of
    bytes; there is one sample for each pair of bytes, and each sample is
    the 16-bit integer of its pair (low byte first) divided by 32768:
    exactly (multiplied back it is that integer), and within [-1, 1). *)
Theorem awaited_decoded (atob : string → option string) (ctx : bool)
    (pronunciation : Gemini.Promise string) samples :
  Quiz.awaited atob ctx pronunciation = Quiz.Decoded samples →
  ∃ base64Audio binaryString,
    pronunciation = Gemini.Fulfilled base64Audio
    ∧ atob base64Audio = Some binaryString
    ∧ ctx = true
    ∧ length (String.list_ascii_of_string binaryString) = 2 * length samples
    ∧ 0 < length samples
    ∧ ∀ i, i < length samples →
        ∃ low high s,
          String.list_ascii_of_string binaryString !! (2 * i) = Some low
          ∧ String.list_ascii_of_string binaryString !! (2 * i + 1) = Some high
          ∧ samples !! i = Some s
          ∧ normalised s
          ∧ (s * 32768)%float = JS.Number_of_Z (int16 (code low) (code high)).
Proof.
  unfold Quiz.awaited, Quiz.decode. intros Hdecoded.
  destruct pronunciation as [base64Audio|message]; [|discriminate Hdecoded].
  destruct (atob base64Audio) as [binaryString|] eqn:Hatob; [|discriminate Hdecoded].
  simpl in Hdecoded. rewrite decodeAudioData_mono in Hdecoded.
  set (data := (λ c, Z.of_N (Ascii.N_of_ascii c))
               <$> String.list_ascii_of_string binaryString) in *.
  destruct (Quiz.Int16Array data) as [dataInt16|] eqn:Hview; [|discriminate Hdecoded].
  simpl in Hdecoded. destruct ctx; [|discriminate Hdecoded]. simpl in Hdecoded.
  destruct (length dataInt16 =? 0) eqn:Hframes; [discriminate Hdecoded|].
  apply Nat.eqb_neq in Hframes. simpl in Hdecoded. injection Hdecoded as <-.
  apply Int16Array_pairs in Hview as [Hlength Hpairs].
  unfold data in Hlength. rewrite length_fmap in Hlength.
  exists base64Audio, binaryString. rewrite length_fmap, length_seq.
  split_and!; [done|done|done|done|lia|].
  intros i Hi. destruct (Hpairs i Hi) as (low & high & Hlow & Hhigh & Hvalue).
  unfold data in Hlow, Hhigh. rewrite list_lookup_fmap in Hlow, Hhigh.
  destruct (String.list_ascii_of_string binaryString !! (2 * i)) as [c_low|];
    [|discriminate Hlow].
  destruct (String.list_ascii_of_string binaryString !! (2 * i + 1)) as [c_high|];
    [|discriminate Hhigh].
  injection Hlow as <-. injection Hhigh as <-.
  eexists c_low, c_high, _. split_and!; [done|done| | |].
  - rewrite list_lookup_fmap, lookup_seq_lt by done. simpl.
    unfold Quiz.sample. rewrite Hvalue. reflexivity.
  - apply (sample_of_bytes c_low c_high).
  - apply (sample_of_bytes c_low c_high).
Qed.

(** X13. The awaited pronunciation ends in a failure exactly when the
    service rejects, or [atob] throws on what it resolved to, or the bytes
    cannot be viewed as 16-bit samples (their number is odd), or there is
    no byte at all (a buffer without frames is refused), or the audio
    context is not set. *)
Theorem awaited_fails_iff (atob : string → option string) (ctx : bool)
    (pronunciation : Gemini.Promise string) :
  is_failure (Quiz.awaited atob ctx pronunciation)
  ↔ (∃ message, pronunciation = Gemini.Rejected message)
    ∨ ∃ base64Audio,
        pronunciation = Gemini.Fulfilled base64Audio
        ∧ (atob base64Audio = None
           ∨ ctx = false
           ∨ ∃ binaryString,
               atob base64Audio = Some binaryString
               ∧ (binaryString = ""
                  ∨ Nat.Odd (length (String.list_ascii_of_string binaryString)))).
Proof.
  unfold is_failure, Quiz.awaited, Quiz.decode.
  destruct pronunciation as [base64Audio|message].
  2: { split; [intros _; left; by eexists|intros _; by left]. }
  destruct (atob base64Audio) as [binaryString|] eqn:Hatob; simpl.
  2: { split; [intros _; right; eexists; split; [done|by left]|intros _; by right]. }
  rewrite decodeAudioData_mono.
  set (data := (λ c, Z.of_N (Ascii.N_of_ascii c))
               <$> String.list_ascii_of_string binaryString).
  assert (length data = length (String.list_ascii_of_string binaryString)) as Hdata
    by apply length_fmap.
  destruct (Quiz.Int16Array data) as [dataInt16|] eqn:Hview; simpl.
  - apply Int16Array_pairs in Hview as [Hlength _].
    rewrite Hdata in Hlength. clear Hdata. clearbody data.
    destruct ctx; simpl.
    + destruct (length dataInt16 =? 0) eqn:Hframes; simpl.
      * apply Nat.eqb_eq in Hframes. split; [intros _|intros _; by right].
        right. eexists. split; [done|]. right. right. eexists. split; [done|]. left.
        destruct binaryString; [done|]. simpl in Hlength. lia.
      * apply Nat.eqb_neq in Hframes.
        split; [intros [?|?]; done|].
        intros [[? [=]]|(? & [= <-] & [Hnone|[?|(binary & Hsome & Hbad)]])];
          [congruence|done|].
        rewrite Hatob in Hsome. injection Hsome as <-.
        destruct Hbad as [->|[k Hk]]; [simpl in Hlength; lia|lia].
    + split; [intros _|intros _; by right].
      right. eexists. split; [done|]. right. by left.
  - apply Int16Array_throws_iff in Hview. rewrite Hdata in Hview.
    split; [intros _|intros _; by right].
    right. eexists. split; [done|]. right. right. eexists. split; [done|]. by right.
Qed.

End decoding.

(** ** A quiz at work: what every state of the screen satisfies *)

Section session.
Implicit Types (props : Quiz.Props) (sys : Session.System) (st : Quiz.State)
  (effects : list Quiz.Effect) (timers : list Quiz.Callback).

Lemma advancing_app timers timers' :
  advancing (timers ++ timers') = advancing timers ++ advancing timers'.
Proof. apply filter_app. Qed.

Lemma advancing_idem timers : advancing (advancing timers) = advancing timers.
Proof.
  unfold advancing. induction timers as [|callback timers IH]; [done|].
  rewrite filter_cons. destruct (decide (Session.is_animation callback = false)) as [Hcb|Hcb].
  - by rewrite filter_cons, decide_True, IH by done.
  - done.
Qed.

Lemma advancing_one callback :
  advancing [callback] = if Session.is_animation callback then [] else [callback].
Proof. by destruct callback. Qed.

(** Taking a timer away: an animation timer does not count, another one
    goes from where it stood. *)
Lemma advancing_delete timers n callback :
  timers !! n = Some callback →
  if Session.is_animation callback
  then advancing (delete n timers) = advancing timers
  else ∃ before behind,
         advancing timers = before ++ callback :: behind
         ∧ advancing (delete n timers) = before ++ behind.
Proof.
  intros Hn. rewrite delete_take_drop.
  assert (advancing timers
          = advancing (take n timers) ++ advancing [callback]
            ++ advancing (drop (S n) timers)) as ->.
  { rewrite <- !advancing_app. f_equal. symmetry. by apply take_drop_middle. }
  rewrite advancing_app, advancing_one.
  destruct (Session.is_animation callback); [done|].
  by eexists _, _.
Qed.

(** What a handler leaves in the system, read off its effects. *)
Lemma foldl_absorb (seenIndex : nat) effects sys :
  let sys' := foldl (Session.absorb seenIndex) sys effects in
  Session.state sys' = Session.state sys
  ∧ advancing (Session.timers sys') = advancing (Session.timers sys) ++ armed effects
  ∧ Session.finished sys' = Session.finished sys ++ handed_over effects
  ∧ Session.requests sys'
    = Session.requests sys ++ ((λ _, seenIndex) <$> requested effects).
Proof.
  revert sys. induction effects as [|effect effects IH]; intros sys; simpl.
  - by rewrite !app_nil_r.
  - destruct (IH (Session.absorb seenIndex sys effect)) as (-> & -> & -> & ->).
    destruct effect as [| | | |callback delay| | | |]; simpl; try done.
    + destruct (Session.is_animation callback) eqn:Hcallback; simpl.
      * rewrite advancing_app, advancing_idem, advancing_one, Hcallback.
        by rewrite app_nil_r.
      * rewrite advancing_app, advancing_one, Hcallback.
        by rewrite <- app_assoc.
    + by rewrite <- app_assoc.
    + by rewrite <- app_assoc.
Qed.

Lemma after_fields sys (result : Quiz.State * list Quiz.Effect) :
  let sys' := Session.after sys result in
  Session.state sys' = result.1
  ∧ advancing (Session.timers sys') = advancing (Session.timers sys) ++ armed result.2
  ∧ Session.finished sys' = Session.finished sys ++ handed_over result.2
  ∧ Session.requests sys'
    = Session.requests sys
      ++ ((λ _, Quiz.currentQuestionIndex (Session.state sys)) <$> requested result.2).
Proof. apply foldl_absorb. Qed.

Lemma armed_app effects effects' : armed (effects ++ effects') = armed effects ++ armed effects'.
Proof. apply omap_app. Qed.

Lemma handed_over_app effects effects' :
  handed_over (effects ++ effects') = handed_over effects ++ handed_over effects'.
Proof. apply omap_app. Qed.

Lemma requested_app effects effects' :
  requested (effects ++ effects') = requested effects ++ requested effects'.
Proof. apply omap_app. Qed.

Lemma stop_source_quiet st :
  armed (Quiz.stop_source st) = [] ∧ handed_over (Quiz.stop_source st) = []
  ∧ requested (Quiz.stop_source st) = [].
Proof. unfold Quiz.stop_source. by destruct (Quiz.sourceNodeRef st). Qed.

(** The handlers of the audio controls leave the answers, the position and
    the lock alone, arm no timer and never call [onFinish]. *)
Lemma handlePlayPauseToggle_quiet props st :
  let result := Quiz.handlePlayPauseToggle props st in
  progress result.1 = progress st ∧ armed result.2 = [] ∧ handed_over result.2 = [].
Proof.
  unfold Quiz.handlePlayPauseToggle, Quiz.playAudioFromBuffer, Quiz.pronunciation_failed,
    Quiz.stop_source.
  repeat case_match; done.
Qed.

Lemma handlePlayPauseToggle_settled_quiet (seenIndex : nat) (outcome : Quiz.Settled) st :
  let result := Quiz.handlePlayPauseToggle_settled seenIndex outcome st in
  progress result.1 = progress st ∧ armed result.2 = [] ∧ handed_over result.2 = []
  ∧ requested result.2 = [] ∧ Quiz.isAudioLoading result.1 = false
  ∧ Quiz.audioCache result.1
    = match outcome with
      | Quiz.Decoded buffer => <[seenIndex := buffer]> (Quiz.audioCache st)
      | _ => Quiz.audioCache st
      end.
Proof.
  unfold Quiz.handlePlayPauseToggle_settled, Quiz.playAudioFromBuffer,
    Quiz.pronunciation_failed, Quiz.stop_source.
  repeat case_match; simplify_eq; done.
Qed.

Lemma handleVolumeChange_quiet (newVolume : float) st :
  let result := Quiz.handleVolumeChange newVolume st in
  progress result.1 = progress st ∧ armed result.2 = [] ∧ handed_over result.2 = []
  ∧ requested result.2 = [] ∧ Quiz.isAudioLoading result.1 = Quiz.isAudioLoading st
  ∧ Quiz.audioCache result.1 = Quiz.audioCache st.
Proof. unfold Quiz.handleVolumeChange. by destruct (Quiz.gainNodeRef st). Qed.

Lemma progress_ok_quiet props st st' pending finished :
  progress st' = progress st →
  progress_ok props st pending finished → progress_ok props st' pending finished.
Proof.
  unfold progress, progress_ok. intros [= Hanswers Hindex Hselected].
  by rewrite Hanswers, Hindex, Hselected.
Qed.

Lemma answered_in_order_snoc (questions : list Question) (answers : list UserAnswer)
    (q : Question) (choice : string) :
  answered_in_order questions answers →
  questions !! length answers = Some q → choice ∈ options q →
  answered_in_order questions
    (answers ++ [{| questionIndex := length answers; answer := choice |}]).
Proof.
  intros [Hindices Hoptions] Hq Hchoice. split.
  - rewrite fmap_app, length_app, Hindices. simpl.
    by rewrite Nat.add_1_r, seq_S.
  - apply Forall_app. split; [done|]. constructor; [|done]. by exists q.
Qed.

(** Every event keeps the quiz where [progress_ok] says it stands, as long
    as no option is the empty string. *)
Lemma step_progress props sys (event : Session.Event) sys' :
  no_blank_option (Quiz.questions props) →
  quiz_progress props sys →
  Session.step props sys event = Some sys' →
  quiz_progress props sys'.
Proof.
  intros Hblank Hinv Hstep. unfold quiz_progress in *.
  destruct event as [choice|n| |n outcome| |newVolume]; simpl in Hstep.
  - (* an option is clicked *)
    destruct (Quiz.questions props !! Quiz.currentQuestionIndex (Session.state sys))
      as [q|] eqn:Hq; [|done].
    simpl in Hstep. destruct (decide (choice ∈ options q)) as [Hchoice|]; [|done].
    unfold Quiz.handleAnswerSelect in Hstep. rewrite Hq in Hstep.
    destruct (Quiz.truthy_option (Quiz.selectedOption (Session.state sys))) eqn:Htruthy;
      simpl in Hstep; injection Hstep as <-.
    + destruct (after_fields sys (Session.state sys, [])) as (-> & -> & -> & _).
      simpl. by rewrite !app_nil_r.
    + match goal with
      | |- context [Session.after sys ?r] =>
          destruct (after_fields sys r) as (-> & -> & -> & _)
      end.
      cbn [fst snd]. rewrite !armed_app, !handed_over_app.
      destruct (stop_source_quiet (Session.state sys)) as (-> & -> & _).
      assert (∀ cue, cue = Quiz.CorrectSound ∨ cue = Quiz.IncorrectSound →
                armed (Quiz.play_sound (Session.state sys) cue) = []
                ∧ handed_over (Quiz.play_sound (Session.state sys) cue) = [])
        as Hcue.
      { intros cue [-> | ->]; unfold Quiz.play_sound;
          destruct (Quiz.audioContextRef _ && Quiz.gainNodeRef _); done. }
      destruct (Hcue (if bool_decide (choice = correctAnswer q)
                      then Quiz.CorrectSound else Quiz.IncorrectSound))
        as [-> ->]; [case_bool_decide; auto|].
      destruct Hinv as (Hindex & Horder & [(Hnone & Hlength & -> & ->)|Hlocked]).
      2: { destruct Hlocked as (selected & Hselected & Hnonempty & _).
           rewrite Hselected in Htruthy. simpl in Htruthy.
           by rewrite string_truthy_nonempty in Htruthy. }
      unfold progress_ok. cbn. split_and!; [done| |].
      * rewrite <- Hlength in Hq |- *. by apply (answered_in_order_snoc _ _ q).
      * right. exists choice. split_and!; [done| |by rewrite length_app, Hlength, Nat.add_1_r|].
        -- intros ->. unfold no_blank_option in Hblank.
           rewrite Forall_lookup in Hblank. by apply (Hblank _ _ Hq).
        -- left. done.
  - (* a timer fires *)
    destruct (Session.timers sys !! n) as [callback|] eqn:Hn; [|done].
    simpl in Hstep. injection Hstep as <-.
    match goal with
    | |- context [Session.after ?s ?r] => destruct (after_fields s r) as (-> & -> & -> & _)
    end.
    cbn [Session.timers Session.finished Session.state].
    pose proof (advancing_delete _ _ _ Hn) as Hdelete.
    destruct callback as [seenIndex newAnswers|]; simpl in Hdelete.
    + destruct Hdelete as (before & behind & Hpending & ->).
      destruct Hinv as (Hindex & Horder & [(_ & _ & Hnone & _)|Hlocked]).
      { rewrite Hnone in Hpending. by destruct before. }
      destruct Hlocked as (selected & Hselected & Hnonempty & Hlength
                           & [[Hone Hfinished]|(_ & Hnone & _)]).
      2: { rewrite Hnone in Hpending. by destruct before. }
      rewrite Hone in Hpending. rewrite Hfinished.
      destruct before as [|other before]; [|by destruct before].
      injection Hpending as <- <- <-. simpl.
      destruct (Z.of_nat _ <? _)%Z eqn:Hlast.
      * apply Z.ltb_lt in Hlast. unfold Quiz.question_changed. cbn [fst snd].
        rewrite armed_app, handed_over_app.
        match goal with
        | |- context [Quiz.stop_source ?s] => destruct (stop_source_quiet s) as (-> & -> & _)
        end.
        unfold progress_ok. cbn. split_and!; [lia|done|].
        left. split_and!; [done|lia|done|done].
      * apply Z.ltb_ge in Hlast. unfold progress_ok. cbn. split_and!; [done|done|].
        right. exists selected. split_and!; [done|done|done|].
        right. split_and!; [lia|done|done].
    + rewrite Hdelete. simpl. rewrite !app_nil_r.
      by apply (progress_ok_quiet props (Session.state sys)).
  - (* the play / pause button *)
    destruct (Quiz.language props); [|done..]. injection Hstep as <-.
    match goal with
    | |- context [Session.after ?s ?r] => destruct (after_fields s r) as (-> & -> & -> & _)
    end.
    destruct (handlePlayPauseToggle_quiet props (Session.state sys)) as (Hsame & -> & ->).
    rewrite !app_nil_r. by apply (progress_ok_quiet props (Session.state sys)).
  - (* a pronunciation settles *)
    destruct (Session.requests sys !! n) as [seenIndex|]; [|done].
    simpl in Hstep. injection Hstep as <-.
    match goal with
    | |- context [Session.after ?s ?r] => destruct (after_fields s r) as (-> & -> & -> & _)
    end.
    destruct (handlePlayPauseToggle_settled_quiet seenIndex outcome (Session.state sys))
      as (Hsame & -> & -> & _).
    cbn [Session.timers Session.finished]. rewrite !app_nil_r.
    by apply (progress_ok_quiet props (Session.state sys)).
  - (* a source ends *)
    destruct (Session.sounding sys); [done|]. injection Hstep as <-. simpl.
    by apply (progress_ok_quiet props (Session.state sys)).
  - (* the slider *)
    destruct (Quiz.language props); [|done..].
    destruct (Quiz.truthy_option _); [done|]. injection Hstep as <-.
    match goal with
    | |- context [Session.after ?s ?r] => destruct (after_fields s r) as (-> & -> & -> & _)
    end.
    destruct (handleVolumeChange_quiet newVolume (Session.state sys))
      as (Hsame & -> & -> & _).
    rewrite !app_nil_r. by apply (progress_ok_quiet props (Session.state sys)).
Qed.

Lemma quiz_progress_reachable props sys :
  Quiz.questions props ≠ [] →
  no_blank_option (Quiz.questions props) →
  Session.reachable props sys → quiz_progress props sys.
Proof.
  intros Hnonempty Hblank Hreach. induction Hreach as [|sys event sys' _ IH Hstep].
  - unfold quiz_progress, progress_ok. cbn. split_and!.
    + destruct (Quiz.questions props); [done|simpl; lia].
    + split; [done|constructor].
    + left. done.
  - by apply (step_progress props sys event sys').
Qed.


Lemma handleAnswerSelect_audio props (choice : string) st st' effects :
  Quiz.handleAnswerSelect props choice st = Some (st', effects) →
  requested effects = [] ∧ Quiz.isAudioLoading st' = Quiz.isAudioLoading st
  ∧ Quiz.audioCache st' = Quiz.audioCache st.
Proof.
  unfold Quiz.handleAnswerSelect. intros Hselect.
  destruct (Quiz.truthy_option (Quiz.selectedOption st)); [by simplify_eq|].
  destruct (Quiz.questions props !! Quiz.currentQuestionIndex st) as [q|]; [|done].
  simpl in Hselect. injection Hselect as <- <-.
  rewrite !requested_app. destruct (stop_source_quiet st) as (_ & _ & ->).
  unfold Quiz.play_sound.
  destruct (Quiz.audioContextRef st && Quiz.gainNodeRef st); [|done].
  by case_bool_decide.
Qed.

Lemma run_callback_audio props (callback : Quiz.Callback) st :
  let result := Quiz.run_callback props callback st in
  requested result.2 = [] ∧ Quiz.isAudioLoading result.1 = Quiz.isAudioLoading st
  ∧ Quiz.audioCache result.1 = Quiz.audioCache st.
Proof.
  unfold Quiz.run_callback, Quiz.question_changed, Quiz.stop_source.
  repeat case_match; simplify_eq; done.
Qed.

(** The play / pause button asks for a pronunciation only when none is
    being loaded and the audio of the current question is not cached. *)
Lemma handlePlayPauseToggle_audio props st :
  let result := Quiz.handlePlayPauseToggle props st in
  Quiz.audioCache result.1 = Quiz.audioCache st
  ∧ ((requested result.2 = [] ∧ Quiz.isAudioLoading result.1 = Quiz.isAudioLoading st)
     ∨ (Quiz.isAudioLoading st = false ∧ Quiz.isAudioLoading result.1 = true
        ∧ Quiz.audioCache st !! Quiz.currentQuestionIndex st = None
        ∧ ∃ text, requested result.2 = [text])).
Proof.
  unfold Quiz.handlePlayPauseToggle, Quiz.playAudioFromBuffer, Quiz.pronunciation_failed,
    Quiz.stop_source.
  destruct (Quiz.isAudioLoading st) eqn:Hloading; simpl; [by auto|].
  destruct (Quiz.truthy_option (Quiz.selectedOption st)); simpl; [by auto|].
  destruct (Quiz.isPlaying st); simpl.
  { destruct (Quiz.sourceNodeRef st); by auto. }
  destruct (Quiz.audioCache st !! Quiz.currentQuestionIndex st) as [buffer|] eqn:Hcache.
  { simpl. destruct (Quiz.audioContextRef st && Quiz.gainNodeRef st); simpl; [|by auto].
    destruct (Quiz.sourceNodeRef st); by auto. }
  simpl. destruct (Quiz.questions props !! Quiz.currentQuestionIndex st); simpl.
  - split; [done|]. right. split_and!; [done..|]. by eexists.
  - by auto.
Qed.

(** Every event keeps at most one pronunciation request in flight, and
    keeps what is cached. *)
Lemma step_one_request props sys (event : Session.Event) sys' :
  one_request sys →
  Session.step props sys event = Some sys' →
  one_request sys'
  ∧ ∀ (i : nat) (buffer : Quiz.AudioBuffer),
      Quiz.audioCache (Session.state sys) !! i = Some buffer →
      Quiz.audioCache (Session.state sys') !! i = Some buffer.
Proof.
  intros Hinv Hstep. unfold one_request in *.
  destruct event as [choice|n| |n outcome| |newVolume]; simpl in Hstep.
  - destruct (Quiz.questions props !! _) as [q|]; [|done]. simpl in Hstep.
    destruct (decide (choice ∈ options q)); [|done].
    destruct (Quiz.handleAnswerSelect props choice (Session.state sys))
      as [[st' effects]|] eqn:Hselect; [|done].
    simpl in Hstep. injection Hstep as <-.
    destruct (handleAnswerSelect_audio _ _ _ _ _ Hselect) as (Hquiet & Hloading & Hcache).
    destruct (after_fields sys (st', effects)) as (-> & _ & _ & ->).
    cbn [fst snd]. rewrite Hquiet, Hloading, Hcache. simpl. rewrite app_nil_r. done.
  - destruct (Session.timers sys !! n) as [callback|]; [|done].
    simpl in Hstep. injection Hstep as <-.
    destruct (run_callback_audio props callback (Session.state sys))
      as (Hquiet & Hloading & Hcache).
    match goal with
    | |- context [Session.after ?s ?r] => destruct (after_fields s r) as (-> & _ & _ & ->)
    end.
    rewrite Hquiet, Hloading, Hcache. simpl. rewrite app_nil_r. done.
  - destruct (Quiz.language props); [|done..]. injection Hstep as <-.
    destruct (handlePlayPauseToggle_audio props (Session.state sys)) as (Hcache & Hasked).
    match goal with
    | |- context [Session.after ?s ?r] => destruct (after_fields s r) as (-> & _ & _ & ->)
    end.
    rewrite Hcache. split; [|done].
    destruct Hasked as [[-> ->]|(Hidle & -> & Hmiss & text & ->)].
    + simpl. by rewrite app_nil_r.
    + right. destruct Hinv as [[-> _]|(? & _ & Hloading & _)]; [|congruence].
      eexists. split_and!; [reflexivity|done|done].
  - destruct (Session.requests sys !! n) as [seenIndex|] eqn:Hn; [|done].
    simpl in Hstep. injection Hstep as <-.
    destruct (handlePlayPauseToggle_settled_quiet seenIndex outcome (Session.state sys))
      as (_ & _ & _ & Hquiet & Hloading & Hcache).
    match goal with
    | |- context [Session.after ?s ?r] => destruct (after_fields s r) as (-> & _ & _ & ->)
    end.
    rewrite Hquiet, Hloading, Hcache. cbn [Session.requests].
    destruct Hinv as [[Hnone _]|(seen & Hone & _ & Hmiss)].
    { rewrite Hnone in Hn. done. }
    rewrite Hone in Hn |- *. destruct n as [|n]; [|done]. injection Hn as ->.
    split; [by left|]. intros i buffer Hi. destruct outcome; [done..|].
    rewrite lookup_insert_ne; [done|]. congruence.
  - destruct (Session.sounding sys); [done|]. injection Hstep as <-. done.
  - destruct (Quiz.language props); [|done..].
    destruct (Quiz.truthy_option _); [done|]. injection Hstep as <-.
    destruct (handleVolumeChange_quiet newVolume (Session.state sys))
      as (_ & _ & _ & Hquiet & Hloading & Hcache).
    match goal with
    | |- context [Session.after ?s ?r] => destruct (after_fields s r) as (-> & _ & _ & ->)
    end.
    rewrite Hquiet, Hloading, Hcache. simpl. rewrite app_nil_r. done.
Qed.

Lemma one_request_reachable props sys : Session.reachable props sys → one_request sys.
Proof.
  induction 1 as [|sys event sys' _ IH Hstep]; [by left|].
  by apply (step_one_request props sys event sys').
Qed.

End session.

Section quiz_at_work.
Implicit Types (props : Quiz.Props) (sys : Session.System).

Lemma play_snoc props (events : list Session.Event) (event : Session.Event) :
  play props (events ++ [event]) = play props events ≫= λ sys, Session.step props sys event.
Proof. unfold play. by rewrite foldl_app. Qed.

Lemma play_reachable props (events : list Session.Event) sys :
  play props events = Some sys → Session.reachable props sys.
Proof.
  revert sys. induction events as [|event events IH] using rev_ind; intros sys.
  - intros [= <-]. constructor.
  - rewrite play_snoc. destruct (play props events) as [before|]; simpl; [|done].
    intros Hstep. apply (Session.reachable_step props before event); [by apply IH|done].
Qed.

(** X14. As long as no option is the empty string, whatever the user does
    and whenever the timers and the audio events come, the quiz stays in
    step: the current question exists, the questions before it have one
    answer each, in order and each an option of its question, the current
    question has an answer exactly while an option is selected, and no
    click on an option throws. *)
Theorem quiz_stays_in_step props sys :
  Quiz.questions props ≠ [] →
  no_blank_option (Quiz.questions props) →
  Session.reachable props sys →
  let st := Session.state sys in
  Quiz.currentQuestionIndex st < length (Quiz.questions props)
  ∧ answered_in_order (Quiz.questions props) (Quiz.userAnswers st)
  ∧ length (Quiz.userAnswers st)
    = Quiz.currentQuestionIndex st + (if Quiz.selectedOption st is Some _ then 1 else 0)
  ∧ ∀ choice, is_Some (Quiz.handleAnswerSelect props choice st).
Proof.
  intros Hnonempty Hblank Hreach.
  destruct (quiz_progress_reachable props sys Hnonempty Hblank Hreach)
    as (Hindex & Horder & Hphase).
  simpl. split_and!; [done|done| |].
  - destruct Hphase as [(-> & -> & _)|(selected & -> & _ & -> & _)]; lia.
  - intros choice. unfold Quiz.handleAnswerSelect.
    destruct (Quiz.truthy_option _); [by eexists|].
    destruct (lookup_lt_is_Some_2 _ _ Hindex) as [q ->]. by eexists.
Qed.

(** X15. Under the same condition the screen calls [onFinish] at most once,
    and then with the answers of the whole quiz: one for every question, in
    the order of the questions, each an option of its question. *)
Theorem onFinish_once props sys :
  Quiz.questions props ≠ [] →
  no_blank_option (Quiz.questions props) →
  Session.reachable props sys →
  Session.finished sys = []
  ∨ ∃ answers,
      Session.finished sys = [answers]
      ∧ length answers = length (Quiz.questions props)
      ∧ answered_in_order (Quiz.questions props) answers.
Proof.
  intros Hnonempty Hblank Hreach.
  destruct (quiz_progress_reachable props sys Hnonempty Hblank Hreach)
    as (Hindex & Horder & Hphase).
  destruct Hphase as [(_ & _ & _ & ->)|(selected & _ & _ & Hlength & Hphase)]; [by left|].
  destruct Hphase as [[_ ->]|(Hlast & _ & ->)]; [by left|].
  right. eexists. split; [done|]. split; [lia|done].
Qed.

(** X16. At most one pronunciation request is in flight at any time, and
    the loading flag is up exactly while one is. *)
Theorem one_request_in_flight props sys :
  Session.reachable props sys →
  length (Session.requests sys) ≤ 1
  ∧ (Quiz.isAudioLoading (Session.state sys) = true ↔ Session.requests sys ≠ []).
Proof.
  intros Hreach.
  destruct (one_request_reachable props sys Hreach) as [[-> ->]|(seen & -> & -> & _)].
  - split; [simpl; lia|]. split; done.
  - split; [simpl; lia|]. split; done.
Qed.

(** X17. A decoded pronunciation stays in the cache for the rest of the
    quiz: no event drops or replaces it, and no request for the question it
    belongs to is in flight. *)
Theorem audioCache_kept props sys (i : nat) (buffer : Quiz.AudioBuffer) :
  Session.reachable props sys →
  Quiz.audioCache (Session.state sys) !! i = Some buffer →
  (i ∉ Session.requests sys)
  ∧ ∀ (event : Session.Event) sys',
      Session.step props sys event = Some sys' →
      Quiz.audioCache (Session.state sys') !! i = Some buffer.
Proof.
  intros Hreach Hcached.
  pose proof (one_request_reachable props sys Hreach) as Hone. split.
  - destruct Hone as [[-> _]|(seen & -> & _ & Hmiss)].
    + apply not_elem_of_nil.
    + intros ->%list_elem_of_singleton. congruence.
  - intros event sys' Hstep.
    by apply (step_one_request props sys event sys' Hone Hstep).
Qed.

Lemma answered_in_order_range (questions : list Question) (answers : list UserAnswer) :
  answered_in_order questions answers → length answers ≤ length questions →
  answers_in_range questions answers.
Proof.
  intros [Hindices _] Hlength.
  unfold answers_in_range. apply Forall_forall. intros ua Hua.
  assert (questionIndex ua ∈ questionIndex <$> answers) as Hin
    by (apply list_elem_of_fmap; by exists ua).
  rewrite Hindices in Hin. apply elem_of_seq in Hin. lia.
Qed.

(** What a quiz hands over can always be scored. *)
Lemma finished_quiz_scores props sys (answers : list UserAnswer) (language : Language) :
  array_sized (Quiz.questions props) →
  Quiz.questions props ≠ [] →
  no_blank_option (Quiz.questions props) →
  Session.reachable props sys →
  answers ∈ Session.finished sys →
  ∃ summary z,
    Results.ResultsScreen (Quiz.questions props) answers language = Some summary
    ∧ Results.correctAnswers summary ≤ length (Quiz.questions props)
    ∧ Results.score summary = JS.Number_of_Z z
    ∧ (0 ≤ z ≤ 100)%Z.
Proof.
  intros Hsized Hnonempty Hblank Hreach Hanswers.
  destruct (quiz_progress_reachable props sys Hnonempty Hblank Hreach)
    as (Hindex & Horder & Hphase).
  assert (answers = Quiz.userAnswers (Session.state sys)
          ∧ length answers = length (Quiz.questions props)) as [-> Hlength].
  { destruct Hphase as [(_ & _ & _ & Hnone)|(selected & _ & _ & Hlength & Hphase)].
    { rewrite Hnone in Hanswers. by apply elem_of_nil in Hanswers. }
    destruct Hphase as [[_ Hnone]|(Hlast & _ & Hone)].
    { rewrite Hnone in Hanswers. by apply elem_of_nil in Hanswers. }
    rewrite Hone in Hanswers. apply list_elem_of_singleton in Hanswers as ->.
    split; [done|lia]. }
  apply score_in_range; [done|done| |lia].
  apply answered_in_order_range; [done|lia].
Qed.

End quiz_at_work.

Lemma sample_quiz_no_blank : no_blank_option (Quiz.questions sample_quiz).
Proof. apply (bool_decide_eq_true_1 _). vm_compute. reflexivity. Qed.

Lemma quiz_stays_in_step_sample :
  ∃ sys,
    play sample_quiz sample_events = Some sys
    ∧ Quiz.currentQuestionIndex (Session.state sys) < 4
    ∧ answered_in_order sample_questions (Quiz.userAnswers (Session.state sys))
    ∧ length (Quiz.userAnswers (Session.state sys))
      = Quiz.currentQuestionIndex (Session.state sys)
        + (if Quiz.selectedOption (Session.state sys) is Some _ then 1 else 0)
    ∧ ∀ choice, is_Some (Quiz.handleAnswerSelect sample_quiz choice (Session.state sys)).
Proof.
  eexists. split; [vm_compute; reflexivity|].
  apply (quiz_stays_in_step sample_quiz).
  - discriminate.
  - exact sample_quiz_no_blank.
  - apply (play_reachable sample_quiz sample_events).
    vm_compute; reflexivity.
Defined.

Lemma onFinish_once_sample :
  ∃ sys,
    play sample_quiz whole_quiz = Some sys
    ∧ (Session.finished sys = []
       ∨ ∃ answers,
           Session.finished sys = [answers]
           ∧ length answers = 4
           ∧ answered_in_order sample_questions answers).
Proof.
  eexists. split; [vm_compute; reflexivity|].
  apply (onFinish_once sample_quiz).
  - discriminate.
  - exact sample_quiz_no_blank.
  - apply (play_reachable sample_quiz whole_quiz).
    vm_compute; reflexivity.
Defined.

Lemma one_request_in_flight_sample :
  ∃ sys,
    play sample_quiz [Session.Toggle] = Some sys
    ∧ length (Session.requests sys) ≤ 1
    ∧ (Quiz.isAudioLoading (Session.state sys) = true ↔ Session.requests sys ≠ []).
Proof.
  eexists. split; [vm_compute; reflexivity|].
  apply (one_request_in_flight sample_quiz).
  apply (play_reachable sample_quiz [Session.Toggle]).
    vm_compute; reflexivity.
Defined.

Lemma audioCache_kept_sample :
  ∃ sys,
    play sample_quiz listening = Some sys
    ∧ (0 ∉ Session.requests sys)
    ∧ ∀ (event : Session.Event) sys',
        Session.step sample_quiz sys event = Some sys' →
        Quiz.audioCache (Session.state sys') !! 0 = Some sample_buffer.
Proof.
  eexists. split; [vm_compute; reflexivity|].
  apply (audioCache_kept sample_quiz).
  - apply (play_reachable sample_quiz listening).
    vm_compute; reflexivity.
  - reflexivity.
Defined.

Section completing.
Implicit Types (props : Quiz.Props) (sys : Session.System) (choices : list string).

Lemma foldl_absorb_timers (seenIndex : nat) (effects : list Quiz.Effect) sys :
  Session.timers (foldl (Session.absorb seenIndex) sys effects)
  = timers_after (Session.timers sys) effects.
Proof.
  revert sys. induction effects as [|effect effects IH]; intros sys; simpl; [done|].
  rewrite IH. by destruct effect.
Qed.

Lemma play_from props (events events' : list Session.Event) :
  play props (events ++ events')
  = foldl (λ before event, before ≫= λ sys, Session.step props sys event)
      (play props events) events'.
Proof. unfold play. by rewrite foldl_app. Qed.

Lemma after_timers sys (result : Quiz.State * list Quiz.Effect) :
  Session.timers (Session.after sys result) = timers_after (Session.timers sys) result.2.
Proof. unfold Session.after. by rewrite foldl_absorb_timers. Qed.

(** The animation of the question ends. *)
Lemma fire_animation props sys :
  Session.timers sys = [Quiz.EndAnimation] →
  ∃ sys',
    Session.step props sys (Session.TimerFires 0) = Some sys'
    ∧ progress (Session.state sys') = progress (Session.state sys)
    ∧ Session.timers sys' = []
    ∧ Session.finished sys' = Session.finished sys.
Proof.
  intros Htimers. unfold Session.step. rewrite Htimers. simpl.
  eexists. split; [reflexivity|]. done.
Qed.

(** An option of the open question is clicked. *)
Lemma click_open props sys (choice : string) (q : Question) :
  let st := Session.state sys in
  let newAnswers :=
    Quiz.userAnswers st
    ++ [{| questionIndex := Quiz.currentQuestionIndex st; answer := choice |}] in
  Quiz.questions props !! Quiz.currentQuestionIndex st = Some q →
  choice ∈ options q →
  Quiz.selectedOption st = None →
  Session.timers sys = [] →
  ∃ sys',
    Session.step props sys (Session.Click choice) = Some sys'
    ∧ progress (Session.state sys')
      = (newAnswers, Quiz.currentQuestionIndex st, Some choice)
    ∧ Session.timers sys'
      = [Quiz.AdvanceOrFinish (Quiz.currentQuestionIndex st) newAnswers]
    ∧ Session.finished sys' = Session.finished sys.
Proof.
  intros st newAnswers Hq Hchoice Hopen Htimers. unfold Session.step.
  fold st. rewrite Hq. simpl. rewrite decide_True by done.
  unfold Quiz.handleAnswerSelect. rewrite Hopen, Hq. simpl.
  eexists. split; [reflexivity|].
  match goal with
  | |- context [Session.after sys ?r] =>
      destruct (after_fields sys r) as (-> & _ & -> & _);
      rewrite (after_timers sys r)
  end.
  rewrite Htimers. cbn [fst snd]. split; [reflexivity|].
  rewrite !handed_over_app.
  destruct (stop_source_quiet st) as (_ & -> & _).
  unfold Quiz.stop_source, Quiz.play_sound. fold newAnswers.
  repeat case_match; simpl; rewrite ?app_nil_r; done.
Qed.

(** The timer of the answer runs. *)
Lemma fire_advance props sys (newAnswers : list UserAnswer) :
  let st := Session.state sys in
  let index := Quiz.currentQuestionIndex st in
  Session.timers sys = [Quiz.AdvanceOrFinish index newAnswers] →
  ∃ sys',
    Session.step props sys (Session.TimerFires 0) = Some sys'
    ∧ Quiz.userAnswers (Session.state sys') = Quiz.userAnswers st
    ∧ if decide (index + 1 < length (Quiz.questions props))
      then Quiz.currentQuestionIndex (Session.state sys') = index + 1
           ∧ Quiz.selectedOption (Session.state sys') = None
           ∧ Session.timers sys' = [Quiz.EndAnimation]
           ∧ Session.finished sys' = Session.finished sys
      else Session.finished sys' = Session.finished sys ++ [newAnswers].
Proof.
  intros st index Htimers. unfold Session.step. rewrite Htimers. simpl.
  eexists. split; [reflexivity|]. fold st. fold index.
  match goal with
  | |- context [Session.after ?s ?r] =>
      destruct (after_fields s r) as (-> & _ & -> & _);
      rewrite (after_timers s r)
  end.
  cbn [Session.timers Session.finished].
  destruct (decide (index + 1 < length (Quiz.questions props))) as [Hnext|Hlast].
  - rewrite (proj2 (Z.ltb_lt _ _)) by lia.
    unfold Quiz.question_changed. cbn [fst snd]. rewrite handed_over_app.
    match goal with
    | |- context [Quiz.stop_source ?s] => destruct (stop_source_quiet s) as (_ & -> & _)
    end.
    unfold Quiz.stop_source. split; [reflexivity|]. split; [simpl; lia|].
    split; [reflexivity|]. split; [by case_match|]. simpl. by rewrite app_nil_r.
  - rewrite (proj2 (Z.ltb_ge _ _)) by lia. done.
Qed.

(** One question answered: from an open question whose animation timer is
    the one pending timer, the three events lead to the next question, open
    in the same way, or, on the last question, to the call of [onFinish]. *)
Lemma answer_one props sys (choice : string) (q : Question) :
  let st := Session.state sys in
  let index := Quiz.currentQuestionIndex st in
  let newAnswers := Quiz.userAnswers st ++ [{| questionIndex := index; answer := choice |}] in
  Quiz.questions props !! index = Some q → choice ∈ options q →
  Quiz.selectedOption st = None →
  Session.timers sys = [Quiz.EndAnimation] → Session.finished sys = [] →
  ∃ sys',
    foldl (λ before event, before ≫= λ sys, Session.step props sys event) (Some sys)
      [Session.TimerFires 0; Session.Click choice; Session.TimerFires 0]
    = Some sys'
    ∧ Quiz.userAnswers (Session.state sys') = newAnswers
    ∧ if decide (index + 1 < length (Quiz.questions props))
      then Quiz.currentQuestionIndex (Session.state sys') = index + 1
           ∧ Quiz.selectedOption (Session.state sys') = None
           ∧ Session.timers sys' = [Quiz.EndAnimation]
           ∧ Session.finished sys' = []
      else Session.finished sys' = [newAnswers].
Proof.
  intros st index newAnswers Hq Hchoice Hopen Htimers Hfinished.
  destruct (fire_animation props sys Htimers) as (sys1 & Hstep1 & Hsame & Htimers1 & Hfinished1).
  unfold progress in Hsame. injection Hsame as Hanswers1 Hindex1 Hopen1.
  destruct (click_open props sys1 choice q) as (sys2 & Hstep2 & Hclicked & Htimers2 & Hfinished2).
  { by rewrite Hindex1. }
  { done. }
  { by rewrite Hopen1. }
  { done. }
  unfold progress in Hclicked. injection Hclicked as Hanswers2 Hindex2 Hlocked2.
  rewrite Hanswers1, Hindex1 in Hanswers2, Htimers2. rewrite Hindex1 in Hindex2.
  fold st index newAnswers in Hanswers2, Htimers2, Hindex2.
  destruct (fire_advance props sys2 newAnswers) as (sys3 & Hstep3 & Hanswers3 & Hnext).
  { by rewrite Hindex2. }
  exists sys3. cbn [foldl mbind option_bind]. rewrite Hstep1.
  cbn [mbind option_bind]. rewrite Hstep2. cbn [mbind option_bind].
  split; [done|]. split; [congruence|].
  rewrite Hindex2 in Hnext. destruct (decide _).
  - destruct Hnext as (? & ? & ? & ->). split_and!; [done..|congruence].
  - rewrite Hnext, Hfinished2, Hfinished1, Hfinished. done.
Qed.

Lemma answering_cons (choice : string) choices :
  answering (choice :: choices)
  = [Session.TimerFires 0; Session.Click choice; Session.TimerFires 0] ++ answering choices.
Proof. done. Qed.

(** The rest of the quiz, from an open question on. *)
Lemma answer_rest props choices sys :
  let st := Session.state sys in
  choices ≠ [] →
  Forall2 (λ choice q, choice ∈ options q) choices
    (drop (Quiz.currentQuestionIndex st) (Quiz.questions props)) →
  Quiz.selectedOption st = None →
  Session.timers sys = [Quiz.EndAnimation] → Session.finished sys = [] →
  ∃ sys',
    foldl (λ before event, before ≫= λ sys, Session.step props sys event) (Some sys)
      (answering choices)
    = Some sys'
    ∧ Session.finished sys'
      = [Quiz.userAnswers st ++ answers_given (Quiz.currentQuestionIndex st) choices].
Proof.
  revert sys. induction choices as [|choice choices IH]; intros sys st Hnonempty; [done|].
  intros Hchoices Hopen Htimers Hfinished. subst st.
  set (index := Quiz.currentQuestionIndex (Session.state sys)) in *.
  destruct (drop index (Quiz.questions props)) as [|q questions] eqn:Hdrop;
    [by apply Forall2_nil_inv_r in Hchoices|].
  apply Forall2_cons_1 in Hchoices as [Hchoice Hchoices].
  assert (Quiz.questions props !! index = Some q) as Hq.
  { rewrite <- (Nat.add_0_r index), <- lookup_drop, Hdrop. done. }
  assert (drop (S index) (Quiz.questions props) = questions) as Hrest.
  { pose proof (drop_S _ _ _ Hq) as Hnext. rewrite Hdrop in Hnext. by injection Hnext. }
  destruct (answer_one props sys choice q Hq Hchoice Hopen Htimers Hfinished)
    as (sys1 & Hplayed & Hanswers & Hnext).
  rewrite answering_cons, foldl_app. fold index in Hplayed, Hanswers, Hnext.
  rewrite Hplayed.
  assert (length (Quiz.questions props) = index + S (length questions)) as Hlength.
  { pose proof (f_equal length Hdrop) as Hl. rewrite length_drop in Hl. simpl in Hl.
    apply lookup_lt_Some in Hq. lia. }
  destruct (decide (index + 1 < length (Quiz.questions props))) as [Hmore|Hlast].
  - destruct Hnext as (Hindex & Hopen1 & Htimers1 & Hfinished1).
    destruct (IH sys1) as (sys' & Hrun & Hdone).
    + intros ->. apply Forall2_nil_inv_l in Hchoices. subst questions. simpl in Hlength. lia.
    + rewrite Hindex, Nat.add_1_r, Hrest. done.
    + done.
    + done.
    + done.
    + exists sys'. split; [done|]. rewrite Hdone, Hanswers, Hindex.
      unfold answers_given. rewrite <- app_assoc. simpl. do 3 f_equal.
      * by rewrite Nat.add_0_r.
      * apply imap_ext. intros i c _. simpl. f_equal. lia.
  - assert (questions = []) as -> by (destruct questions; [done|simpl in Hlength; lia]).
    apply Forall2_nil_inv_r in Hchoices as ->. simpl.
    exists sys1. split; [done|]. rewrite Hnext. unfold answers_given. simpl.
    by rewrite Nat.add_0_r.
Qed.

(** X18. A quiz can always be completed, and what it hands over is what was
    clicked: when the user answers each question in turn with one of its
    options, each after the animation of the question has ended and with the
    timer of the answer running before the next click, no event is refused,
    and [onFinish] is called once, with exactly the chosen options, each
    under the index of its question. *)
Theorem quiz_can_be_completed props choices :
  Quiz.questions props ≠ [] →
  Forall2 (λ choice q, choice ∈ options q) choices (Quiz.questions props) →
  ∃ sys,
    play props (answering choices) = Some sys
    ∧ Session.finished sys = [answers_given 0 choices].
Proof.
  intros Hnonempty Hchoices. unfold play.
  destruct (answer_rest props choices Session.mounted) as (sys & Hrun & Hdone).
  - intros ->. apply Forall2_nil_inv_l in Hchoices. done.
  - done.
  - done.
  - done.
  - done.
  - exists sys. split; [done|]. by rewrite Hdone.
Qed.

End completing.

Lemma quiz_can_be_completed_sample :
  ∃ sys,
    play sample_quiz (answering ["a"; "b"; "c"; "x"]) = Some sys
    ∧ Session.finished sys
      = [[answered 0 "a"; answered 1 "b"; answered 2 "c"; answered 3 "x"]].
Proof.
  apply (quiz_can_be_completed sample_quiz ["a"; "b"; "c"; "x"]).
  - discriminate.
  - repeat constructor; apply (bool_decide_eq_true_1 _); reflexivity.
Defined.

(** ** The application: from the welcome screen to the result *)

Section application.
Implicit Types (env : Gemini.Environment) (st : App.State) (sys : App.System)
  (language : Language).

(** Every object that the service returns has passed its filter. *)
Lemma generateQuizQuestions_filtered env language (returned : list Gemini.Processed) :
  (Gemini.generateQuizQuestions env language).1 = Gemini.Fulfilled returned →
  Forall (λ p, Gemini.valid p = true) returned.
Proof.
  unfold Gemini.generateQuizQuestions, Gemini.try_block.
  destruct (Gemini.API_KEY env) as [key|]; [|done].
  destruct (JS.string_truthy key); [|done].
  destruct (Gemini.generateContent env language) as [[[text|]]|]; [|done..]. simpl.
  destruct (JS.string_truthy (JS.trim text)); [|done]. simpl.
  destruct (Gemini.JSON_parse env (JS.trim text)) as [parsed|]; [|done]. simpl.
  destruct (Gemini.as_array parsed) as [questions|]; [|done]. simpl.
  destruct (Gemini.processQuestions (Gemini.random env) questions 0) as [processed|];
    [|done]. simpl.
  intros [= <-]. apply Forall_forall. intros p Hp.
  by apply list_elem_of_filter in Hp as [Hvalid _].
Qed.

(** Taken for questions, they are well formed. *)
Lemma generateQuizQuestions_fulfilled env language (result : list Question) :
  Gemini.typed (Gemini.generateQuizQuestions env language).1
  = Some (Gemini.Fulfilled result) →
  Forall well_formed result.
Proof.
  destruct (Gemini.generateQuizQuestions env language).1 as [returned|message]
    eqn:Houtcome; [|done].
  apply generateQuizQuestions_filtered in Houtcome. simpl.
  destruct (mapM Gemini.as_Question returned) as [questions|] eqn:Htyped; [|done].
  intros [= <-]. apply mapM_Some in Htyped.
  apply Forall_forall. intros q Hq.
  apply list_elem_of_lookup in Hq as [i Hi].
  destruct (Forall2_lookup_r _ _ _ _ _ Htyped Hi) as (p & Hp & Hread).
  apply (as_Question_well_formed p q); [|done].
  by apply (Forall_lookup_1 _ _ _ _ Houtcome Hp).
Qed.

Lemma generateQuizQuestions_rejected env language (message : string) :
  Gemini.typed (Gemini.generateQuizQuestions env language).1
  = Some (Gemini.Rejected message) →
  message = Gemini.missing_key_message ∨ message = Gemini.failure_message.
Proof.
  unfold Gemini.generateQuizQuestions.
  destruct (Gemini.API_KEY env) as [key|]; [|intros [= <-]; by left].
  destruct (JS.string_truthy key); [|intros [= <-]; by left].
  destruct (Gemini.try_block env _) as [returned|]; simpl.
  - by destruct (mapM Gemini.as_Question returned).
  - intros [= <-]. by right.
Qed.

(** How a pending call of [handleStart] ends, given how the service ended
    and whatever state the application is in by then. *)
Lemma handleStart_settled_cases (outcome : Gemini.Promise (list Question)) st :
  let st' := (App.handleStart_settled outcome st).1 in
  (∃ newQuestions,
     outcome = Gemini.Fulfilled newQuestions ∧ newQuestions ≠ []
     ∧ st' = {| App.quizState := App.QUIZ; App.questions := newQuestions;
                App.userAnswers := []; App.error := App.error st;
                App.language := App.language st |})
  ∨ (∃ message,
       (outcome = Gemini.Rejected message
        ∨ outcome = Gemini.Fulfilled [] ∧ message = App.empty_list_message)
       ∧ st' = {| App.quizState := App.WELCOME; App.questions := App.questions st;
                  App.userAnswers := App.userAnswers st; App.error := Some message;
                  App.language := App.language st |}).
Proof.
  destruct outcome as [newQuestions|message]; simpl.
  - destruct newQuestions as [|q newQuestions]; simpl.
    + right. eexists. split; [right; done|done].
    + left. eexists. done.
  - right. exists message. split; [by left|done].
Qed.

Lemma handleStart_settles env language st :
  fst <$> App.handleStart env language st
  = (λ outcome, (App.handleStart_settled outcome (App.handleStart_begin language st)).1)
    <$> Gemini.typed (Gemini.generateQuizQuestions env language).1.
Proof.
  unfold App.handleStart.
  destruct (Gemini.generateQuizQuestions env language) as [outcome effects]. simpl.
  destruct (Gemini.typed outcome) as [taken|]; [|done]. simpl.
  by destruct (App.handleStart_settled taken (App.handleStart_begin language st)).
Qed.

(** X19. A start ends in one of two ways (the objects that the service
    returns being questions, which is what the application takes them for).
    When the service returns at least one question, the quiz is on, with
    those questions (each with 4 options, its correct answer among them), no
    answers and no error. Otherwise the welcome screen is back with a
    message: the one of the service when it rejects (about the key or about
    the communication), or the one about the empty list when it returns no
    question; the questions and answers the state held are left as they
    were. *)
Theorem handleStart_outcomes env language st (outcome : Gemini.Promise (list Question)) :
  Gemini.typed (Gemini.generateQuizQuestions env language).1 = Some outcome →
  ∃ st' effects,
    App.handleStart env language st = Some (st', effects)
    ∧ ((∃ newQuestions,
          outcome = Gemini.Fulfilled newQuestions
          ∧ newQuestions ≠ [] ∧ Forall well_formed newQuestions
          ∧ st' = {| App.quizState := App.QUIZ; App.questions := newQuestions;
                     App.userAnswers := []; App.error := None;
                     App.language := Some language |})
       ∨ (∃ message,
            (outcome = Gemini.Rejected message
             ∧ (message = "API_KEY environment variable not set."
                ∨ message
                  = "Failed to communicate with the AI model. Please check your API key and try again.")
             ∨ outcome = Gemini.Fulfilled []
               ∧ message = "Failed to generate questions. The AI returned an empty list.")
            ∧ st' = {| App.quizState := App.WELCOME; App.questions := App.questions st;
                       App.userAnswers := App.userAnswers st; App.error := Some message;
                       App.language := Some language |})).
Proof.
  intros Htyped. pose proof (handleStart_settles env language st) as Hsettles.
  rewrite Htyped in Hsettles. simpl in Hsettles.
  destruct (App.handleStart env language st) as [[st' effects]|]; [|done].
  injection Hsettles as ->. eexists _, effects. split; [reflexivity|].
  destruct (handleStart_settled_cases outcome (App.handleStart_begin language st))
    as [(newQuestions & Houtcome & Hnonempty & ->)
       |(message & [Houtcome|[Houtcome ->]] & ->)].
  - left. exists newQuestions. split_and!; [done|done| |done].
    apply (generateQuizQuestions_fulfilled env language). by rewrite Htyped, Houtcome.
  - right. exists message. split; [|done]. left. split; [done|].
    apply (generateQuizQuestions_rejected env language). by rewrite Htyped, Houtcome.
  - right. eexists. split; [|done]. right. done.
Qed.

(** Rendering leaves the state as it is, or makes the call of
    [handleRestart]. *)
Lemma rendered_cases st :
  App.rendered st = st ∨ App.rendered st = App.handleRestart st.
Proof.
  unfold App.rendered, App.renderContent.
  destruct (App.quizState st); [by left|by left| |];
    (destruct (App.language st); [by left|by right]).
Qed.

(** Rendering a state that a handler leaves. *)
Lemma rendered_ok st (pending : list Language) :
  shown_ok st pending →
  app_ok {| App.state := App.rendered st; App.pending := pending |}.
Proof.
  intros Hshown. unfold app_ok. simpl.
  destruct (rendered_cases st) as [Hsame|Hrestart].
  - by rewrite !Hsame.
  - by rewrite Hrestart.
Qed.

Lemma step_app_ok sys (event : App.Event) sys' :
  app_ok sys → App.step sys event = Some sys' → app_ok sys'.
Proof.
  intros _ Hstep. destruct event as [language|n env|answers|]; simpl in Hstep.
  - (* a call of [handleStart] *)
    injection Hstep as <-. apply rendered_ok. unfold shown_ok. simpl.
    by destruct (App.pending sys).
  - (* a pending call resumes *)
    destruct (App.pending sys !! n) as [language|]; [|done]. simpl in Hstep.
    destruct (Gemini.typed (Gemini.generateQuizQuestions env language).1)
      as [outcome|] eqn:Htyped; [|done].
    injection Hstep as <-. apply rendered_ok.
    destruct (handleStart_settled_cases outcome (App.state sys))
      as [(newQuestions & Houtcome & Hnonempty & ->)|(message & _ & ->)].
    + unfold shown_ok. simpl. split_and!; [done| |done].
      apply (generateQuizQuestions_fulfilled env language). by rewrite Htyped, Houtcome.
    + done.
  - injection Hstep as <-. by apply rendered_ok.
  - injection Hstep as <-. by apply rendered_ok.
Qed.

Lemma app_ok_reachable sys : App.reachable sys → app_ok sys.
Proof.
  induction 1 as [|sys event sys' _ IH Hstep]; [done|].
  by apply (step_app_ok sys event sys').
Qed.

Lemma run_snoc (events : list App.Event) (event : App.Event) :
  run (events ++ [event]) = run events ≫= λ sys, App.step sys event.
Proof. unfold run. by rewrite foldl_app. Qed.

Lemma run_reachable (events : list App.Event) sys :
  run events = Some sys → App.reachable sys.
Proof.
  revert sys. induction events as [|event events IH] using rev_ind; intros sys.
  - intros [= <-]. constructor.
  - rewrite run_snoc. destruct (run events) as [before|]; simpl; [|done].
    intros Hstep. apply (App.reachable_step before event); [by apply IH|done].
Qed.

(** X20. Whichever handlers have run, and in whatever order the pending
    calls of [handleStart] have resumed (a timer of a quiz screen that is
    no longer shown may call [handleFinish] at any time; the objects that
    the service returns being questions, which is what the application
    takes them for), what the application renders between two events is
    sound in this much: it is never the blank of the restart fallback,
    whose call of [handleRestart] has then been made, so that rendering
    leaves the state as it is; a quiz
    screen is only shown with at least one question, each question with 4
    options and its correct answer among them, and with no answers yet; and
    the loading screen is only shown while a call of [handleStart] is
    waiting for the service. *)
Theorem app_renders_well_formed sys :
  App.reachable sys →
  let st := App.state sys in
  (App.renderContent st).2 = st
  ∧ match (App.renderContent st).1 with
    | App.QuizScreen props =>
        Quiz.questions props ≠ [] ∧ Forall well_formed (Quiz.questions props)
        ∧ App.userAnswers st = []
    | App.LoadingScreen => App.pending sys ≠ []
    | App.WelcomeScreen _ | App.ResultsScreen _ _ _ => True
    | App.Blank => False
    end.
Proof.
  intros Hreach st. destruct (app_ok_reachable sys Hreach) as [Hrendered Hshown].
  fold st in Hrendered, Hshown. split; [exact Hrendered|].
  unfold App.rendered in Hrendered. unfold shown_ok in Hshown.
  unfold App.renderContent in Hrendered |- *.
  destruct (App.quizState st) eqn:Hstate; [done|done| |].
  - destruct (App.language st) as [language|]; [done|].
    simpl in Hrendered. rewrite <- Hrendered in Hstate. done.
  - destruct (App.language st) as [language|]; [done|].
    simpl in Hrendered. rewrite <- Hrendered in Hstate. done.
Qed.

(** X21. From the quiz to the result: when the quiz screen the application
    shows (with questions none of whose options is empty) calls [onFinish],
    the application shows the result of that quiz for those answers, and the
    result can be computed: the results screen does not throw, counts no
    more correct answers than there are questions, and shows a whole score
    between 0 and 100. *)
Theorem quiz_to_results sys (props : Quiz.Props) (screen : Session.System)
    (answers : list UserAnswer) :
  App.reachable sys →
  (App.renderContent (App.state sys)).1 = App.QuizScreen props →
  array_sized (Quiz.questions props) →
  no_blank_option (Quiz.questions props) →
  Session.reachable props screen →
  answers ∈ Session.finished screen →
  ∃ sys' summary z,
    App.step sys (App.Finishes answers) = Some sys'
    ∧ (App.renderContent (App.state sys')).1
      = App.ResultsScreen (Quiz.questions props) answers (Quiz.language props)
    ∧ Results.ResultsScreen (Quiz.questions props) answers (Quiz.language props)
      = Some summary
    ∧ Results.correctAnswers summary ≤ length (Quiz.questions props)
    ∧ Results.score summary = JS.Number_of_Z z
    ∧ (0 ≤ z ≤ 100)%Z.
Proof.
  intros Hreach Hscreen Hsized Hblank Hsession Hanswers.
  destruct (app_ok_reachable sys Hreach) as [_ Hshown].
  unfold shown_ok in Hshown. unfold App.renderContent in Hscreen.
  destruct (App.quizState (App.state sys)) eqn:Hstate; try done.
  2: { by destruct (App.language (App.state sys)). }
  destruct (App.language (App.state sys)) as [language|] eqn:Hlanguage; [|done].
  injection Hscreen as <-. simpl in *. destruct Hshown as (Hnonempty & _).
  destruct (finished_quiz_scores
              {| Quiz.questions := App.questions (App.state sys);
                 Quiz.language := language |}
              screen answers language) as (summary & z & Hsummary); [done..|].
  eexists _, summary, z. split; [reflexivity|]. split; [|exact Hsummary].
  unfold App.rendered, App.renderContent. simpl. rewrite Hlanguage. simpl.
  by rewrite Hlanguage.
Qed.

End application.

(** ** The quiz runner: feedback and playback *)

Section feedback.
Implicit Types (props : Quiz.Props) (st : Quiz.State).

(** X22. The sound and the colours agree. When an option (not the empty
    string) is chosen on an open question, with the audio set up, the
    correct cue plays exactly when the button of the chosen option turns
    green, and the incorrect cue exactly when it turns red; the button of
    the correct answer is green either way, and every other button is
    dimmed. *)
Theorem feedback_agrees props st (choice : string) (currentQuestion : Question) :
  Quiz.selectedOption st = None →
  Quiz.questions props !! Quiz.currentQuestionIndex st = Some currentQuestion →
  Quiz.audioContextRef st = true → Quiz.gainNodeRef st = true →
  choice ≠ "" →
  ∃ st' effects,
    Quiz.handleAnswerSelect props choice st = Some (st', effects)
    ∧ (Quiz.CorrectSound ∈ effects
       ↔ Quiz.getButtonClass currentQuestion (Quiz.selectedOption st') choice
         = "bg-green-500/80")
    ∧ (Quiz.IncorrectSound ∈ effects
       ↔ Quiz.getButtonClass currentQuestion (Quiz.selectedOption st') choice
         = "bg-red-500/80")
    ∧ Quiz.getButtonClass currentQuestion (Quiz.selectedOption st')
        (correctAnswer currentQuestion)
      = "bg-green-500/80"
    ∧ ∀ other, other ≠ choice → other ≠ correctAnswer currentQuestion →
        Quiz.getButtonClass currentQuestion (Quiz.selectedOption st') other
        = "bg-slate-800 opacity-60".
Proof.
  intros Hopen Hquestion Hcontext Hgain Hchoice.
  unfold Quiz.handleAnswerSelect, Quiz.play_sound.
  rewrite Hopen, Hquestion, Hcontext, Hgain. simpl.
  eexists _, _. split; [reflexivity|]. unfold Quiz.getButtonClass. simpl.
  rewrite (string_truthy_nonempty choice Hchoice). simpl.
  assert (∀ cue, cue ∈ Quiz.stop_source st → cue = Quiz.SourceStop) as Hstop.
  { intros cue. unfold Quiz.stop_source. destruct (Quiz.sourceNodeRef st).
    - by intros ->%list_elem_of_singleton.
    - by intros ?%elem_of_nil. }
  split_and!.
  - rewrite elem_of_app, elem_of_cons, list_elem_of_singleton.
    case_bool_decide as Hright.
    + split; [done|]. intros _. right. by left.
    + rewrite bool_decide_true by done. simpl. split; [|done].
      intros [Hin|[Hcue|Hcue]]; [by apply Hstop in Hin|done..].
  - rewrite elem_of_app, elem_of_cons, list_elem_of_singleton.
    case_bool_decide as Hright.
    + split; [|done]. intros [Hin|[Hcue|Hcue]]; [by apply Hstop in Hin|done..].
    + rewrite bool_decide_true by done. simpl. split; [done|]. intros _. right. by left.
  - by rewrite bool_decide_true.
  - intros other Hother Hwrong. rewrite bool_decide_false by done.
    rewrite bool_decide_false by congruence. done.
Qed.

(** X23. Playing what is cached. On an open question with the audio of the
    question in the cache and nothing playing or loading, the play button
    starts the cached buffer without asking the service; pressed again while
    it plays, it stops the source and nothing else; and when the source
    ends, the screen is in the state it was in before. *)
Theorem cached_playback_round_trip props st (buffer : Quiz.AudioBuffer) :
  Quiz.isAudioLoading st = false →
  Quiz.truthy_option (Quiz.selectedOption st) = false →
  Quiz.isPlaying st = false → Quiz.sourceNodeRef st = None →
  Quiz.audioContextRef st = true → Quiz.gainNodeRef st = true →
  Quiz.audioCache st !! Quiz.currentQuestionIndex st = Some buffer →
  ∃ playing,
    Quiz.handlePlayPauseToggle props st = (playing, [Quiz.SourceStart buffer])
    ∧ Quiz.isPlaying playing = true
    ∧ Quiz.handlePlayPauseToggle props playing = (playing, [Quiz.SourceStop])
    ∧ Quiz.source_ended playing = st.
Proof.
  intros Hloading Hopen Hplaying Hsource Hcontext Hgain Hcached.
  unfold Quiz.handlePlayPauseToggle at 1, Quiz.playAudioFromBuffer, Quiz.stop_source.
  rewrite Hloading, Hopen, Hplaying. simpl.
  rewrite Hcached, Hcontext, Hgain, Hsource. simpl.
  eexists. split; [reflexivity|]. split; [reflexivity|]. split.
  - unfold Quiz.handlePlayPauseToggle, Quiz.stop_source. simpl.
    by rewrite Hloading, Hopen.
  - unfold Quiz.source_ended. destruct st. simpl in *. by subst.
Qed.

End feedback.

(** ** The progress bar *)

Section progress_bar.
#[local] Open Scope Z_scope.

(** A count divided by itself is 1, in doubles too. *)
Lemma Number_div_self (n : nat) :
  0 < Z.of_nat n < 2 ^ 53 →
  (JS.Number_of_nat n / JS.Number_of_nat n)%float = 1%float.
Proof.
  intros Hn.
  destruct (Number_of_nat_spec n Hn) as (m & e & Hnumber & Hm & He & _).
  apply Prim2SF_inj. rewrite FloatAxioms.div_spec, Hnumber.
  destruct (SF64div_spec m m e e Hm Hm) as (m' & j & -> & Hm' & Hj & Hnear); [lia|].
  change (2 ^ 52) with 4503599627370496 in *.
  change (2 ^ 53) with 9007199254740992 in *.
  assert (j = 0 ∨ j = 1 ∨ j = 2) as [->|[->| ->]] by lia.
  - exfalso. change (2 ^ 0) with 1 in Hnear.
    assert (2 * (Z.pos m' * Z.pos m) - 2 * (Z.pos m * 9007199254740992)
            = (2 * Z.pos m' - 18014398509481984) * Z.pos m) as Heq by ring.
    assert ((2 * Z.pos m' - 18014398509481984) * Z.pos m <= -2 * Z.pos m)
      by (apply Z.mul_le_mono_nonneg_r; lia).
    lia.
  - change (2 ^ 1) with 2 in Hnear.
    assert (Z.pos m' = 4503599627370496) as Hone.
    { destruct (Z.lt_trichotomy (Z.pos m') 4503599627370496) as [Hlt|[Heq|Hgt]];
        [lia|done|].
      exfalso.
      assert (1 * Z.pos m <= (Z.pos m' - 4503599627370496) * Z.pos m)
        by (apply Z.mul_le_mono_nonneg_r; lia).
      lia. }
    injection Hone as ->. replace (e - e - 53 + 1) with (-52) by lia. reflexivity.
  - exfalso. change (2 ^ 2) with 4 in Hnear.
    assert (2251799813685248 * Z.pos m <= (Z.pos m' - 2251799813685248) * Z.pos m)
      by (apply Z.mul_le_mono_nonneg_r; lia).
    lia.
Qed.

(** The percentage of two counts as a double, with what its two roundings
    leave: [my] is the mantissa of the quotient, [mx] that of the product. *)
Lemma percentage_finite (c n : nat) :
  0 < Z.of_nat c < 2 ^ 32 → 0 < Z.of_nat n < 2 ^ 32 →
  ∃ (my mx : positive) (ex A B J : Z),
    Prim2SF (percentage c n) = S754_finite false mx ex
    ∧ 4503599627370496 <= Z.pos my
    ∧ 4503599627370496 <= Z.pos mx < 9007199254740992
    ∧ 0 < A ∧ 0 < B ∧ 0 < J <= 18014398509481984
    ∧ ex < 0
    ∧ 2 ^ (- ex) * A * J = B * 70368744177664
    ∧ - (Z.of_nat n * A) <= 2 * (Z.pos my * (Z.of_nat n * A) - Z.of_nat c * B)
      <= Z.of_nat n * A
    ∧ - J <= 2 * (Z.pos mx * J - Z.pos my * 7036874417766400) <= J.
Proof.
  intros Hc Hn. change (2 ^ 32) with 4294967296 in *.
  destruct (Number_of_nat_spec c) as (m1 & e1 & Hc_spec & Hm1 & He1 & Hm1c);
    [change (2 ^ 53) with 9007199254740992; lia|].
  destruct (Number_of_nat_spec n) as (m2 & e2 & Hn_spec & Hm2 & He2 & Hm2n);
    [change (2 ^ 53) with 9007199254740992; lia|].
  destruct (SF64div_spec m1 m2 e1 e2 Hm1 Hm2 ltac:(lia)) as (my & j & Hdiv & Hmy & Hj & Hy).
  destruct (SF64mul_spec my 7036874417766400 (e1 - e2 - 53 + j) (-46) Hmy
              ltac:(change (2 ^ 52) with 4503599627370496;
                    change (2 ^ 53) with 9007199254740992; lia) ltac:(lia))
    as (mx & j' & Hmul & Hmx & Hj' & Hx).
  set (ex := e1 - e2 - 53 + j + -46 + j') in *.
  set (A := 2 ^ (j - e2)).
  set (B := 2 ^ (53 - e1)).
  set (J := 2 ^ j') in *.
  assert (0 < A) as HA by (apply Z.pow_pos_nonneg; lia).
  assert (0 < B) as HB by (apply Z.pow_pos_nonneg; lia).
  assert (0 < J) as HJ by (apply Z.pow_pos_nonneg; lia).
  assert (2 ^ j * Z.pos m2 = Z.of_nat n * A) as HnA.
  { rewrite Hm2n. unfold A. replace (j - e2) with (j + - e2) by lia.
    rewrite Z.pow_add_r by lia. ring. }
  assert (Z.pos m1 * 2 ^ 53 = Z.of_nat c * B) as HcB.
  { rewrite Hm1c. unfold B. replace (53 - e1) with (- e1 + 53) by lia.
    rewrite Z.pow_add_r by lia. ring. }
  rewrite HnA, HcB in Hy.
  change (2 ^ 52) with 4503599627370496 in *. change (2 ^ 53) with 9007199254740992 in *.
  assert (J <= 18014398509481984) as HJmax.
  { unfold J. change 18014398509481984 with (2 ^ 54). apply Z.pow_le_mono_r; lia. }
  assert (0 < Z.of_nat n * A) as HnApos by (apply Z.mul_pos_pos; lia).
  assert (4503599627370496 * A < 8589934592 * B) as HAB.
  { assert (1 * A <= Z.of_nat n * A) as H1 by (apply Z.mul_le_mono_nonneg_r; lia).
    assert (Z.of_nat c * B < 4294967296 * B) as H2 by (apply Z.mul_lt_mono_pos_r; lia).
    assert (4503599627370496 * (Z.of_nat n * A) <= Z.pos my * (Z.of_nat n * A)) as H3
      by (apply Z.mul_le_mono_nonneg_r; lia).
    lia. }
  assert (ex < 0) as Hex.
  { assert (52 + (j - e2) < 33 + (53 - e1)) as Hexp.
    { apply (Z.pow_lt_mono_r_iff 2); [lia|lia|].
      rewrite !Z.pow_add_r by lia. fold A B.
      change (2 ^ 52) with 4503599627370496. change (2 ^ 33) with 8589934592. exact HAB. }
    unfold ex. lia. }
  exists my, mx, ex, A, B, J. split_and!; try lia; try assumption.
  - unfold percentage.
    rewrite FloatAxioms.mul_spec, FloatAxioms.div_spec, Hc_spec, Hn_spec, Prim2SF_100.
    fold SF64div. rewrite Hdiv. exact Hmul.
  - change 70368744177664 with (2 ^ 46). unfold A, J, B.
    rewrite <- !Z.pow_add_r by lia. f_equal. unfold ex. lia.
Qed.

(** What the two roundings leave of a proper part: the mantissa of the
    product, on the scale [G] of its exponent, against that of 100. *)
Lemma percentage_mantissa (c n my mx A B J G : Z) :
  0 < c → c < n → n < 4294967296 →
  4503599627370496 <= my → 0 < mx →
  0 < A → 0 < B → 0 < J <= 18014398509481984 → 0 < G →
  G * A * J = B * 70368744177664 →
  2 * (my * (n * A) - c * B) <= n * A →
  2 * (mx * J - my * 7036874417766400) <= J →
  mx * 70368744177664 <= 7036874417766400 * G.
Proof.
  intros Hc Hcn Hn Hmy Hmx HA HB HJ HG Hrel Hy Hx.
  assert (0 < n * A) as HnA by (apply Z.mul_pos_pos; lia).
  (* the scale of the quotient: A is below B by 52 binary places *)
  assert (9007199254740991 * A <= 2 * B) as HAB.
  { assert (9007199254740991 * (n * A) <= (2 * my - 1) * (n * A)) as H1
      by (apply Z.mul_le_mono_nonneg_r; lia).
    assert (c * B <= n * B) as H2 by (apply Z.mul_le_mono_nonneg_r; lia).
    apply (Z.mul_le_mono_pos_r _ _ n); [lia|]. lia. }
  (* the product, against 100 times the divisor *)
  assert (mx * J * (n * A) <= 7036874417766400 * (n * B)) as Hproduct.
  { assert (2 * (mx * J) * (n * A) <= (2 * (my * 7036874417766400) + J) * (n * A)) as H1
      by (apply Z.mul_le_mono_nonneg_r; lia).
    assert (c * B <= (n - 1) * B) as H3 by (apply Z.mul_le_mono_nonneg_r; lia).
    assert (J * (n * A) <= 18014398509481984 * (n * A)) as H4
      by (apply Z.mul_le_mono_nonneg_r; lia).
    assert (n * A <= 4294967296 * A) as H5 by (apply Z.mul_le_mono_nonneg_r; lia).
    lia. }
  (* the same without the scales *)
  assert (0 < J * (n * A)) as HJnA by (apply Z.mul_pos_pos; lia).
  apply (Z.mul_le_mono_pos_r _ _ (J * (n * A))); [exact HJnA|].
  assert (7036874417766400 * G * (J * (n * A))
          = 7036874417766400 * (n * (G * A * J))) as -> by ring.
  rewrite Hrel.
  assert (mx * 70368744177664 * (J * (n * A))
          = 70368744177664 * (mx * J * (n * A))) as -> by ring.
  assert (7036874417766400 * (n * (B * 70368744177664))
          = 70368744177664 * (7036874417766400 * (n * B))) as -> by ring.
  apply Z.mul_le_mono_nonneg_l; [lia|exact Hproduct].
Qed.

(** The order of two positive finite doubles, read on exponent and mantissa. *)
Lemma SFleb_finite_below (m1 m2 : positive) (e1 e2 : Z) :
  e1 < e2 ∨ (e1 = e2 ∧ Z.pos m1 <= Z.pos m2) →
  SFleb (S754_finite false m1 e1) (S754_finite false m2 e2) = true.
Proof.
  intros Hbelow. unfold SFleb, SFcompare.
  destruct (Z.compare_spec e1 e2) as [Heq|Hlt|Hgt]; [|reflexivity|lia].
  destruct Hbelow as [?|[_ Hm]]; [lia|].
  change (Pos.compare_cont Eq m1 m2) with (Pos.compare m1 m2).
  destruct (Pos.compare_spec m1 m2) as [?|?|Hgt]; [reflexivity..|].
  apply Pos2Z.pos_lt_pos in Hgt. lia.
Qed.

(** A proper part of the whole is above 0 and at most 100 percent, in
    doubles too. *)
Lemma percentage_at_most_100 (c n : nat) :
  0 < Z.of_nat c → Z.of_nat c < Z.of_nat n → Z.of_nat n < 4294967296 →
  (0 <? percentage c n)%float = true ∧ (percentage c n <=? 100)%float = true.
Proof.
  intros Hc Hcn Hn.
  destruct (percentage_finite c n)
    as (my & mx & ex & A & B & J & Hspec & Hmy & Hmx & HA & HB & HJ & Hex & Hrel & Hy & Hx);
    [change (2 ^ 32) with 4294967296; lia..|].
  split.
  { rewrite FloatAxioms.ltb_spec, Hspec. reflexivity. }
  rewrite FloatAxioms.leb_spec, Hspec, Prim2SF_100.
  assert (0 < 2 ^ (- ex)) as HG by (apply Z.pow_pos_nonneg; lia).
  pose proof (percentage_mantissa (Z.of_nat c) (Z.of_nat n) (Z.pos my) (Z.pos mx)
                A B J (2 ^ (- ex)) Hc Hcn Hn Hmy ltac:(lia) HA HB HJ HG Hrel
                (proj2 Hy) (proj2 Hx)) as Hbound.
  clear Hspec Hrel Hy Hx HA HB HJ Hc Hcn Hn.
  apply SFleb_finite_below.
  (* a higher binade than that of 100 would make the product 128 at least *)
  assert (ex <= -46) as Hbinade.
  { apply Z.nlt_ge. intros Hgt.
    assert (2 ^ (- ex) <= 35184372088832) as HGmax.
    { change 35184372088832 with (2 ^ 45). apply Z.pow_le_mono_r; lia. }
    clear - Hbound HGmax Hmx. lia. }
  destruct (decide (ex = -46)) as [Heq|Hlower]; [right|left; lia].
  (* in the binade of 100 the mantissas decide *)
  split; [exact Heq|].
  rewrite Heq in Hbound. change (2 ^ (- -46)) with 70368744177664 in Hbound.
  clear - Hbound. lia.
Qed.

(** X24. The progress bar stays in its track and is full at the end: on
    every question of a quiz the width the quiz screen asks for,
    [((index + 1) / total) * 100] in doubles, is above 0 and at most 100,
    and on the last question it is exactly 100. *)
Theorem ProgressBar_width (props : Quiz.Props) (st : Quiz.State) :
  array_sized (Quiz.questions props) →
  (Quiz.currentQuestionIndex st < length (Quiz.questions props))%nat →
  let width := ProgressBar.rendered props st in
  (0 <? width)%float = true
  ∧ (width <=? 100)%float = true
  ∧ ((Quiz.currentQuestionIndex st + 1)%nat = length (Quiz.questions props) →
     width = 100%float).
Proof.
  unfold array_sized, ProgressBar.rendered, ProgressBar.percentage.
  intros Hsized Hindex. simpl.
  set (current := (Quiz.currentQuestionIndex st + 1)%nat).
  set (total := length (Quiz.questions props)) in *.
  assert ((current = total → (JS.Number_of_nat current / JS.Number_of_nat total * 100)%float
                             = 100%float)) as Hfull.
  { intros ->. rewrite Number_div_self; [reflexivity|].
    change (2 ^ 32) with 4294967296 in Hsized. change (2 ^ 53) with 9007199254740992.
    lia. }
  destruct (decide (current = total)) as [Hlast|Hmore].
  - rewrite (Hfull Hlast). split_and!; done.
  - change (2 ^ 32) with 4294967296 in Hsized.
    destruct (percentage_at_most_100 current total) as [Hpositive Hmost];
      [unfold current; lia..|].
    unfold percentage in Hpositive, Hmost. split_and!; done.
Qed.

End progress_bar.

(** ** The further properties on sample inputs *)

Lemma ResultsScreen_order_irrelevant_sample :
  Results.ResultsScreen sample_questions sample_answers hsk
  = Results.ResultsScreen sample_questions (reverse sample_answers) hsk.
Proof.
  apply (ResultsScreen_order_irrelevant sample_questions sample_answers
           (reverse sample_answers) hsk).
  symmetry. apply reverse_Permutation.
Defined.

Lemma score_between_0_and_100_sample :
  ∃ summary z,
    Results.ResultsScreen sample_questions sample_answers hsk = Some summary
    ∧ Results.correctAnswers summary ≤ 4
    ∧ Results.score summary = JS.Number_of_Z z
    ∧ (0 ≤ z ≤ 100)%Z.
Proof.
  apply (score_between_0_and_100 sample_questions sample_answers hsk).
  - reflexivity.
  - discriminate.
  - repeat constructor.
  - apply (bool_decide_eq_true_1 _). reflexivity.
Defined.

Lemma estimatedVocab_of_level_sample :
  ∃ summary vocab,
    Results.ResultsScreen sample_questions sample_answers hsk = Some summary
    ∧ Results.estimatedVocab plain_digits sample_questions sample_answers hsk = Some vocab
    ∧ ((Results.estimatedLevel summary = Results.below_label hsk
        ∧ vocab = "~100-200 words")
       ∨ (∃ size,
            Results.VOCAB_ESTIMATES hsk
              !! (if decide (Results.estimatedLevel summary = Results.floor_level hsk)
                  then Results.floor_key hsk
                  else Results.estimatedLevel summary)
            = Some size
            ∧ (0 < size)%N
            ∧ vocab = "~" +:+ plain_digits size +:+ " words")).
Proof.
  apply (estimatedVocab_of_level plain_digits sample_questions sample_answers hsk).
  repeat constructor.
Defined.

Lemma estimate_monotone_sample :
  ∃ passed passed',
    Results.passedLevel sample_questions failing_answers hsk = Some (last passed)
    ∧ Results.passedLevel sample_questions sample_answers hsk = Some (last passed')
    ∧ passed `prefix_of` passed'
    ∧ passed' `prefix_of` Results.LEVEL_ORDER hsk.
Proof.
  apply (estimate_monotone sample_questions failing_answers sample_answers hsk).
  - reflexivity.
  - reflexivity.
  - reflexivity.
  - repeat constructor.
  - repeat constructor.
  - intros l. unfold correct_at at 1, failing_answers.
    rewrite filter_cons, decide_False; [simpl; lia|].
    intros (q & Hq & Hanswer & _). injection Hq as <-. discriminate Hanswer.
Defined.

Lemma shuffles_use_own_draws_sample :
  ∃ processed processed' p,
    Gemini.processQuestions sample_random sample_parsed 0 = Some processed
    ∧ Gemini.processQuestions (with_draw 3 0.5 sample_random) sample_parsed 0
      = Some processed'
    ∧ processed !! 0 = Some p
    ∧ processed' !! 0 = Some p
    ∧ Gemini.element p = parsed_question "w0" ["a"; "b"; "c"; "d"] "c" 1
    ∧ Gemini.shuffled_options p
      = (Gemini.shuffleArray sample_random
           (Some (spread_options (parsed_question "w0" ["a"; "b"; "c"; "d"] "c" 1))) 0).1.
Proof.
  apply (shuffles_use_own_draws sample_random (with_draw 3 0.5 sample_random)
           sample_parsed 0 (parsed_question "w0" ["a"; "b"; "c"; "d"] "c" 1)).
  - exact sample_parsed_spreads.
  - reflexivity.
  - intros n Hn. vm_compute in Hn.
    unfold with_draw. rewrite decide_False by lia. reflexivity.
Defined.

Lemma shuffleArray_reaches_every_order_sample :
  ∃ random,
    unit_interval random
    ∧ (Gemini.shuffleArray random (Some [1; 2; 3]) 0).1 = [3; 1; 2].
Proof.
  apply (shuffleArray_reaches_every_order [1; 2; 3] [3; 1; 2]).
  - reflexivity.
  - apply (bool_decide_eq_true_1 _). reflexivity.
Defined.

Lemma awaited_decoded_sample :
  ∃ base64Audio binaryString,
    Gemini.Fulfilled "AEAAgA==" = Gemini.Fulfilled base64Audio
    ∧ sample_atob base64Audio = Some binaryString
    ∧ true = true
    ∧ length (String.list_ascii_of_string binaryString) = 2 * 2
    ∧ 0 < 2
    ∧ ∀ i, i < 2 →
        ∃ low high s,
          String.list_ascii_of_string binaryString !! (2 * i) = Some low
          ∧ String.list_ascii_of_string binaryString !! (2 * i + 1) = Some high
          ∧ [0.5%float; (-1)%float] !! i = Some s
          ∧ normalised s
          ∧ (s * 32768)%float = JS.Number_of_Z (int16 (code low) (code high)).
Proof.
  apply (awaited_decoded sample_atob true (Gemini.Fulfilled "AEAAgA==")
           [0.5%float; (-1)%float]).
  vm_compute. reflexivity.
Defined.

Lemma handleStart_outcomes_sample :
  ∃ st' effects,
    App.handleStart sample_env hsk App.initial = Some (st', effects)
    ∧ ((∃ newQuestions,
          Gemini.Fulfilled sample_returned = Gemini.Fulfilled newQuestions
          ∧ newQuestions ≠ [] ∧ Forall well_formed newQuestions
          ∧ st' = {| App.quizState := App.QUIZ; App.questions := newQuestions;
                     App.userAnswers := []; App.error := None;
                     App.language := Some hsk |})
       ∨ (∃ message,
            (Gemini.Fulfilled sample_returned = Gemini.Rejected message
             ∧ (message = "API_KEY environment variable not set."
                ∨ message
                  = "Failed to communicate with the AI model. Please check your API key and try again.")
             ∨ Gemini.Fulfilled sample_returned = Gemini.Fulfilled []
               ∧ message = "Failed to generate questions. The AI returned an empty list.")
            ∧ st' = {| App.quizState := App.WELCOME;
                       App.questions := App.questions App.initial;
                       App.userAnswers := App.userAnswers App.initial;
                       App.error := Some message;
                       App.language := Some hsk |})).
Proof.
  apply (handleStart_outcomes sample_env hsk App.initial
           (Gemini.Fulfilled sample_returned)).
  vm_compute. reflexivity.
Defined.

Lemma app_renders_well_formed_sample :
  ∃ sys,
    run late_timer = Some sys
    ∧ (App.renderContent (App.state sys)).2 = App.state sys
    ∧ match (App.renderContent (App.state sys)).1 with
      | App.QuizScreen props =>
          Quiz.questions props ≠ [] ∧ Forall well_formed (Quiz.questions props)
          ∧ App.userAnswers (App.state sys) = []
      | App.LoadingScreen => App.pending sys ≠ []
      | App.WelcomeScreen _ | App.ResultsScreen _ _ _ => True
      | App.Blank => False
      end.
Proof.
  exists (default sample_started (run late_timer)).
  split; [vm_compute; reflexivity|].
  apply (app_renders_well_formed (default sample_started (run late_timer))).
  apply (run_reachable late_timer). vm_compute. reflexivity.
Defined.

Lemma quiz_to_results_sample :
  ∃ screen answers sys' summary z,
    play sample_started_quiz one_question_quiz = Some screen
    ∧ Session.finished screen = [answers]
    ∧ App.step sample_started (App.Finishes answers) = Some sys'
    ∧ (App.renderContent (App.state sys')).1
      = App.ResultsScreen (Quiz.questions sample_started_quiz) answers hsk
    ∧ Results.ResultsScreen (Quiz.questions sample_started_quiz) answers hsk
      = Some summary
    ∧ Results.correctAnswers summary ≤ 1
    ∧ Results.score summary = JS.Number_of_Z z
    ∧ (0 ≤ z ≤ 100)%Z.
Proof.
  destruct (quiz_to_results sample_started sample_started_quiz
              (default Session.mounted (play sample_started_quiz one_question_quiz))
              [answered 0 "c"])
    as (sys' & summary & z & Hresult).
  - apply (run_reachable [App.Starts hsk; App.Settles 0 sample_env]).
    vm_compute. reflexivity.
  - vm_compute. reflexivity.
  - reflexivity.
  - apply (bool_decide_eq_true_1 _). vm_compute. reflexivity.
  - apply (play_reachable sample_started_quiz one_question_quiz).
    vm_compute. reflexivity.
  - vm_compute. left.
  - eexists _, _, sys', summary, z.
    split; [vm_compute; reflexivity|]. split; [reflexivity|]. exact Hresult.
Defined.

Lemma feedback_agrees_sample :
  ∃ st' effects,
    Quiz.handleAnswerSelect blank_option_quiz "b" Quiz.initial = Some (st', effects)
    ∧ (Quiz.CorrectSound ∈ effects
       ↔ Quiz.getButtonClass blank_option_question (Quiz.selectedOption st') "b"
         = "bg-green-500/80")
    ∧ (Quiz.IncorrectSound ∈ effects
       ↔ Quiz.getButtonClass blank_option_question (Quiz.selectedOption st') "b"
         = "bg-red-500/80")
    ∧ Quiz.getButtonClass blank_option_question (Quiz.selectedOption st')
        (correctAnswer blank_option_question)
      = "bg-green-500/80"
    ∧ ∀ other, other ≠ "b" → other ≠ correctAnswer blank_option_question →
        Quiz.getButtonClass blank_option_question (Quiz.selectedOption st') other
        = "bg-slate-800 opacity-60".
Proof.
  apply (feedback_agrees blank_option_quiz Quiz.initial "b" blank_option_question);
    (reflexivity || discriminate).
Defined.

Lemma cached_playback_round_trip_sample :
  ∃ playing,
    Quiz.handlePlayPauseToggle sample_quiz sample_cached
    = (playing, [Quiz.SourceStart sample_buffer])
    ∧ Quiz.isPlaying playing = true
    ∧ Quiz.handlePlayPauseToggle sample_quiz playing = (playing, [Quiz.SourceStop])
    ∧ Quiz.source_ended playing = sample_cached.
Proof.
  apply (cached_playback_round_trip sample_quiz sample_cached sample_buffer);
    reflexivity.
Defined.

Lemma ProgressBar_width_sample :
  (0 <? ProgressBar.rendered sample_quiz sample_last)%float = true
  ∧ (ProgressBar.rendered sample_quiz sample_last <=? 100)%float = true
  ∧ (3 + 1 = 4 → ProgressBar.rendered sample_quiz sample_last = 100%float).
Proof.
  apply (ProgressBar_width sample_quiz sample_last).
  - reflexivity.
  - simpl. lia.
Defined.

